(** * Migration helpers of the Cypress launchpad: a shallow embedding

    The development follows the TypeScript module that migrates a legacy
    Cypress project: [renameSpecPath], [formatMigrationFile],
    [reduceConfig], [createConfigString], [getSpecs] and [moveSpecFiles].

    JavaScript strings are sequences of UTF-16 code units.  The embedding
    works on strings whose code units are below 256: a [string] of the
    Standard Library at the interface, a [list ascii] inside the regular
    expression engine.  In that range the line terminators are LF and CR.

    Much of the module is regular-expression code, and one function builds
    a pattern at run time from captured text, so the first part of the file
    is a model of the ECMAScript pattern matcher (the backtracking
    semantics of section 22.2.2 of the standard, with the Annex B
    grammar) for patterns without flags. *)

From Stdlib Require Import Strings.String Strings.Ascii ZArith Lia.
From Stdlib Require Import Numbers.DecimalString.
From stdpp Require Import gmap strings list fin_maps.

Set Warnings "-register-all,-clear-no-such-hyp".

(** ** Code units and strings *)

Definition chars (s : string) : list ascii := list_ascii_of_string s.
Definition str (l : list ascii) : string := string_of_list_ascii l.

Definition code (c : ascii) : nat := nat_of_ascii c.

(** [S.substring(from, to)] for [from <= to]. *)
Definition substring (s : list ascii) (from to : nat) : list ascii :=
  take (to - from) (drop from s).

(** LineTerminator, restricted to code units below 256. *)
Definition isLineTerminator (c : ascii) : bool :=
  (code c =? 10) || (code c =? 13).

(** WhiteSpace and LineTerminator, as [String.prototype.trim] strips them. *)
Definition isWhiteSpace (c : ascii) : bool :=
  (code c =? 9) || (code c =? 10) || (code c =? 11) || (code c =? 12)
  || (code c =? 13) || (code c =? 32) || (code c =? 160).

(** ** Regular expressions *)

Module RegExp.

(** Abstract syntax of a pattern.  Capture groups carry their index in the
    capture array, counted from 0 in the order of their opening
    parentheses (the standard counts them from 1). *)
Inductive regex : Type :=
  | Empty
  | Char (c : ascii)
  | AnyChar
  | Class (negated : bool) (ranges : list (ascii * ascii))
  | Seq (r1 r2 : regex)
  | Alt (r1 r2 : regex)
  | Quant (greedy : bool) (min : nat) (max : option nat) (r : regex)
  | Group (i : nat) (r : regex)
  | Look (negated : bool) (r : regex)
  | AssertStart
  | AssertEnd.

(** A compiled pattern: the object [new RegExp(source)] returns. *)
Record t : Type := mk {
  source : string;
  pattern : regex;
  ngroups : nat;
  names : list (string * nat)
}.

(** The indices of the capture groups inside a term. *)
Fixpoint parens (r : regex) : list nat :=
  match r with
  | Seq r1 r2 | Alt r1 r2 => parens r1 ++ parens r2
  | Quant _ _ _ r' | Look _ r' => parens r'
  | Group i r' => i :: parens r'
  | _ => []
  end.

(** *** The matcher *)

Record mstate : Type := State {
  endIndex : nat;
  captures : list (option (list ascii))
}.

Definition cont : Type := mstate -> option mstate.

Definition inRanges (ranges : list (ascii * ascii)) (c : ascii) : bool :=
  existsb (fun '(lo, hi) => (code lo <=? code c) && (code c <=? code hi)) ranges.

Definition clearCaptures (ps : list nat) (caps : list (option (list ascii)))
  : list (option (list ascii)) :=
  foldr (fun i acc => <[i := None]> acc) caps ps.

Section Matcher.

Variable input : list ascii.

(** CharacterSetMatcher. *)
Definition charMatcher (p : ascii -> bool) (x : mstate) (c : cont)
  : option mstate :=
  match input !! endIndex x with
  | Some ch =>
      if p ch then c (State (S (endIndex x)) (captures x)) else None
  | None => None
  end.

(** RepeatMatcher.  The recursion of the standard ends because an
    iteration past the mandatory ones must consume input; [fuel] bounds
    the number of iterations accordingly, and is never used up
    ([repeatMatcher_fuel] below). *)
Fixpoint repeatMatcher (m : mstate -> cont -> option mstate)
    (ps : list nat) (greedy : bool) (fuel min : nat) (max : option nat)
    (x : mstate) (c : cont) : option mstate :=
  match fuel with
  | 0 => None
  | S fuel' =>
      match max with
      | Some 0 => c x
      | _ =>
          let d : cont := fun y =>
            if (min =? 0) && (endIndex y =? endIndex x) then None
            else repeatMatcher m ps greedy fuel' (pred min) (pred <$> max) y c in
          let xr := State (endIndex x) (clearCaptures ps (captures x)) in
          if negb (min =? 0) then m xr d
          else if negb greedy then
            match c x with
            | Some z => Some z
            | None => m xr d
            end
          else
            match m xr d with
            | Some z => Some z
            | None => c x
            end
      end
  end.

Fixpoint matcher (r : regex) (x : mstate) (c : cont) {struct r}
  : option mstate :=
  match r with
  | Empty => c x
  | Char a => charMatcher (Ascii.eqb a) x c
  | AnyChar => charMatcher (fun ch => negb (isLineTerminator ch)) x c
  | Class neg ranges =>
      charMatcher (fun ch => xorb neg (inRanges ranges ch)) x c
  | Seq r1 r2 => matcher r1 x (fun y => matcher r2 y c)
  | Alt r1 r2 =>
      match matcher r1 x c with
      | Some z => Some z
      | None => matcher r2 x c
      end
  | Quant greedy min max r' =>
      repeatMatcher (matcher r') (parens r') greedy
        (S (min + (length input - endIndex x))) min max x c
  | Group i r' =>
      matcher r' x (fun y =>
        c (State (endIndex y)
             (<[i := Some (substring input (endIndex x) (endIndex y))]>
                (captures y))))
  | Look false r' =>
      match matcher r' x Some with
      | Some y => c (State (endIndex x) (captures y))
      | None => None
      end
  | Look true r' =>
      match matcher r' x Some with
      | Some _ => None
      | None => c x
      end
  | AssertStart => if endIndex x =? 0 then c x else None
  | AssertEnd => if endIndex x =? length input then c x else None
  end.

Variable re : t.

(** One attempt at a fixed start index, all captures undefined. *)
Definition matchAt (i : nat) : option mstate :=
  matcher (pattern re) (State i (replicate (ngroups re) None)) Some.

(** RegExpBuiltinExec without the sticky flag: the start index moves
    right until an attempt succeeds or it passes the end of the input.
    [searchFrom n i] tries the indices [i .. i + n]. *)
Fixpoint searchFrom (n i : nat) : option (nat * mstate) :=
  match matchAt i with
  | Some y => Some (i, y)
  | None =>
      match n with
      | 0 => None
      | S n' => searchFrom n' (S i)
      end
  end.

Definition exec : option (nat * mstate) := searchFrom (length input) 0.

(** The [groups] property of a match: undefined when the pattern has no
    named group, else the value of each named group in definition
    order. *)
Definition groups (y : mstate) : option (list (string * option (list ascii))) :=
  match names re with
  | [] => None
  | ns => Some (map (fun '(n, i) => (n, default None (captures y !! i))) ns)
  end.

(** [S.replace(re, replacement)] for a pattern without the global flag
    and a replacement text without [$]. *)
Definition replace (replacement : list ascii) : list ascii :=
  match exec with
  | None => input
  | Some (i, y) =>
      take i input ++ replacement ++ drop (endIndex y) input
  end.

(** [S.replace(re, replacement)] for a pattern with the global flag:
    [next] is nextSourcePosition, [from] is lastIndex. *)
Fixpoint replaceAllFrom (replacement : list ascii) (fuel next from : nat)
  : list ascii :=
  match fuel with
  | 0 => drop next input
  | S fuel' =>
      if length input <? from then drop next input
      else
        match searchFrom (length input - from) from with
        | None => drop next input
        | Some (i, y) =>
            let e := endIndex y in
            let from' := if e =? i then S e else e in
            if next <=? i then
              substring input next i ++ replacement
                ++ replaceAllFrom replacement fuel' e from'
            else replaceAllFrom replacement fuel' next from'
        end
  end.

Definition replaceAll (replacement : list ascii) : list ascii :=
  replaceAllFrom replacement (S (length input)) 0 0.

(** [S.split(re)] without a limit: [p] is the start of the piece being
    built, [q] the index where the next separator is looked for.  The
    separator must start at [q] exactly (the splitter is sticky), and
    every capture of a separator is spliced into the result, undefined
    ones included. *)
Fixpoint splitFrom (fuel p q : nat) : list (option (list ascii)) :=
  match fuel with
  | 0 => [Some (substring input p (length input))]
  | S fuel' =>
      if length input <=? q then [Some (substring input p (length input))]
      else
        match matchAt q with
        | None => splitFrom fuel' p (S q)
        | Some y =>
            let e := endIndex y `min` length input in
            if e =? p then splitFrom fuel' p (S q)
            else Some (substring input p q) :: captures y
                   ++ splitFrom fuel' e e
        end
  end.

Definition split : list (option (list ascii)) :=
  match input with
  | [] => match matchAt 0 with Some _ => [] | None => [Some []] end
  | _ => splitFrom (2 * length input + 2) 0 0
  end.

End Matcher.

(** *** The constructor [new RegExp(source)]

    The pattern text is read one code unit at a time; what the grammar
    decides by looking ahead is kept in the mode of the reader.  The
    syntax covered: alternation, capturing, named, non-capturing and
    lookahead groups, the quantifiers [*], [+], [?] and their lazy forms,
    [.], [^], [$], character classes with ranges, identity and control
    escapes, and the Annex B reading of a lone brace or closing bracket as
    a literal.  A source outside it (braced quantifiers, backreferences,
    class escapes such as [\d], lookbehind, group modifiers, hexadecimal
    and unicode escapes, group names that are not plain ASCII identifiers
    or occur twice) is reported as [Unmodelled]. *)

Inductive outcome (A : Type) : Type :=
  | Compiled (a : A)
  | SyntaxError
  | Unmodelled.
Arguments Compiled {A} a.
Arguments SyntaxError {A}.
Arguments Unmodelled {A}.

Inductive gkind : Type :=
  | GTop
  | GCapture (i : nat)
  | GNonCapture
  | GLook (negated : bool).

(** An open group: its finished alternatives and the terms of the
    alternative being read, both latest first. *)
Record frame : Type := Frame {
  fkind : gkind;
  falts : list regex;
  fterms : list regex
}.

Inductive pending : Type :=
  | PNone
  | PAtom (a : ascii)
  | PDash (a : ascii).

Inductive pmode : Type :=
  | Normal
  | Escaped
  | AfterBrace
  | AfterOpen
  | AfterOpenQ
  | AfterOpenQLt
  | InName (name : list ascii)
  | ClassOpen
  | InClass (negated : bool) (ranges : list (ascii * ascii)) (p : pending)
      (escaped : bool).

(** What a quantifier read next would apply to. *)
Inductive qstate : Type :=
  | QNone
  | QAtom
  | QQuant
  | QLazy.

Record pstate : Type := PState {
  pmod : pmode;
  pquant : qstate;
  ptop : frame;
  pstack : list frame;
  pnext : nat;
  pnames : list (string * nat)
}.

Fixpoint seqOf (terms : list regex) : regex :=
  match terms with
  | [] => Empty
  | [r] => r
  | r :: rest => Seq r (seqOf rest)
  end.

Fixpoint altOf (alts : list regex) : regex :=
  match alts with
  | [] => Empty
  | [r] => r
  | r :: rest => Alt r (altOf rest)
  end.

Definition closeFrame (f : frame) : regex :=
  let body := altOf (rev (seqOf (rev (fterms f)) :: falts f)) in
  match fkind f with
  | GTop | GNonCapture => body
  | GCapture i => Group i body
  | GLook neg => Look neg body
  end.

Definition withMode (m : pmode) (st : pstate) : pstate :=
  PState m (pquant st) (ptop st) (pstack st) (pnext st) (pnames st).

Definition addTerm (r : regex) (q : qstate) (st : pstate) : pstate :=
  let f := ptop st in
  PState Normal q (Frame (fkind f) (falts f) (r :: fterms f))
    (pstack st) (pnext st) (pnames st).

Definition openGroup (k : gkind) (st : pstate) : pstate :=
  PState Normal QNone (Frame k [] []) (ptop st :: pstack st)
    (pnext st) (pnames st).

Definition openCapture (name : option string) (st : pstate) : pstate :=
  PState Normal QNone (Frame (GCapture (pnext st)) [] [])
    (ptop st :: pstack st) (S (pnext st))
    match name with
    | Some n => pnames st ++ [(n, pnext st)]
    | None => pnames st
    end.

Definition quantify (min : nat) (max : option nat) (st : pstate)
  : outcome pstate :=
  match pquant st, fterms (ptop st) with
  | QAtom, r :: terms =>
      let f := ptop st in
      Compiled (PState Normal QQuant
        (Frame (fkind f) (falts f) (Quant true min max r :: terms))
        (pstack st) (pnext st) (pnames st))
  | _, _ => SyntaxError
  end.

Definition makeLazy (st : pstate) : outcome pstate :=
  match fterms (ptop st) with
  | Quant _ min max r :: terms =>
      let f := ptop st in
      Compiled (PState Normal QLazy
        (Frame (fkind f) (falts f) (Quant false min max r :: terms))
        (pstack st) (pnext st) (pnames st))
  | _ => SyntaxError
  end.

Definition isDigit (c : ascii) : bool := (48 <=? code c) && (code c <=? 57).

Definition isNameStart (c : ascii) : bool :=
  ((65 <=? code c) && (code c <=? 90)) || ((97 <=? code c) && (code c <=? 122))
  || (code c =? 95) || (code c =? 36).

Definition isNamePart (c : ascii) : bool := isNameStart c || isDigit c.

Definition validName (name : list ascii) : bool :=
  match name with
  | [] => false
  | c :: rest => isNameStart c && forallb isNamePart rest
  end.

(** The code unit an escape sequence stands for, outside and inside a
    class; [None] for the escapes left out of the model. *)
Definition escapeValue (inClass : bool) (c : ascii) : option ascii :=
  if isDigit c then None
  else if existsb (Ascii.eqb c) (chars "dDwWsSBkcxupP") then None
  else if Ascii.eqb c "b" then
    if inClass then Some (ascii_of_nat 8) else None
  else if Ascii.eqb c "n" then Some (ascii_of_nat 10)
  else if Ascii.eqb c "r" then Some (ascii_of_nat 13)
  else if Ascii.eqb c "t" then Some (ascii_of_nat 9)
  else if Ascii.eqb c "f" then Some (ascii_of_nat 12)
  else if Ascii.eqb c "v" then Some (ascii_of_nat 11)
  else Some c.

Definition stepNormal (st : pstate) (c : ascii) : outcome pstate :=
  if Ascii.eqb c "\" then Compiled (withMode Escaped st)
  else if Ascii.eqb c "(" then Compiled (withMode AfterOpen st)
  else if Ascii.eqb c ")" then
    match pstack st with
    | [] => SyntaxError
    | f :: stack =>
        Compiled (PState Normal QAtom
          (Frame (fkind f) (falts f) (closeFrame (ptop st) :: fterms f))
          stack (pnext st) (pnames st))
    end
  else if Ascii.eqb c "|" then
    let f := ptop st in
    Compiled (PState Normal QNone
      (Frame (fkind f) (seqOf (rev (fterms f)) :: falts f) [])
      (pstack st) (pnext st) (pnames st))
  else if Ascii.eqb c "[" then Compiled (withMode ClassOpen st)
  else if Ascii.eqb c "{" then Compiled (withMode AfterBrace st)
  else if Ascii.eqb c "." then Compiled (addTerm AnyChar QAtom st)
  else if Ascii.eqb c "^" then Compiled (addTerm AssertStart QNone st)
  else if Ascii.eqb c "$" then Compiled (addTerm AssertEnd QNone st)
  else if Ascii.eqb c "*" then quantify 0 None st
  else if Ascii.eqb c "+" then quantify 1 None st
  else if Ascii.eqb c "?" then
    match pquant st with
    | QQuant => makeLazy st
    | _ => quantify 0 (Some 1) st
    end
  else Compiled (addTerm (Char c) QAtom st).

Definition commitPending (ranges : list (ascii * ascii)) (p : pending)
  : list (ascii * ascii) :=
  match p with
  | PNone => ranges
  | PAtom a => ranges ++ [(a, a)]
  | PDash a => ranges ++ [(a, a); ("-"%char, "-"%char)]
  end.

(** A class atom [a] read inside a class; [dash] tells an unescaped [-]. *)
Definition classAtom (neg : bool) (ranges : list (ascii * ascii))
    (p : pending) (dash : bool) (a : ascii) (st : pstate) : outcome pstate :=
  match p with
  | PNone => Compiled (withMode (InClass neg ranges (PAtom a) false) st)
  | PAtom b =>
      if dash then Compiled (withMode (InClass neg ranges (PDash b) false) st)
      else Compiled (withMode (InClass neg (ranges ++ [(b, b)]) (PAtom a) false) st)
  | PDash b =>
      if code b <=? code a
      then Compiled (withMode (InClass neg (ranges ++ [(b, a)]) PNone false) st)
      else SyntaxError
  end.

Definition stepClass (neg : bool) (ranges : list (ascii * ascii))
    (p : pending) (esc : bool) (st : pstate) (c : ascii) : outcome pstate :=
  if esc then
    match escapeValue true c with
    | Some a => classAtom neg ranges p false a st
    | None => Unmodelled
    end
  else if Ascii.eqb c "\" then Compiled (withMode (InClass neg ranges p true) st)
  else if Ascii.eqb c "]" then
    Compiled (addTerm (Class neg (commitPending ranges p)) QAtom st)
  else classAtom neg ranges p (Ascii.eqb c "-") c st.

Definition step (st : pstate) (c : ascii) : outcome pstate :=
  match pmod st with
  | Normal => stepNormal st c
  | Escaped =>
      match escapeValue false c with
      | Some a => Compiled (addTerm (Char a) QAtom st)
      | None => Unmodelled
      end
  | AfterBrace =>
      if isDigit c then Unmodelled
      else stepNormal (addTerm (Char "{") QAtom st) c
  | AfterOpen =>
      if Ascii.eqb c "?" then Compiled (withMode AfterOpenQ st)
      else stepNormal (openCapture None st) c
  | AfterOpenQ =>
      if Ascii.eqb c ":" then Compiled (openGroup GNonCapture st)
      else if Ascii.eqb c "=" then Compiled (openGroup (GLook false) st)
      else if Ascii.eqb c "!" then Compiled (openGroup (GLook true) st)
      else if Ascii.eqb c "<" then Compiled (withMode AfterOpenQLt st)
      else Unmodelled
  | AfterOpenQLt =>
      if Ascii.eqb c "=" || Ascii.eqb c "!" then Unmodelled
      else if Ascii.eqb c ">" then SyntaxError
      else Compiled (withMode (InName [c]) st)
  | InName name =>
      if Ascii.eqb c ">" then
        if existsb (fun a => (128 <=? code a) || Ascii.eqb a "\") name
           || existsb (String.eqb (str name)) (map fst (pnames st))
        then Unmodelled
        else if validName name
        then Compiled (openCapture (Some (str name)) st)
        else SyntaxError
      else Compiled (withMode (InName (name ++ [c])) st)
  | ClassOpen =>
      if Ascii.eqb c "^" then Compiled (withMode (InClass true [] PNone false) st)
      else stepClass false [] PNone false st c
  | InClass neg ranges p esc => stepClass neg ranges p esc st c
  end.

Fixpoint steps (st : pstate) (src : list ascii) : outcome pstate :=
  match src with
  | [] => Compiled st
  | c :: rest =>
      match step st c with
      | Compiled st' => steps st' rest
      | SyntaxError => SyntaxError
      | Unmodelled => Unmodelled
      end
  end.

Definition initial : pstate := PState Normal QNone (Frame GTop [] []) [] 0 [].

(** The end of the pattern text: every group and class must be closed. *)
Definition finish (src : string) (st : pstate) : outcome t :=
  match pmod st, pstack st with
  | Normal, [] =>
      Compiled (mk src (closeFrame (ptop st)) (pnext st) (pnames st))
  | AfterBrace, [] =>
      Compiled (mk src (closeFrame (ptop (addTerm (Char "{") QAtom st)))
                  (pnext st) (pnames st))
  | _, _ => SyntaxError
  end.

Definition create (src : string) : outcome t :=
  match steps initial (chars src) with
  | Compiled st => finish src st
  | SyntaxError => SyntaxError
  | Unmodelled => Unmodelled
  end.

(** A regular expression literal [/src/].  A literal that is not a
    pattern does not load, so the last branch is not taken for the
    literals of a running module. *)
Definition literal (src : string) : t :=
  match create src with
  | Compiled re => re
  | _ => mk src Empty 0 []
  end.

End RegExp.

(** ** Strings *)

Fixpoint startsWith (pat s : list ascii) : bool :=
  match pat, s with
  | [], _ => true
  | a :: pat', b :: s' => Ascii.eqb a b && startsWith pat' s'
  | _ :: _, [] => false
  end.

(** [s.indexOf(pat)]: the least index at which [pat] occurs. *)
Fixpoint indexOf (pat s : list ascii) : option nat :=
  if startsWith pat s then Some 0
  else match s with
       | [] => None
       | _ :: s' => S <$> indexOf pat s'
       end.

(** [s.replace(pat, replacement)] for a string pattern and a replacement
    text without [$]: the first occurrence only. *)
Definition replaceString (s pat replacement : list ascii) : list ascii :=
  match indexOf pat s with
  | None => s
  | Some i => take i s ++ replacement ++ drop (i + length pat) s
  end.

(** ** Renaming a spec path *)

Definition specMarker : RegExp.t :=
  RegExp.literal "([._-]?[s|S]pec.|[.])(?=[j|t]s[x]?)".

Definition renameSpecPath (spec : string) : string :=
  str (RegExp.replace
         (replaceString (chars spec) (chars "integration") (chars "e2e"))
         specMarker (chars ".cy.")).

(** ** Highlighting the parts of a path that a migration changes *)

Inductive defaultFolder : Type :=
  | DirIntegration
  | DirComponent
  | DirE2e.

Definition folderName (f : defaultFolder) : string :=
  match f with
  | DirIntegration => "integration"
  | DirComponent => "component"
  | DirE2e => "e2e"
  end.

(** The two pattern sources; the legacy one is used with the first two
    folders, the new one with the last two.  In the template literals of
    the module the slashes are written [\/], which is the text [/]. *)
Definition getLegacyHighlightRegexp (f : defaultFolder) : string :=
  "cypress/(?<dir>" +:+ folderName f
    +:+ ")/.*?(?<ext>[._-]?[s|S]pec.|[.])(?=[j|t]s[x]?)".

Definition getNewHighlightRegexp (f : defaultFolder) : string :=
  "cypress/(?<dir>" +:+ folderName f +:+ ")/.*?(?<ext>.cy.)".

Inductive TestingType : Type :=
  | TE2e
  | TComponent.

Definition beforeRegexp (tt : TestingType) : string :=
  match tt with
  | TE2e => getLegacyHighlightRegexp DirIntegration
  | TComponent => getLegacyHighlightRegexp DirComponent
  end.

Definition afterRegexp (tt : TestingType) : string :=
  match tt with
  | TE2e => getNewHighlightRegexp DirE2e
  | TComponent => getNewHighlightRegexp DirComponent
  end.

(** [text] is undefined ([None]) when the splitting pattern has a capture
    group that took no part in a separator. *)
Record FilePart : Type := {
  text : option string;
  highlight : bool
}.

(** What a call throws.  [NonSpecFileError] stands for the error of that
    class, whose message is the dedented template filled with the file and
    the pattern; the next two are the built-in errors of the engine, and
    [SystemError] is a failure of the file system or of the glob library. *)
Inductive exn : Type :=
  | NonSpecFileError (file pattern : string)
  | RegExpSyntaxError (pattern : string)
  | TypeError
  | SystemError (code : string).

(** The completion of a call.  [OutOfModel] marks a run that builds a
    pattern outside the embedded syntax; nothing is stated about it. *)
Inductive completion (A : Type) : Type :=
  | Return (a : A)
  | Throw (e : exn)
  | OutOfModel.
Arguments Return {A} a.
Arguments Throw {A} e.
Arguments OutOfModel {A}.

#[global] Instance completion_ret : MRet completion := fun _ a => Return a.
#[global] Instance completion_bind : MBind completion := fun _ _ f m =>
  match m with
  | Return a => f a
  | Throw e => Throw e
  | OutOfModel => OutOfModel
  end.

(** [xs.join(sep)] on strings. *)
Fixpoint join (sep : list ascii) (xs : list (list ascii)) : list ascii :=
  match xs with
  | [] => []
  | [x] => x
  | x :: rest => x ++ sep ++ join sep rest
  end.

(** [higlights.includes(text)]. *)
Definition includes (xs : list (list ascii)) (x : option (list ascii)) : bool :=
  match x with
  | Some v => existsb (fun h => bool_decide (h = v)) xs
  | None => false
  end.

(** [values.filter((x) => x.length > 1)]: reading [length] of an undefined
    value throws. *)
Fixpoint longValues (values : list (option (list ascii)))
  : option (list (list ascii)) :=
  match values with
  | [] => Some []
  | None :: _ => None
  | Some x :: rest =>
      match longValues rest with
      | None => None
      | Some xs => Some (if 1 <? length x then x :: xs else xs)
      end
  end.

Definition formatMigrationFile (file : string) (regexp : RegExp.t)
  : completion (list FilePart) :=
  match RegExp.exec (chars file) regexp with
  | None => Throw (NonSpecFileError file (RegExp.source regexp))
  | Some (_, y) =>
      match RegExp.groups regexp y with
      | None => Throw (NonSpecFileError file (RegExp.source regexp))
      | Some gs =>
          match longValues (map snd gs) with
          | None => Throw TypeError
          | Some higlights =>
              let delimiters := join (chars "|") higlights in
              let src := str (chars "(" ++ delimiters ++ chars ")") in
              match RegExp.create src with
              | RegExp.SyntaxError => Throw (RegExpSyntaxError src)
              | RegExp.Unmodelled => OutOfModel
              | RegExp.Compiled re =>
                  Return (map (fun t =>
                                 {| text := str <$> t;
                                    highlight := includes higlights t |})
                              (RegExp.split (chars file) re))
              end
          end
      end
  end.

(** ** The configuration reducer *)

(** The values of a configuration object.  A number is an integer below
    10^21 in magnitude, which prints in plain decimal notation. *)
Inductive value : Type :=
  | VUndefined
  | VNull
  | VBool (b : bool)
  | VNum (n : Z)
  | VStr (s : string)
  | VArr (items : list value)
  | VObj (props : list (string * value)).

Definition indexName (i : nat) : string :=
  NilEmpty.string_of_uint (Nat.to_uint i).

(** The own enumerable properties of a value, in order: what an object
    spread [{ ...v }] copies. *)
Definition ownProps (v : value) : list (string * value) :=
  match v with
  | VObj props => props
  | VArr items => imap (fun i x => (indexName i, x)) items
  | VStr s => imap (fun i c => (indexName i, VStr (String c ""))) (chars s)
  | _ => []
  end.

(** [{ ...target, ...v }]. *)
Definition spread (target : gmap string value) (v : value) : gmap string value :=
  foldl (fun m kv => <[kv.1 := kv.2]> m) target (ownProps v).

(** What the three buckets hold: each bucket as a finite map from option
    names to values.  The order of the properties of a bucket, which only
    the serializer reads, is kept by the objects of [Ordered] below, and
    [OrderedFacts.reduceConfig_contents] relates the two. *)
Record ConfigOptions : Type := {
  global : gmap string value;
  e2e : gmap string value;
  component : gmap string value
}.

Definition excludedFields : list string :=
  ["pluginsFile"; "$schema"; "componentFolder"].

(** The callback of the reduction, applied to one entry of the input. *)
Definition reduceEntry (acc : ConfigOptions) (entry : string * value)
  : ConfigOptions :=
  let '(key, val) := entry in
  if bool_decide (key ∈ excludedFields) then acc
  else if bool_decide (key = "e2e") then
    {| global := global acc; e2e := spread (e2e acc) val;
       component := component acc |}
  else if bool_decide (key = "component") then
    {| global := global acc; e2e := e2e acc;
       component := spread (component acc) val |}
  else if bool_decide (key = "testFiles") then
    {| global := global acc;
       e2e := <["specPattern" := val]> (e2e acc);
       component := <["specPattern" := val]> (component acc) |}
  else if bool_decide (key = "baseUrl") then
    {| global := global acc; e2e := <[key := val]> (e2e acc);
       component := component acc |}
  else
    {| global := <[key := val]> (global acc); e2e := e2e acc;
       component := component acc |}.

(** [cfg] is given by [Object.entries(cfg)]. *)
Definition reduceConfig (cfg : list (string * value)) : ConfigOptions :=
  foldl reduceEntry {| global := ∅; e2e := ∅; component := ∅ |} cfg.

(** ** The buckets with their property order

    [reduceConfig] above keeps what each bucket holds.  What the
    serializer prints depends on the order of the properties as well, the
    order of [OrdinaryOwnPropertyKeys]: the array indices in ascending
    order, then the other keys in the order in which they were created.
    The definitions below are the same reduction on objects that keep
    this order: an object is the list of its properties, in order. *)
Module Ordered.

(** An array index: the canonical decimal text of an integer below
    2^32 - 1. *)
Definition arrayIndex (k : string) : option N :=
  match NilEmpty.uint_of_string k with
  | Some u =>
      let n := N.of_uint u in
      if String.eqb (NilEmpty.string_of_uint (N.to_uint n)) k
         && (n <? 4294967295)%N
      then Some n else None
  | None => None
  end.

(** A new key [k] comes before the key [k'] that is there: [k] is an
    array index, and [k'] is a greater one or none. *)
Definition before (k k' : string) : bool :=
  match arrayIndex k, arrayIndex k' with
  | Some n, Some m => (n <? m)%N
  | Some _, None => true
  | None, _ => false
  end.

(** CreateDataProperty on an ordinary object: a property that is there
    keeps its place and takes the new value; a new array index goes among
    the array indices; any other new key goes last. *)
Fixpoint setProp (k : string) (v : value) (o : list (string * value))
  : list (string * value) :=
  match o with
  | [] => [(k, v)]
  | (k', v') :: rest =>
      if String.eqb k' k then (k, v) :: rest
      else if before k k' then (k, v) :: o
      else (k', v') :: setProp k v rest
  end.

(** [{ ...target, ...v }]. *)
Definition spread (target : list (string * value)) (v : value)
  : list (string * value) :=
  foldl (fun o kv => setProp kv.1 kv.2 o) target (ownProps v).

Record ConfigOptions : Type := {
  global : list (string * value);
  e2e : list (string * value);
  component : list (string * value)
}.

Definition reduceEntry (acc : ConfigOptions) (entry : string * value)
  : ConfigOptions :=
  let '(key, val) := entry in
  if bool_decide (key ∈ excludedFields) then acc
  else if bool_decide (key = "e2e") then
    {| global := global acc; e2e := spread (e2e acc) val;
       component := component acc |}
  else if bool_decide (key = "component") then
    {| global := global acc; e2e := e2e acc;
       component := spread (component acc) val |}
  else if bool_decide (key = "testFiles") then
    {| global := global acc;
       e2e := setProp "specPattern" val (e2e acc);
       component := setProp "specPattern" val (component acc) |}
  else if bool_decide (key = "baseUrl") then
    {| global := global acc; e2e := setProp key val (e2e acc);
       component := component acc |}
  else
    {| global := setProp key val (global acc); e2e := e2e acc;
       component := component acc |}.

Definition reduceConfig (cfg : list (string * value)) : ConfigOptions :=
  foldl reduceEntry {| global := []; e2e := []; component := [] |} cfg.

(** The lists that are objects: no key occurs twice, and the array
    indices come first, in ascending order. *)
Fixpoint isObject (o : list (string * value)) : Prop :=
  match o with
  | [] => True
  | (k', _) :: rest =>
      Forall (fun kv => kv.1 ≠ k' ∧ before kv.1 k' = false) rest
      ∧ isObject rest
  end.

(** What an object holds. *)
Definition contents (o : list (string * value)) : gmap string value :=
  list_to_map o.

End Ordered.

(** ** Rendering the configuration module *)

Definition nl : string := String (ascii_of_nat 10) "".

(** ToBoolean. *)
Definition truthy (v : value) : bool :=
  match v with
  | VUndefined | VNull | VBool false | VNum 0 | VStr "" => false
  | _ => true
  end.

Fixpoint joinStrings (sep : string) (xs : list string) : string :=
  match xs with
  | [] => ""
  | [x] => x
  | x :: rest => x +:+ sep +:+ joinStrings sep rest
  end.

(** ToString, as a template literal applies it. *)
Fixpoint toString (v : value) : string :=
  match v with
  | VUndefined => "undefined"
  | VNull => "null"
  | VBool true => "true"
  | VBool false => "false"
  | VNum n => NilEmpty.string_of_int (Z.to_int n)
  | VStr s => s
  | VArr items =>
      joinStrings ","
        (map (fun x => match x with
                       | VUndefined | VNull => ""
                       | _ => toString x
                       end) items)
  | VObj _ => "[object Object]"
  end.

(** [cfg.key]: undefined when the object has no such property. *)
Definition getProp (cfg : list (string * value)) (key : string) : value :=
  match list_find (fun kv => kv.1 = key) cfg with
  | Some (_, kv) => kv.2
  | None => VUndefined
  end.

Fixpoint trimStart (s : list ascii) : list ascii :=
  match s with
  | c :: s' => if isWhiteSpace c then trimStart s' else s
  | [] => []
  end.

Definition trim (s : list ascii) : list ascii :=
  reverse (trimStart (reverse (trimStart s))).

Definition outerBraces : RegExp.t := RegExp.literal "^[{]|[}]$".

Section Rendering.

(** Two library functions the module calls: [stringify(obj, { indent })]
    of stringify-object, which is given the object with its properties in
    order, and [path.normalize]. *)
Variable stringify : list (string * value) -> string -> string.
Variable normalize : string -> string.

Definition getPluginRelativePath (cfg : list (string * value)) : string :=
  let DEFAULT_PLUGIN_PATH := normalize "/cypress/plugins/index.js" in
  if truthy (getProp cfg "pluginsFile")
  then toString (getProp cfg "pluginsFile")
  else DEFAULT_PLUGIN_PATH.

Definition formatObjectForConfig (obj : list (string * value)) (spaces : nat)
  : string :=
  str (trim (RegExp.replaceAll
               (chars (stringify obj (str (replicate spaces " "%char))))
               outerBraces [])).

Definition createTestingTypeTemplate (tt : TestingType) (pluginPath : string)
    (options : list (string * value)) : string :=
  nl +:+ "  " +:+ (match tt with TE2e => "e2e" | TComponent => "component" end)
     +:+ ": {" +:+ nl
     +:+ "    setupNodeEvents(on, config) {" +:+ nl
     +:+ "      return require('" +:+ pluginPath +:+ "')" +:+ nl
     +:+ "    }," +:+ nl
     +:+ "    " +:+ formatObjectForConfig options 4 +:+ nl
     +:+ "  },".

(** [Object.keys(obj).length] is the length of the list: a key occurs
    once in a bucket ([OrderedFacts.reduceConfig_objects] below). *)
Definition createCypressConfigJs (config : Ordered.ConfigOptions)
    (pluginPath : string) : string :=
  let globalString :=
    if 0 <? length (Ordered.global config)
    then nl +:+ formatObjectForConfig (Ordered.global config) 2 +:+ ","
    else "" in
  let componentString :=
    if 0 <? length (Ordered.component config)
    then createTestingTypeTemplate TComponent pluginPath
           (Ordered.component config)
    else "" in
  let e2eString :=
    if 0 <? length (Ordered.e2e config)
    then createTestingTypeTemplate TE2e pluginPath (Ordered.e2e config)
    else "" in
  "const { defineConfig } = require('cypress')" +:+ nl +:+ nl
    +:+ "module.exports = defineConfig({" +:+ globalString +:+ e2eString
    +:+ componentString +:+ nl +:+ "})".

Definition createConfigString (cfg : list (string * value)) : string :=
  createCypressConfigJs (Ordered.reduceConfig cfg) (getPluginRelativePath cfg).

End Rendering.

(** ** Listing and moving spec files *)

Record RelativeSpecWithTestingType : Type := {
  testingType : TestingType;
  relative : string
}.

Record Specs : Type := {
  before : list RelativeSpecWithTestingType;
  after : list RelativeSpecWithTestingType
}.

Section Listing.

(** [globby(pattern, { onlyFiles: true, cwd })]. *)
Variable globby : string -> string -> completion (list string).

(** [!dir] holds of null and of the empty string. *)
Definition findByTestingType (cwd : string) (dir : option string)
    (tt : TestingType) : completion (list RelativeSpecWithTestingType) :=
  match dir with
  | None | Some "" => Return []
  | Some d =>
      files ← globby (d +:+ "/**/*") cwd;
      Return (map (fun relative =>
                     {| relative := relative; testingType := tt |}) files)
  end.

(** Both listings are awaited; the result exists when both succeed.  When
    both fail, which error reaches the caller is a matter of timing; the
    embedding gives the one of the component listing. *)
Definition getSpecs (projectRoot : string)
    (componentDirPath e2eDirPath : option string) : completion Specs :=
  comp ← findByTestingType projectRoot componentDirPath TComponent;
  e2e ← findByTestingType projectRoot e2eDirPath TE2e;
  Return {| before := comp ++ e2e;
            after := map (fun x =>
                            {| testingType := testingType x;
                               relative := renameSpecPath (relative x) |})
                         (comp ++ e2e) |}.

End Listing.

Record Move : Type := {
  from : string;
  to : string
}.

Section Moving.

(** The file system: its states and the three operations the module
    calls, [fs.readdir], [fs.statSync(p).isFile()] and [fs.moveSync] of
    fs-extra with default options, together with [path.join].  A call
    that fails leaves the state as it was. *)
Variable FS : Type.
Variable readdir : FS -> string -> completion (list string).
Variable statIsFile : FS -> string -> completion bool.
Variable moveSync : FS -> string -> string -> completion FS.
Variable pathJoin : string -> string -> string.

Fixpoint filterFiles (σ : FS) (dirPath : string) (files : list string)
  : completion (list string) :=
  match files with
  | [] => Return []
  | file :: rest =>
      b ← statIsFile σ (pathJoin dirPath file);
      kept ← filterFiles σ dirPath rest;
      Return (if b : bool then file :: kept else kept)
  end.

Definition getSpecFiles (σ : FS) (dirPath : string)
  : completion (list string) :=
  files ← readdir σ dirPath;
  filterFiles σ dirPath files.

(** [specs.forEach((spec) => fs.moveSync(spec.from, spec.to))]: the state
    reached and how the loop ended. *)
Fixpoint moveEach (σ : FS) (specs : list Move) : FS * completion () :=
  match specs with
  | [] => (σ, Return ())
  | spec :: rest =>
      match moveSync σ (from spec) (to spec) with
      | Return σ' => moveEach σ' rest
      | Throw e => (σ, Throw e)
      | OutOfModel => (σ, OutOfModel)
      end
  end.

Definition specMoves (e2eDirPath : string) (files : list string) : list Move :=
  map (fun spec =>
         let specPath := e2eDirPath +:+ "/" +:+ spec in
         {| from := specPath; to := renameSpecPath specPath |}) files.

Definition moveSpecFiles (σ : FS) (e2eDirPath : string) : FS * completion () :=
  match getSpecFiles σ e2eDirPath with
  | Return files => moveEach σ (specMoves e2eDirPath files)
  | Throw e => (σ, Throw e)
  | OutOfModel => (σ, OutOfModel)
  end.

End Moving.

Arguments filterFiles {FS} statIsFile pathJoin σ dirPath files.
Arguments getSpecFiles {FS} readdir statIsFile pathJoin σ dirPath.
Arguments moveEach {FS} moveSync σ specs.
Arguments moveSpecFiles {FS} readdir statIsFile moveSync pathJoin σ e2eDirPath.

(** ** Notions used in the statements *)

(** The three buckets share no option name. *)
Definition bucketsDisjoint (c : ConfigOptions) : Prop :=
  dom (global c) ## dom (e2e c)
  ∧ dom (global c) ## dom (component c)
  ∧ dom (e2e c) ## dom (component c).

(** The option names nested under the top-level key [section]. *)
Definition nestedKeys (section : string) (cfg : list (string * value))
  : list string :=
  flat_map (fun kv =>
              if bool_decide (kv.1 = section) then map fst (ownProps kv.2)
              else []) cfg.

(** The top-level keys with a rule of their own. *)
Definition reservedKeys : list string :=
  ["pluginsFile"; "$schema"; "componentFolder"; "e2e"; "component";
   "testFiles"; "baseUrl"].

(** A small file system to try the statements on: a state is the set of
    the paths of its regular files. *)
Module FlatFS.

Fixpoint stripPrefix (p s : string) : option string :=
  match p, s with
  | EmptyString, _ => Some s
  | String a p', String b s' =>
      if Ascii.eqb a b then stripPrefix p' s' else None
  | String _ _, EmptyString => None
  end.

Definition readdir (σ : gset string) (d : string) : completion (list string) :=
  Return (remove_dups (omap (stripPrefix (d +:+ "/")) (elements σ))).

Definition statIsFile (σ : gset string) (p : string) : completion bool :=
  Return (bool_decide (p ∈ σ)).

Definition moveSync (σ : gset string) (a b : string)
  : completion (gset string) :=
  if bool_decide (a ∈ σ) && negb (bool_decide (b ∈ σ))
  then Return ({[b]} ∪ σ ∖ {[a]})
  else Throw (SystemError (if bool_decide (a ∈ σ) then "EEXIST" else "ENOENT")).

Definition pathJoin (d f : string) : string := d +:+ "/" +:+ f.

End FlatFS.

(** ** The words a pattern can match

    [Lang r w]: the term [r] can consume the word [w].  Assertions and
    lookaheads consume nothing; of a quantifier only the upper bound is
    kept.  The matcher is sound for it, which is what bounds the text a
    capture group can hold. *)
Module Words.
Import RegExp.

Fixpoint Lang (r : regex) (w : list ascii) : Prop :=
  match r with
  | Empty => w = []
  | Char a => w = [a]
  | AnyChar => ∃ c, w = [c] ∧ isLineTerminator c = false
  | Class neg ranges => ∃ c, w = [c] ∧ xorb neg (inRanges ranges c) = true
  | Seq r1 r2 => ∃ w1 w2, w = w1 ++ w2 ∧ Lang r1 w1 ∧ Lang r2 w2
  | Alt r1 r2 => Lang r1 w ∨ Lang r2 w
  | Quant _ _ max r' =>
      ∃ ws, w = concat ws ∧ Forall (Lang r') ws
            ∧ ∀ k, max = Some k → length ws ≤ k
  | Group _ r' => Lang r' w
  | Look _ _ | AssertStart | AssertEnd => w = []
  end.

(** Every capture group of [r] holds words of [P] only. *)
Fixpoint GroupsIn (P : nat → list ascii → Prop) (r : regex) : Prop :=
  match r with
  | Seq r1 r2 | Alt r1 r2 => GroupsIn P r1 ∧ GroupsIn P r2
  | Quant _ _ _ r' | Look _ r' => GroupsIn P r'
  | Group i r' => (∀ w, Lang r' w → P i w) ∧ GroupsIn P r'
  | _ => True
  end.

Definition CapturesIn (P : nat → list ascii → Prop)
    (caps : list (option (list ascii))) : Prop :=
  ∀ i w, caps !! i = Some (Some w) → P i w.

(** How a state reached by matching relates to the state matching
    started in. *)
Record Reached (input : list ascii) (P : nat → list ascii → Prop)
    (x y : mstate) : Prop := {
  reached_from : endIndex x ≤ endIndex y;
  reached_to : endIndex y ≤ length input;
  reached_length : length (captures y) = length (captures x);
  reached_captures : CapturesIn P (captures y)
}.

(** What soundness says of a matcher [m] for a term whose words are
    [L]: a result comes from the continuation, applied to a state
    reached by consuming a word of [L]. *)
Definition Sound (input : list ascii) (P : nat → list ascii → Prop)
    (L : list ascii → Prop) (m : mstate → cont → option mstate) : Prop :=
  ∀ x c z,
    endIndex x ≤ length input → CapturesIn P (captures x) →
    m x c = Some z →
    ∃ y, c y = Some z ∧ Reached input P x y
         ∧ L (substring input (endIndex x) (endIndex y)).

End Words.

(** ** The pattern text built from captured values *)
Module Wrapped.
Import RegExp.

(** A code unit that the reader takes in its normal mode as a term or as
    the start of an alternative: it neither opens nor closes a group or a
    class, does not escape, and is no brace and no quantifier. *)
Definition inert (c : ascii) : bool :=
  negb (existsb (Ascii.eqb c) (chars "()[\{*+?")).

(** The code units that leave the wrapped text ill-formed when they come
    last in it. *)
Definition structural (c : ascii) : bool :=
  existsb (Ascii.eqb c) (chars "()[\").

(** The reader is inside the one group that wraps the text. *)
Definition InGroup (st : pstate) : Prop :=
  pstack st = [Frame GTop [] []]
  ∧ fkind (ptop st) = GCapture 0
  ∧ pnext st = 1
  ∧ pnames st = []
  ∧ pmod st = Normal.

Definition legacyFolder (tt : TestingType) : string :=
  match tt with
  | TE2e => "integration"
  | TComponent => "component"
  end.

(** What the two groups of a legacy pattern can hold: the folder name,
    and a marker that is one code unit or inert code units, a literal c
    and one more code unit. *)
Definition legacyCaptures (tt : TestingType) (i : nat) (w : list ascii)
  : Prop :=
  match i with
  | 0 => w = chars (legacyFolder tt)
  | _ => length w ≤ 1
         ∨ ∃ pre X, w = pre ++ ["c"; X]%char ∧ Forall (λ c, inert c = true) pre
  end.

End Wrapped.

(** ** The groups a match defines *)
Module Defined.
Import RegExp.

(** The groups that every match of the term sets. *)
Fixpoint sets (r : regex) : list nat :=
  match r with
  | Seq r1 r2 => sets r1 ++ sets r2
  | Alt r1 r2 => filter (λ i, i ∈ sets r2) (sets r1)
  | Group i r' => i :: sets r'
  | _ => []
  end.

Definition DefinedAt (caps : list (option (list ascii))) (i : nat) : Prop :=
  ∃ w, caps !! i = Some (Some w).

(** A matcher [m] for a term with the groups [ps]: the state given to the
    continuation has the groups [ss] defined, and keeps defined what was
    and is no group of the term. *)
Definition Defines (ss ps : list nat) (m : mstate → cont → option mstate)
  : Prop :=
  ∀ x c z,
    Forall (λ i, i < length (captures x)) ps →
    m x c = Some z →
    ∃ y, c y = Some z
         ∧ length (captures y) = length (captures x)
         ∧ (∀ i, i ∈ ss → DefinedAt (captures y) i)
         ∧ (∀ i, DefinedAt (captures x) i → i ∉ ps → DefinedAt (captures y) i).

End Defined.

(** ** The fuel of the loops *)
Module Fuel.
Import RegExp.

(** A matcher that calls its continuation only at indices from the
    current one to the end of the input: two continuations that agree
    there give the same result. *)
Definition Local (input : list ascii) (m : mstate → cont → option mstate)
  : Prop :=
  ∀ x c c',
    endIndex x ≤ length input →
    (∀ y, endIndex x ≤ endIndex y → endIndex y ≤ length input → c y = c' y) →
    m x c = m x c'.

(** The number of rounds [splitFrom] can still make from [p] and [q]. *)
Definition splitRounds (input : list ascii) (p q : nat) : nat :=
  2 * (length input - q) + (if p =? q then 0 else 1).

End Fuel.

(** ** Matching in a longer text *)
Module Shifted.
Import RegExp.

(** A state of a match in a text, seen from a text with [n] more code
    units in front. *)
Definition shift (n : nat) (x : mstate) : mstate :=
  State (endIndex x + n) (captures x).

(** The term does not look at the start of the input. *)
Fixpoint noStart (r : regex) : bool :=
  match r with
  | AssertStart => false
  | Seq r1 r2 | Alt r1 r2 => noStart r1 && noStart r2
  | Quant _ _ _ r' | Group _ r' | Look _ r' => noStart r'
  | _ => true
  end.

End Shifted.

(** ** The marker of a spec file

    The two parts of the marker pattern of [renameSpecPath], which are
    also the end of the two legacy patterns: the alternatives for the
    marker, and the lookahead for the script extension. *)
Definition markerAlt : RegExp.regex :=
  RegExp.Alt
    (RegExp.Seq
       (RegExp.Quant true 0 (Some 1)
          (RegExp.Class false [("."%char, "."%char); ("_"%char, "_"%char);
                               ("-"%char, "-"%char)]))
       (RegExp.Seq
          (RegExp.Class false [("s"%char, "s"%char); ("|"%char, "|"%char);
                               ("S"%char, "S"%char)])
          (RegExp.Seq (RegExp.Char "p")
             (RegExp.Seq (RegExp.Char "e")
                (RegExp.Seq (RegExp.Char "c") RegExp.AnyChar)))))
    (RegExp.Class false [("."%char, "."%char)]).

Definition scriptLook : RegExp.regex :=
  RegExp.Look false
    (RegExp.Seq
       (RegExp.Class false [("j"%char, "j"%char); ("|"%char, "|"%char);
                            ("t"%char, "t"%char)])
       (RegExp.Seq (RegExp.Char "s")
          (RegExp.Quant true 0 (Some 1)
             (RegExp.Class false [("x"%char, "x"%char)])))).

(** What they stand for, as a text: a marker is a dot, or the text spec
    (with a small or a capital s, or a bar in its place) with one more
    code unit after it and at most one separator before it; it counts
    where the text goes on with js or ts (or a bar in place of that
    letter). *)
Definition markerWord (w : list ascii) : Prop :=
  w = ["."%char]
  ∨ ∃ sep c X,
      w = sep ++ [c; "p"; "e"; "c"; X]%char
      ∧ (sep = [] ∨ ∃ d, sep = [d] ∧ d ∈ ["."; "_"; "-"]%char)
      ∧ c ∈ ["s"; "|"; "S"]%char
      ∧ isLineTerminator X = false.

Definition scriptAhead (s : list ascii) : Prop :=
  ∃ a rest, s = a :: "s"%char :: rest ∧ a ∈ ["j"; "|"; "t"]%char.

(** The text [s] has the marker [w] after [pre], and [post] after it. *)
Definition markerIn (s pre w post : list ascii) : Prop :=
  s = pre ++ w ++ post ∧ markerWord w ∧ scriptAhead post.

(** ** The captures of the patterns for migrated paths *)
Module Migrated.
Import RegExp.

Definition newFolder (tt : TestingType) : string :=
  match tt with
  | TE2e => "e2e"
  | TComponent => "component"
  end.

(** What the two groups of a pattern for migrated paths can hold: the
    folder name, and the text cy between two code units. *)
Definition newCaptures (tt : TestingType) (i : nat) (w : list ascii) : Prop :=
  match i with
  | 0 => w = chars (newFolder tt)
  | _ => ∃ X Y, w = [X; "c"; "y"; Y]%char
  end.

(** A code unit that stands for itself in a pattern. *)
Definition plain (c : ascii) : bool :=
  negb (existsb (Ascii.eqb c) (chars "()[\{*+?.^$|")).

End Migrated.

(** ** The shape of the legacy patterns and of the splitting patterns *)
Module Shapes.
Import RegExp.

(** The text [l] as a term, before the term [r]. *)
Definition lit (l : list ascii) (r : regex) : regex :=
  foldr (λ c r, Seq (Char c) r) r l.

(** A legacy pattern, for a folder name. *)
Definition legacyPattern (folder : list ascii) : regex :=
  lit (chars "cypress/")
    (Seq (Group 0 (seqOf (map Char folder)))
       (Seq (Char "/")
          (Seq (Quant false 0 None AnyChar)
             (Seq (Group 1 markerAlt) scriptLook)))).

(** The marker of the usual spec files: a separator, the text spec with
    a small or a capital s, and a dot. *)
Definition usualMarker (d c : ascii) : list ascii :=
  [d; c; "p"; "e"; "c"; "."]%char.

(** The pattern that [formatMigrationFile] builds from a folder name and
    a usual marker: a dot of the marker stands for any code unit. *)
Definition splitAlt (folder : list ascii) (d c : ascii) : regex :=
  Alt (seqOf (map Char folder))
    (Seq (if Ascii.eqb d "." then AnyChar else Char d)
       (Seq (Char c)
          (Seq (Char "p") (Seq (Char "e") (Seq (Char "c") AnyChar))))).

End Shapes.

(** * Properties *)

Lemma chars_app a b : chars (a +:+ b) = chars a ++ chars b.
Proof.
  unfold chars. induction a as [|c a IH]; [reflexivity|].
  change (String c a +:+ b) with (String c (a +:+ b)). simpl. by rewrite IH.
Qed.

Lemma str_app a b : str (a ++ b) = str a +:+ str b.
Proof.
  unfold str. induction a as [|c a IH]; [reflexivity|].
  simpl. rewrite IH. reflexivity.
Qed.

Lemma str_chars s : str (chars s) = s.
Proof. apply string_of_list_ascii_of_string. Qed.

Lemma chars_str l : chars (str l) = l.
Proof. apply list_ascii_of_string_of_list_ascii. Qed.

Lemma chars_inj a b : chars a = chars b → a = b.
Proof. intros H. by rewrite <- (str_chars a), <- (str_chars b), H. Qed.

Lemma startsWith_spec pat s :
  startsWith pat s = true ↔ ∃ post, s = pat ++ post.
Proof.
  revert s. induction pat as [|a pat IH]; intros s; simpl.
  - split; [intros _; by exists s | done].
  - destruct s as [|b s]; simpl.
    + split; [done | intros [post H]; discriminate].
    + rewrite andb_true_iff, IH. split.
      * intros [Hab [post ->]]. apply Ascii.eqb_eq in Hab as ->. by exists post.
      * intros [post [= -> ->]]. split; [apply Ascii.eqb_refl | by exists post].
Qed.

Lemma indexOf_Some pat s i :
  indexOf pat s = Some i →
  ∃ pre post, s = pre ++ pat ++ post ∧ length pre = i
    ∧ ∀ pre' post', s = pre' ++ pat ++ post' → i ≤ length pre'.
Proof.
  revert i. induction s as [|b s IH]; intros i; simpl.
  - destruct (startsWith pat []) eqn:E; [|done].
    intros [= <-]. apply startsWith_spec in E as [post E].
    exists [], post. split_and!; [done | done | intros; lia].
  - destruct (startsWith pat (b :: s)) eqn:E.
    + intros [= <-]. apply startsWith_spec in E as [post E].
      exists [], post. split_and!; [done | done | intros; lia].
    + destruct (indexOf pat s) as [j|] eqn:Ej; [|done].
      intros [= <-]. destruct (IH j eq_refl) as (pre & post & -> & Hlen & Hmin).
      exists (b :: pre), post. split_and!; [done | simpl; lia |].
      intros [|b' pre'] post' Heq.
      * exfalso. assert (startsWith pat (b :: pre ++ pat ++ post) = true) as E'.
        { apply startsWith_spec. by exists post'. }
        congruence.
      * simpl in Heq. injection Heq as -> Heq. apply Hmin in Heq. simpl. lia.
Qed.

Lemma indexOf_None pat s :
  indexOf pat s = None → ∀ pre post, s ≠ pre ++ pat ++ post.
Proof.
  induction s as [|b s IH]; simpl.
  - destruct (startsWith pat []) eqn:E; [done|]. intros _ pre post Heq.
    destruct pre; [|done]. simpl in Heq.
    assert (startsWith pat [] = true) by (apply startsWith_spec; eauto).
    congruence.
  - destruct (startsWith pat (b :: s)) eqn:E; [done|].
    destruct (indexOf pat s) eqn:Ej; [done|]. intros _ [|b' pre] post Heq.
    + assert (startsWith pat (b :: s) = true) by (apply startsWith_spec; eauto).
      congruence.
    + injection Heq as -> Heq. by eapply IH.
Qed.

(** [replaceString] rewrites the leftmost occurrence, wherever it lies. *)
Lemma replaceString_first s pat repl pre post :
  s = pre ++ pat ++ post →
  (∀ pre' post', s = pre' ++ pat ++ post' → length pre ≤ length pre') →
  replaceString s pat repl = pre ++ repl ++ post.
Proof.
  intros Hs Hmin. unfold replaceString.
  destruct (indexOf pat s) as [i|] eqn:E.
  - apply indexOf_Some in E as (pre0 & post0 & Hs0 & Hlen & Hmin0).
    assert (length pre0 = length pre) as Hl.
    { apply Nat.le_antisymm; [rewrite Hlen; by eapply Hmin0 | by eapply Hmin]. }
    assert (pre0 = pre) as ->.
    { rewrite Hs0 in Hs. apply (f_equal (take (length pre))) in Hs.
      rewrite take_app_length in Hs. by rewrite <- Hl, take_app_length in Hs. }
    rewrite Hs0 in Hs. apply app_inv_head in Hs. apply app_inv_head in Hs.
    subst post0 i. rewrite Hs0.
    rewrite take_app_length. f_equal. f_equal.
    rewrite drop_app_add', drop_app_length by done. done.
  - exfalso. by eapply indexOf_None.
Qed.

Lemma replaceString_absent s pat repl :
  (∀ pre post, s ≠ pre ++ pat ++ post) → replaceString s pat repl = s.
Proof.
  intros Hno. unfold replaceString.
  destruct (indexOf pat s) as [i|] eqn:E; [|done].
  apply indexOf_Some in E as (pre0 & post0 & Hs0 & _). by destruct (Hno pre0 post0).
Qed.

(** C1: the two legacy paths of the specification are renamed as stated. *)
Theorem renameSpecPath_examples :
  renameSpecPath "cypress/integration/foo.spec.js" = "cypress/e2e/foo.cy.js"
  ∧ renameSpecPath "cypress/integration/foo_spec.ts" = "cypress/e2e/foo.cy.ts".
Proof. split; vm_compute; reflexivity. Qed.

(** C10: renaming is not idempotent.  On the migrated path
    cypress/e2e/foo.cy.js the bare dot before the extension matches the
    marker pattern again, so a second application inserts a second marker. *)
Theorem renameSpecPath_not_idempotent :
  renameSpecPath "cypress/e2e/foo.cy.js" = "cypress/e2e/foo.cy.cy.js"
  ∧ renameSpecPath (renameSpecPath "cypress/integration/foo.spec.js")
    ≠ renameSpecPath "cypress/integration/foo.spec.js".
Proof. split; [vm_compute; reflexivity | vm_compute; discriminate]. Qed.

(** C2, as the code has it: the first rewrite of [renameSpecPath] replaces
    the leftmost occurrence of the text integration by e2e wherever it
    lies, inside a longer path segment as well; it replaces that occurrence
    only, and leaves a path without the text unchanged. *)
Theorem renameSpecPath_first_rewrite (spec : string) :
  let r := replaceString (chars spec) (chars "integration") (chars "e2e") in
  renameSpecPath spec = str (RegExp.replace r specMarker (chars ".cy."))
  ∧ (∀ pre post,
       chars spec = pre ++ chars "integration" ++ post →
       (∀ pre' post', chars spec = pre' ++ chars "integration" ++ post' →
                      length pre ≤ length pre') →
       r = pre ++ chars "e2e" ++ post)
  ∧ ((∀ pre post, chars spec ≠ pre ++ chars "integration" ++ post) →
     r = chars spec).
Proof.
  split_and!.
  - reflexivity.
  - intros pre post Hs Hmin. by apply replaceString_first.
  - apply replaceString_absent.
Qed.

Lemma renameSpecPath_first_rewrite_witness :
  replaceString (chars "integration/integration") (chars "integration")
    (chars "e2e") = chars "e2e/integration"
  ∧ replaceString (chars "cypress") (chars "integration") (chars "e2e")
    = chars "cypress".
Proof.
  split.
  - destruct (renameSpecPath_first_rewrite "integration/integration")
      as (_ & H & _).
    apply (H [] (chars "/integration")); [reflexivity | intros; simpl; lia].
  - destruct (renameSpecPath_first_rewrite "cypress") as (_ & _ & H).
    apply H. intros pre post Heq. apply (f_equal length) in Heq.
    rewrite !length_app in Heq. simpl in Heq. lia.
Defined.

(** C2, as stated, fails: in cypress/my-integration-tests/login no path
    segment is integration, yet the first rewrite changes the path. *)
Lemma renameSpecPath_rewrites_inside_segment :
  str (replaceString (chars "cypress/my-integration-tests/login")
         (chars "integration") (chars "e2e"))
  = "cypress/my-e2e-tests/login"
  ∧ renameSpecPath "cypress/my-integration-tests/login"
    = "cypress/my-e2e-tests/login".
Proof. split; vm_compute; reflexivity. Qed.

(** *** The reducer *)

Lemma reduceConfig_snoc cfg entry :
  reduceConfig (cfg ++ [entry]) = reduceEntry (reduceConfig cfg) entry.
Proof. unfold reduceConfig. by rewrite foldl_app. Qed.

Lemma list_to_map_snoc_lookup (l : list (string * value)) k x j :
  list_to_map (M := gmap string value) (l ++ [(k, x)]) !! j
  = match list_to_map (M := gmap string value) l !! j with
    | Some y => Some y
    | None => if decide (k = j) then Some x else None
    end.
Proof.
  induction l as [|[k' x'] l IH]; simpl.
  - rewrite lookup_insert, lookup_empty. by destruct (decide (k = j)).
  - rewrite !lookup_insert. destruct (decide (k' = j)); [done | apply IH].
Qed.

Lemma spread_union target v :
  spread target v = list_to_map (reverse (ownProps v)) ∪ target.
Proof.
  unfold spread. generalize (ownProps v) as props. intros props.
  revert target. induction props as [|[k x] props IH]; intros target; simpl.
  - by rewrite map_empty_union.
  - rewrite IH, reverse_cons. apply map_eq. intros j.
    rewrite !lookup_union, list_to_map_snoc_lookup, lookup_insert.
    by destruct (list_to_map (reverse props) !! j), (decide (k = j)), (target !! j).
Qed.

Ltac reduce_key :=
  unfold reduceEntry;
  repeat (case_bool_decide; try done; simplify_eq);
  try (exfalso; set_solver).

(** C4: the placement rule of every key, one entry at a time, and the
    example of the specification. *)
Theorem reduceConfig_rules :
  reduceConfig [] = {| global := ∅; e2e := ∅; component := ∅ |}
  ∧ (∀ cfg key val,
       let acc := reduceConfig cfg in
       let r := reduceConfig (cfg ++ [(key, val)]) in
       (key ∈ ["pluginsFile"; "$schema"; "componentFolder"] → r = acc)
       ∧ (key = "e2e" →
          global r = global acc ∧ component r = component acc
          ∧ e2e r = list_to_map (reverse (ownProps val)) ∪ e2e acc)
       ∧ (key = "component" →
          global r = global acc ∧ e2e r = e2e acc
          ∧ component r = list_to_map (reverse (ownProps val)) ∪ component acc)
       ∧ (key = "testFiles" →
          global r = global acc
          ∧ e2e r = <["specPattern" := val]> (e2e acc)
          ∧ component r = <["specPattern" := val]> (component acc))
       ∧ (key = "baseUrl" →
          global r = global acc ∧ component r = component acc
          ∧ e2e r = <["baseUrl" := val]> (e2e acc))
       ∧ (key ∉ reservedKeys →
          global r = <[key := val]> (global acc)
          ∧ e2e r = e2e acc ∧ component r = component acc))
  ∧ reduceConfig [("baseUrl", VStr "http://x"); ("testFiles", VStr "**/*.ts");
                  ("component", VObj [("supportFile", VBool false)])]
    = {| global := ∅;
         e2e := {[ "baseUrl" := VStr "http://x";
                   "specPattern" := VStr "**/*.ts" ]};
         component := {[ "specPattern" := VStr "**/*.ts";
                         "supportFile" := VBool false ]} |}.
Proof.
  split_and!.
  - reflexivity.
  - intros cfg key val acc r. subst r. rewrite reduceConfig_snoc. fold acc.
    split_and!.
    + intros Hk. unfold reduceEntry. by rewrite bool_decide_eq_true_2.
    + intros ->. simpl. by rewrite spread_union.
    + intros ->. simpl. by rewrite spread_union.
    + intros ->. done.
    + intros ->. done.
    + intros Hk. unfold reservedKeys in Hk. reduce_key.
  - vm_compute. reflexivity.
Qed.

Lemma reduceConfig_rules_witness :
  reduceConfig [("video", VBool true); ("$schema", VStr "s")]
  = reduceConfig [("video", VBool true)]
  ∧ global (reduceConfig [("video", VBool true)]) = {[ "video" := VBool true ]}
  ∧ e2e (reduceConfig [("e2e", VObj [("a", VNum 1); ("b", VNum 2)])])
    = {[ "a" := VNum 1; "b" := VNum 2 ]}.
Proof.
  destruct reduceConfig_rules as (Hnil & Hrule & _). split_and!.
  - destruct (Hrule [("video", VBool true)] "$schema" (VStr "s")) as (H & _).
    apply H. compute_done.
  - destruct (Hrule [] "video" (VBool true)) as (_ & _ & _ & _ & _ & H).
    destruct H as (H & _); [compute_done | exact H].
  - destruct (Hrule [] "e2e" (VObj [("a", VNum 1); ("b", VNum 2)]))
      as (_ & H & _).
    destruct (H eq_refl) as (_ & _ & He).
    etrans; [exact He | vm_compute; reflexivity].
Defined.

(** *** Which names each bucket can hold *)

Lemma spread_dom target v :
  dom (spread target v) = list_to_set (map fst (ownProps v)) ∪ dom target.
Proof.
  unfold spread. generalize (ownProps v) as props. intros props.
  revert target. induction props as [|[k x] props IH]; intros target; simpl.
  - set_solver.
  - rewrite IH, dom_insert_L. set_solver.
Qed.

Lemma nestedKeys_snoc section cfg key val k :
  k ∈ nestedKeys section (cfg ++ [(key, val)]) ↔
  k ∈ nestedKeys section cfg ∨ (key = section ∧ k ∈ map fst (ownProps val)).
Proof.
  unfold nestedKeys. rewrite flat_map_app, elem_of_app. simpl.
  rewrite app_nil_r. case_bool_decide; set_solver.
Qed.

Lemma elem_of_reservedKeys key :
  key ∈ reservedKeys ↔
  key ∈ excludedFields ∨ key = "e2e" ∨ key = "component"
  ∨ key = "testFiles" ∨ key = "baseUrl".
Proof.
  unfold reservedKeys, excludedFields. rewrite !elem_of_cons, !elem_of_nil. tauto.
Qed.

Lemma reduceEntry_dom acc key val k :
  let r := reduceEntry acc (key, val) in
  (k ∈ dom (global r) ↔ k ∈ dom (global acc) ∨ (k = key ∧ key ∉ reservedKeys))
  ∧ (k ∈ dom (e2e r) ↔
       k ∈ dom (e2e acc)
       ∨ (key = "e2e" ∧ k ∈ map fst (ownProps val))
       ∨ (k = "specPattern" ∧ key = "testFiles")
       ∨ (k = "baseUrl" ∧ key = "baseUrl"))
  ∧ (k ∈ dom (component r) ↔
       k ∈ dom (component acc)
       ∨ (key = "component" ∧ k ∈ map fst (ownProps val))
       ∨ (k = "specPattern" ∧ key = "testFiles")).
Proof.
  simpl. rewrite elem_of_reservedKeys. unfold reduceEntry.
  destruct (bool_decide_reflect (key ∈ excludedFields)) as [Hx|Hx].
  { assert (key ≠ "e2e" ∧ key ≠ "component" ∧ key ≠ "testFiles" ∧ key ≠ "baseUrl")
      as (? & ? & ? & ?).
    { unfold excludedFields in Hx. rewrite !elem_of_cons, elem_of_nil in Hx.
      split_and!; intros ->; destruct Hx as [|[|[|[]]]]; discriminate. }
    tauto. }
  destruct (bool_decide_reflect (key = "e2e")) as [->|He].
  { simpl. rewrite spread_dom, elem_of_union, elem_of_list_to_set.
    split_and!; [| |]; (split; [intros; try tauto | intros H; decompose [and or] H; try discriminate; tauto]). }
  destruct (bool_decide_reflect (key = "component")) as [->|Hc].
  { simpl. rewrite spread_dom, elem_of_union, elem_of_list_to_set.
    split_and!; [| |]; (split; [intros; try tauto | intros H; decompose [and or] H; try discriminate; tauto]). }
  destruct (bool_decide_reflect (key = "testFiles")) as [->|Ht].
  { simpl. rewrite !dom_insert_L, !elem_of_union, !elem_of_singleton.
    split_and!; [| |]; (split; [intros; try tauto | intros H; decompose [and or] H; try discriminate; tauto]). }
  destruct (bool_decide_reflect (key = "baseUrl")) as [->|Hb].
  { simpl. rewrite !dom_insert_L, !elem_of_union, !elem_of_singleton.
    split_and!; [| |]; (split; [intros; try tauto | intros H; decompose [and or] H; try discriminate; tauto]). }
  simpl. rewrite !dom_insert_L, !elem_of_union, !elem_of_singleton.
  split_and!; tauto.
Qed.

Lemma reduceConfig_dom_global cfg k :
  k ∈ dom (global (reduceConfig cfg)) ↔ k ∈ map fst cfg ∧ k ∉ reservedKeys.
Proof.
  induction cfg as [|[key val] cfg IH] using rev_ind.
  - simpl. rewrite dom_empty_L, elem_of_empty, elem_of_nil. tauto.
  - rewrite reduceConfig_snoc, map_app.
    destruct (reduceEntry_dom (reduceConfig cfg) key val k) as (-> & _ & _).
    rewrite IH, elem_of_app. simpl. rewrite list_elem_of_singleton.
    naive_solver.
Qed.

Lemma reduceConfig_dom_e2e cfg k :
  k ∈ dom (e2e (reduceConfig cfg)) ↔
    k ∈ nestedKeys "e2e" cfg
    ∨ (k = "specPattern" ∧ "testFiles" ∈ map fst cfg)
    ∨ (k = "baseUrl" ∧ "baseUrl" ∈ map fst cfg).
Proof.
  induction cfg as [|[key val] cfg IH] using rev_ind.
  - simpl. rewrite dom_empty_L, elem_of_empty, !elem_of_nil. tauto.
  - rewrite reduceConfig_snoc, map_app, nestedKeys_snoc.
    destruct (reduceEntry_dom (reduceConfig cfg) key val k) as (_ & -> & _).
    rewrite IH, !elem_of_app. simpl. rewrite !list_elem_of_singleton.
    naive_solver.
Qed.

Lemma reduceConfig_dom_component cfg k :
  k ∈ dom (component (reduceConfig cfg)) ↔
    k ∈ nestedKeys "component" cfg
    ∨ (k = "specPattern" ∧ "testFiles" ∈ map fst cfg).
Proof.
  induction cfg as [|[key val] cfg IH] using rev_ind.
  - simpl. rewrite dom_empty_L, elem_of_empty, !elem_of_nil. tauto.
  - rewrite reduceConfig_snoc, map_app, nestedKeys_snoc.
    destruct (reduceEntry_dom (reduceConfig cfg) key val k) as (_ & _ & ->).
    rewrite IH, !elem_of_app. simpl. rewrite !list_elem_of_singleton.
    naive_solver.
Qed.

(** C5, as the code has it: the three buckets are pairwise disjoint exactly
    when the input has no testFiles key, no option name is nested under
    both e2e and component, no top-level key that goes to the global bucket
    is also nested under e2e or component, and baseUrl is not nested under
    component while it is a top-level key. *)
Theorem reduceConfig_buckets_disjoint (cfg : list (string * value)) :
  bucketsDisjoint (reduceConfig cfg) ↔
    ("testFiles" ∉ map fst cfg)
    ∧ (∀ k, k ∈ nestedKeys "e2e" cfg → k ∉ nestedKeys "component" cfg)
    ∧ (∀ k, k ∈ map fst cfg → k ∉ reservedKeys →
         (k ∉ nestedKeys "e2e" cfg) ∧ (k ∉ nestedKeys "component" cfg))
    ∧ (("baseUrl" ∈ map fst cfg) → ("baseUrl" ∉ nestedKeys "component" cfg)).
Proof.
  unfold bucketsDisjoint. rewrite !elem_of_disjoint.
  setoid_rewrite reduceConfig_dom_global.
  setoid_rewrite reduceConfig_dom_e2e.
  setoid_rewrite reduceConfig_dom_component.
  assert (("specPattern" ∉ reservedKeys) ∧ ("baseUrl" ∈ reservedKeys)) as [Hsp Hbu].
  { unfold reservedKeys. rewrite !elem_of_cons, elem_of_nil. split; [|tauto].
    intros H. decompose [or] H; try discriminate; done. }
  split.
  - intros (Hge & Hgc & Hec). split_and!.
    + intros Ht. apply (Hec "specPattern"); tauto.
    + intros k He Hc. apply (Hec k); tauto.
    + intros k Hk Hr. split; intros Hn.
      * apply (Hge k); tauto.
      * apply (Hgc k); tauto.
    + intros Hb Hc. apply (Hec "baseUrl"); tauto.
  - intros (Ht & Hec & Hg & Hb). split_and!.
    + intros k [Hk Hr] [He|[[_ ?]|[-> _]]]; [|done|done].
      by destruct (Hg k Hk Hr).
    + intros k [Hk Hr] [Hc|[_ ?]]; [|done].
      by destruct (Hg k Hk Hr).
    + intros k [He|[[_ ?]|[-> Hk]]] [Hc|[_ ?]]; try done.
      * by apply (Hec k).
      * by apply Hb.
Qed.

Lemma reduceConfig_buckets_disjoint_witness :
  bucketsDisjoint
    (reduceConfig [("baseUrl", VStr "http://x"); ("video", VBool false);
                   ("component", VObj [("supportFile", VBool false)])]).
Proof.
  apply reduceConfig_buckets_disjoint. simpl. split_and!.
  - compute_done.
  - intros k H. by apply elem_of_nil in H.
  - intros k Hk _. split; [apply not_elem_of_nil|].
    intros H. apply list_elem_of_singleton in H as ->.
    revert Hk. compute_done.
  - intros _. compute_done.
Defined.

(** C5, as stated, fails: testFiles is copied into both the e2e and the
    component bucket under the name specPattern. *)
Lemma reduceConfig_buckets_overlap :
  ¬ bucketsDisjoint (reduceConfig [("testFiles", VStr "**/*.ts")]).
Proof.
  intros (_ & _ & H). apply (H "specPattern"); vm_compute; reflexivity.
Qed.

(** *** The rendered module *)

Lemma getProp_absent cfg key : key ∉ map fst cfg → getProp cfg key = VUndefined.
Proof.
  intros Hk. unfold getProp.
  destruct (list_find _ cfg) as [[i kv]|] eqn:E; [|done].
  apply list_find_Some in E as (Hi & Hkey & _). destruct Hk.
  rewrite <- Hkey. apply list_elem_of_fmap. exists kv. split; [done|].
  by eapply list_elem_of_lookup_2.
Qed.

(** *** The buckets with their property order *)

Module OrderedFacts.

Lemma before_not_back k k' :
  Ordered.before k k' = true → Ordered.before k' k = false.
Proof.
  unfold Ordered.before.
  destruct (Ordered.arrayIndex k) as [n|], (Ordered.arrayIndex k') as [m|];
    try done.
  intros H%N.ltb_lt. apply N.ltb_ge. lia.
Qed.

Lemma before_later k k' x :
  Ordered.before k k' = true → x ≠ k' → Ordered.before x k' = false →
  x ≠ k ∧ Ordered.before x k = false.
Proof.
  intros Hk Hne Hx. split; [intros ->; congruence|].
  unfold Ordered.before in *.
  destruct (Ordered.arrayIndex k) as [n|], (Ordered.arrayIndex k') as [m|],
    (Ordered.arrayIndex x) as [p|]; try done.
  apply N.ltb_lt in Hk. apply N.ltb_ge in Hx. apply N.ltb_ge. lia.
Qed.

Lemma setProp_Forall (P : string → Prop) k v o :
  P k → Forall (λ kv, P kv.1) o → Forall (λ kv, P kv.1) (Ordered.setProp k v o).
Proof.
  intros Hk. induction o as [|[k' v'] o IH]; simpl; intros Ho.
  - by constructor.
  - apply Forall_cons in Ho as [Hk' Ho].
    destruct (String.eqb k' k); [by constructor|].
    destruct (Ordered.before k k'); constructor; try done.
    + by constructor.
    + by apply IH.
Qed.

(** Setting a property of an object gives an object. *)
Lemma setProp_isObject k v o :
  Ordered.isObject o → Ordered.isObject (Ordered.setProp k v o).
Proof.
  induction o as [|[k' v'] o IH]; simpl.
  - intros _. split; [constructor | done].
  - intros [Hall Ho]. destruct (String.eqb_spec k' k) as [->|Hne]; [done|].
    destruct (Ordered.before k k') eqn:Eb; simpl.
    + split_and!; [|done..]. constructor.
      * split; [done | by apply before_not_back].
      * eapply Forall_impl; [exact Hall|]. intros [x y] [Hx1 Hx2]. simpl in *.
        by eapply before_later.
    + split; [|by apply IH].
      apply (setProp_Forall (λ x, x ≠ k' ∧ Ordered.before x k' = false));
        [|done]. split; [congruence | done].
Qed.

Lemma spread_isObject target v :
  Ordered.isObject target → Ordered.isObject (Ordered.spread target v).
Proof.
  unfold Ordered.spread. generalize (ownProps v) as props. intros props.
  revert target. induction props as [|[k x] props IH]; intros target Ht; simpl.
  - done.
  - apply IH. by apply setProp_isObject.
Qed.

Lemma isObject_NoDup o : Ordered.isObject o → NoDup (map fst o).
Proof.
  induction o as [|[k v] o IH]; simpl; [constructor|].
  intros [Hall Ho]. constructor; [|by apply IH].
  intros (kv & Hk & Hin)%list_elem_of_fmap.
  rewrite Forall_forall in Hall. by destruct (Hall kv Hin) as [? _].
Qed.

Lemma reduceConfig_snoc_ordered cfg entry :
  Ordered.reduceConfig (cfg ++ [entry])
  = Ordered.reduceEntry (Ordered.reduceConfig cfg) entry.
Proof. unfold Ordered.reduceConfig. by rewrite foldl_app. Qed.

(** The buckets are objects, so each of them has every key once. *)
Lemma reduceConfig_objects cfg :
  Ordered.isObject (Ordered.global (Ordered.reduceConfig cfg))
  ∧ Ordered.isObject (Ordered.e2e (Ordered.reduceConfig cfg))
  ∧ Ordered.isObject (Ordered.component (Ordered.reduceConfig cfg)).
Proof.
  induction cfg as [|[key val] cfg (Hg & He & Hc)] using rev_ind; [done|].
  rewrite reduceConfig_snoc_ordered. unfold Ordered.reduceEntry.
  repeat case_bool_decide; simpl; split_and!;
    auto using setProp_isObject, spread_isObject.
Qed.

(** What a bucket holds does not depend on the order. *)
Lemma setProp_contents k v o :
  Ordered.contents (Ordered.setProp k v o) = <[k := v]> (Ordered.contents o).
Proof.
  unfold Ordered.contents. induction o as [|[k' v'] o IH]; simpl; [done|].
  destruct (String.eqb_spec k' k) as [->|Hne].
  - simpl. by rewrite insert_insert_eq.
  - destruct (Ordered.before k k'); simpl; [done|].
    rewrite IH. by apply insert_insert_ne.
Qed.

Lemma spread_contents target v :
  Ordered.contents (Ordered.spread target v)
  = spread (Ordered.contents target) v.
Proof.
  unfold Ordered.spread, spread. generalize (ownProps v) as props.
  intros props. revert target.
  induction props as [|[k x] props IH]; intros target; simpl; [done|].
  by rewrite IH, setProp_contents.
Qed.

(** The buckets in order hold what the buckets of [reduceConfig] hold. *)
Lemma reduceConfig_contents cfg :
  Ordered.contents (Ordered.global (Ordered.reduceConfig cfg))
  = global (reduceConfig cfg)
  ∧ Ordered.contents (Ordered.e2e (Ordered.reduceConfig cfg))
    = e2e (reduceConfig cfg)
  ∧ Ordered.contents (Ordered.component (Ordered.reduceConfig cfg))
    = component (reduceConfig cfg).
Proof.
  induction cfg as [|[key val] cfg (Hg & He & Hc)] using rev_ind; [done|].
  rewrite reduceConfig_snoc_ordered, reduceConfig_snoc.
  unfold Ordered.reduceEntry, reduceEntry.
  repeat case_bool_decide; simpl;
    rewrite ?setProp_contents, ?spread_contents, ?Hg, ?He, ?Hc; done.
Qed.

Lemma contents_empty o : Ordered.contents o = ∅ ↔ o = [].
Proof.
  split; [|by intros ->]. destruct o as [|[k v] o]; [done|].
  unfold Ordered.contents. simpl. intros H. by apply insert_non_empty in H.
Qed.

(** A bucket in order is empty exactly when the bucket of [reduceConfig]
    is. *)
Lemma reduceConfig_empty cfg :
  (Ordered.global (Ordered.reduceConfig cfg) = [] ↔ global (reduceConfig cfg) = ∅)
  ∧ (Ordered.e2e (Ordered.reduceConfig cfg) = [] ↔ e2e (reduceConfig cfg) = ∅)
  ∧ (Ordered.component (Ordered.reduceConfig cfg) = []
     ↔ component (reduceConfig cfg) = ∅).
Proof.
  destruct (reduceConfig_contents cfg) as (<- & <- & <-).
  by rewrite !contents_empty.
Qed.

(** A new key that is no array index goes last. *)
Lemma setProp_new k v o :
  k ∉ map fst o → Ordered.arrayIndex k = None →
  Ordered.setProp k v o = o ++ [(k, v)].
Proof.
  intros Hk Hi. induction o as [|[k' v'] o IH]; simpl; [done|].
  simpl in Hk. apply not_elem_of_cons in Hk as [Hne Hk].
  destruct (String.eqb_spec k' k) as [->|_]; [done|].
  unfold Ordered.before at 1. rewrite Hi. by rewrite IH.
Qed.

End OrderedFacts.

Section RenderingProperties.

Variable stringify : list (string * value) → string → string.
Variable normalize : string → string.

(** C6: the text of the module is the header, the global options, the
    e2e block, the component block and the closing, each of the three
    there exactly when its bucket has a key (the buckets in order are
    empty when those of [reduceConfig] are).  A block that is there
    starts with the setupNodeEvents hook that requires the plugin path:
    the pluginsFile of the input when it is truthy (a non-empty text is
    taken as it is), and otherwise, also when the input has no
    pluginsFile, the default path as [path.normalize] gives it, which is
    /cypress/plugins/index.js where [path.normalize] leaves that path as
    it is, as on a POSIX platform. *)
Theorem createConfigString_blocks (cfg : list (string * value)) :
  let config := Ordered.reduceConfig cfg in
  ∃ pluginPath globalString e2eString componentString,
    createConfigString stringify normalize cfg
    = "const { defineConfig } = require('cypress')" +:+ nl +:+ nl
        +:+ "module.exports = defineConfig({" +:+ globalString +:+ e2eString
        +:+ componentString +:+ nl +:+ "})"
    ∧ (Ordered.global config = [] → globalString = "")
    ∧ (Ordered.global config ≠ [] →
       globalString
       = nl +:+ formatObjectForConfig stringify (Ordered.global config) 2
           +:+ ",")
    ∧ (Ordered.e2e config = [] → e2eString = "")
    ∧ (Ordered.e2e config ≠ [] →
       e2eString
       = nl +:+ "  e2e: {" +:+ nl
           +:+ "    setupNodeEvents(on, config) {" +:+ nl
           +:+ "      return require('" +:+ pluginPath +:+ "')" +:+ nl
           +:+ "    }," +:+ nl
           +:+ "    " +:+ formatObjectForConfig stringify (Ordered.e2e config) 4
           +:+ nl +:+ "  },")
    ∧ (Ordered.component config = [] → componentString = "")
    ∧ (Ordered.component config ≠ [] →
       componentString
       = nl +:+ "  component: {" +:+ nl
           +:+ "    setupNodeEvents(on, config) {" +:+ nl
           +:+ "      return require('" +:+ pluginPath +:+ "')" +:+ nl
           +:+ "    }," +:+ nl
           +:+ "    "
           +:+ formatObjectForConfig stringify (Ordered.component config) 4
           +:+ nl +:+ "  },")
    ∧ (Ordered.global config = [] ↔ global (reduceConfig cfg) = ∅)
    ∧ (Ordered.e2e config = [] ↔ e2e (reduceConfig cfg) = ∅)
    ∧ (Ordered.component config = [] ↔ component (reduceConfig cfg) = ∅)
    ∧ (truthy (getProp cfg "pluginsFile") = true →
       pluginPath = toString (getProp cfg "pluginsFile"))
    ∧ (∀ p, getProp cfg "pluginsFile" = VStr p → p ≠ "" → pluginPath = p)
    ∧ (truthy (getProp cfg "pluginsFile") = false →
       pluginPath = normalize "/cypress/plugins/index.js")
    ∧ (("pluginsFile" ∉ map fst cfg) →
       pluginPath = normalize "/cypress/plugins/index.js")
    ∧ (normalize "/cypress/plugins/index.js" = "/cypress/plugins/index.js" →
       truthy (getProp cfg "pluginsFile") = false →
       pluginPath = "/cypress/plugins/index.js").
Proof.
  intros config.
  exists (getPluginRelativePath normalize cfg).
  eexists _, _, _. split; [reflexivity|]. fold config.
  assert (∀ o : list (string * value), (0 <? length o) = false ↔ o = [])
    as Hsize.
  { intros o. rewrite Nat.ltb_ge, Nat.le_0_r. apply length_zero_iff_nil. }
  destruct (OrderedFacts.reduceConfig_empty cfg) as (Hg0 & He0 & Hc0).
  split_and!; try done.
  - intros Hg. apply Hsize in Hg. by rewrite Hg.
  - intros Hg. destruct (0 <? length (Ordered.global config)) eqn:E; [done|].
    by apply Hsize in E.
  - intros He. apply Hsize in He. by rewrite He.
  - intros He. destruct (0 <? length (Ordered.e2e config)) eqn:E; [done|].
    by apply Hsize in E.
  - intros Hc. apply Hsize in Hc. by rewrite Hc.
  - intros Hc. destruct (0 <? length (Ordered.component config)) eqn:E; [done|].
    by apply Hsize in E.
  - intros Ht. unfold getPluginRelativePath. by rewrite Ht.
  - intros p Hp Hne. unfold getPluginRelativePath. rewrite Hp. simpl.
    by destruct p.
  - intros Hf. unfold getPluginRelativePath. by rewrite Hf.
  - intros Habs. unfold getPluginRelativePath.
    by rewrite getProp_absent.
  - intros Hn Hf. unfold getPluginRelativePath. by rewrite Hf.
Qed.

End RenderingProperties.

(** An instance in which the serializer lists the keys of the object in
    their order: the e2e bucket has the nested option before baseUrl. *)
Lemma createConfigString_blocks_witness :
  createConfigString
    (λ o _, "{ " +:+ joinStrings ", " (map fst o) +:+ " }") id
    [("pluginsFile", VStr "plugins.js");
     ("e2e", VObj [("video", VBool true)]); ("baseUrl", VStr "http://x")]
  = "const { defineConfig } = require('cypress')" +:+ nl +:+ nl
      +:+ "module.exports = defineConfig({"
      +:+ nl +:+ "  e2e: {" +:+ nl
      +:+ "    setupNodeEvents(on, config) {" +:+ nl
      +:+ "      return require('plugins.js')" +:+ nl
      +:+ "    }," +:+ nl +:+ "    video, baseUrl" +:+ nl +:+ "  },"
      +:+ nl +:+ "})".
Proof.
  destruct (createConfigString_blocks
              (λ o _, "{ " +:+ joinStrings ", " (map fst o) +:+ " }") id
              [("pluginsFile", VStr "plugins.js");
               ("e2e", VObj [("video", VBool true)]);
               ("baseUrl", VStr "http://x")])
    as (p & g & e & c & Hout & Hg & _ & _ & He & Hc & _ & _ & _ & _ & _ & Hp
        & _).
  assert (p = "plugins.js") as -> by (by apply Hp).
  rewrite Hout, Hg, He, Hc; [vm_compute; reflexivity | done..].
Defined.

(** *** The listing of specs *)

Section ListingProperties.

Variable globby : string → string → completion (list string).

Lemma findByTestingType_tagged cwd dir tt found :
  findByTestingType globby cwd dir tt = Return found →
  Forall (λ x, testingType x = tt) found ∧ (dir = None → found = []).
Proof.
  unfold findByTestingType. destruct dir as [[|c d]|].
  - intros [= <-]. by split.
  - destruct (globby _ cwd) as [files| |]; simpl; try done.
    intros [= <-]. split; [|done]. by apply Forall_fmap, Forall_true.
  - intros [= <-]. by split.
Qed.

(** C7: a directory that is null gives no entry; [before] lists the
    component entries and then the e2e entries; [after] has the length of
    [before] and holds, index by index, the same testing type and the
    renamed relative path. *)
Theorem getSpecs_lists (projectRoot : string)
    (componentDirPath e2eDirPath : option string) (specs : Specs) :
  getSpecs globby projectRoot componentDirPath e2eDirPath = Return specs →
  ∃ comp e2e,
    findByTestingType globby projectRoot componentDirPath TComponent
    = Return comp
    ∧ findByTestingType globby projectRoot e2eDirPath TE2e = Return e2e
    ∧ (componentDirPath = None → comp = [])
    ∧ (e2eDirPath = None → e2e = [])
    ∧ Forall (λ x, testingType x = TComponent) comp
    ∧ Forall (λ x, testingType x = TE2e) e2e
    ∧ before specs = comp ++ e2e
    ∧ length (after specs) = length (before specs)
    ∧ ∀ i, after specs !! i
           = (λ x, {| testingType := testingType x;
                      relative := renameSpecPath (relative x) |})
             <$> before specs !! i.
Proof.
  unfold getSpecs.
  destruct (findByTestingType globby projectRoot componentDirPath TComponent)
    as [comp| |] eqn:Ec; simpl; try done.
  destruct (findByTestingType globby projectRoot e2eDirPath TE2e)
    as [e2e| |] eqn:Ee; simpl; try done.
  intros [= <-]. exists comp, e2e. simpl.
  apply findByTestingType_tagged in Ec as [Hc Hcn].
  apply findByTestingType_tagged in Ee as [He Hen].
  split_and!; try done.
  - by rewrite length_map.
  - intros i. apply list_lookup_fmap.
Qed.

End ListingProperties.

Lemma getSpecs_lists_witness :
  ∃ specs,
    getSpecs (λ _ _, Return ["cypress/integration/a.spec.js"]) "/root" None
      (Some "cypress/integration") = Return specs
    ∧ before specs
      = [{| testingType := TE2e; relative := "cypress/integration/a.spec.js" |}]
    ∧ after specs !! 0
      = Some {| testingType := TE2e; relative := "cypress/e2e/a.cy.js" |}.
Proof.
  eexists. split; [reflexivity|].
  destruct (getSpecs_lists (λ _ _, Return ["cypress/integration/a.spec.js"])
              "/root" None (Some "cypress/integration") _ eq_refl)
    as (comp & e2e & Hc & He & Hcn & _ & _ & _ & Hb & _ & Ha).
  split; [reflexivity|]. rewrite Ha. vm_compute. reflexivity.
Defined.

(** *** Moving the spec files *)

Section MovingProperties.

Variable FS : Type.
Variable readdir : FS → string → completion (list string).
Variable statIsFile : FS → string → completion bool.
Variable moveSync : FS → string → string → completion FS.
Variable pathJoin : string → string → string.

(** What is assumed of the file system: a listing names each entry once;
    [path.join(dir, file)] and the text dir/file name the same file;
    [moveSync] does not overwrite a file at another path, puts the file
    at its destination, and leaves every other path alone. *)
Hypothesis readdir_NoDup :
  ∀ σ d names, readdir σ d = Return names → NoDup names.
Hypothesis pathJoin_same :
  ∀ σ d f, statIsFile σ (pathJoin d f) = statIsFile σ (d +:+ "/" +:+ f).
Hypothesis moveSync_no_overwrite :
  ∀ σ a b σ', moveSync σ a b = Return σ' → a ≠ b →
    statIsFile σ b ≠ Return true.
Hypothesis moveSync_moved :
  ∀ σ a b σ', moveSync σ a b = Return σ' →
    statIsFile σ a = Return true → statIsFile σ' b = Return true.
Hypothesis moveSync_frame :
  ∀ σ a b σ' p, moveSync σ a b = Return σ' → p ≠ a → p ≠ b →
    statIsFile σ' p = statIsFile σ p.

Local Abbreviation isFile σ p := (statIsFile σ p = Return true).

Lemma filterFiles_spec σ dir names files :
  filterFiles statIsFile pathJoin σ dir names = Return files →
  sublist files names
  ∧ Forall (λ f, isFile σ (pathJoin dir f)) files
  ∧ ∀ f, f ∈ names → isFile σ (pathJoin dir f) → f ∈ files.
Proof.
  revert files. induction names as [|f names IH]; intros files; simpl.
  - intros [= <-]. split_and!; [constructor | constructor |].
    intros f Hf. by apply elem_of_nil in Hf.
  - destruct (statIsFile σ (pathJoin dir f)) as [b| |] eqn:Eb; simpl; try done.
    destruct (filterFiles _ _ σ dir names) as [kept| |]; simpl; try done.
    destruct (IH kept eq_refl) as (Hsub & Hall & Hin). intros [= <-].
    destruct b; split_and!.
    + by constructor.
    + by constructor.
    + intros g [->|Hg]%elem_of_cons Hfile; [left | right; by apply Hin].
    + by constructor.
    + done.
    + intros g [->|Hg]%elem_of_cons Hfile; [congruence | by apply Hin].
Qed.

(** The loop stops at the first move that fails. *)
Lemma moveEach_prefix σ moves σ' res :
  moveEach moveSync σ moves = (σ', res) →
  ∃ done rest,
    moves = done ++ rest
    ∧ moveEach moveSync σ done = (σ', Return ())
    ∧ match res with
      | Return _ => rest = []
      | Throw e =>
          ∃ spec rest', rest = spec :: rest'
            ∧ moveSync σ' (from spec) (to spec) = Throw e
      | OutOfModel =>
          ∃ spec rest', rest = spec :: rest'
            ∧ moveSync σ' (from spec) (to spec) = OutOfModel
      end.
Proof.
  revert σ. induction moves as [|m moves IH]; intros σ; simpl.
  - intros [= <- <-]. by exists [], [].
  - destruct (moveSync σ (from m) (to m)) as [σ1| e |] eqn:Em.
    + intros H. destruct (IH _ H) as (done & rest & -> & Hd & Hres).
      exists (m :: done), rest. simpl. by rewrite Em.
    + intros [= <- <-]. exists [], (m :: moves). split_and!; eauto.
    + intros [= <- <-]. exists [], (m :: moves). split_and!; eauto.
Qed.

(** A file that no move takes away stays where it is. *)
Lemma moveEach_keeps σ moves σ' res p :
  moveEach moveSync σ moves = (σ', res) →
  isFile σ p → p ∉ map from moves → isFile σ' p.
Proof.
  revert σ. induction moves as [|m moves IH]; intros σ; simpl.
  - by intros [= <- <-].
  - intros H Hp Hnot. apply not_elem_of_cons in Hnot as [Hne Hnot].
    destruct (moveSync σ (from m) (to m)) as [σ1| e |] eqn:Em.
    + apply (IH σ1); [done | | done].
      erewrite moveSync_frame; [done | done | done |].
      intros ->. eapply moveSync_no_overwrite; [done | | done].
      congruence.
    + by injection H as <- <-.
    + by injection H as <- <-.
Qed.

Lemma moveEach_moved σ done σ' :
  moveEach moveSync σ done = (σ', Return ()) →
  Forall (λ m, isFile σ (from m)) done → NoDup (map from done) →
  Forall (λ m, isFile σ' (to m)) done.
Proof.
  revert σ. induction done as [|m done IH]; intros σ; simpl.
  - constructor.
  - intros H Hfiles Hnd. apply Forall_cons in Hfiles as [Hm Hfiles].
    apply NoDup_cons in Hnd as [Hm' Hnd].
    destruct (moveSync σ (from m) (to m)) as [σ1| e |] eqn:Em; try done.
    assert (to m ∉ map from done) as Hto.
    { intros Hin. destruct (decide (from m = to m)) as [Heq|Hne].
      - apply Hm'. by rewrite Heq.
      - apply list_elem_of_fmap in Hin as (m' & Heq & Hin).
        rewrite Forall_forall in Hfiles. apply Hfiles in Hin.
        rewrite <- Heq in Hin. by eapply moveSync_no_overwrite. }
    constructor.
    + eapply moveEach_keeps; [done | by eapply moveSync_moved | done].
    + apply (IH σ1); [done | | done].
      rewrite Forall_forall in Hfiles |- *. intros m' Hin.
      erewrite moveSync_frame; [by apply Hfiles | done | |].
      * intros Heq. apply Hm'. rewrite <- Heq. by apply list_elem_of_fmap_2.
      * intros Heq. apply Hto. rewrite <- Heq. by apply list_elem_of_fmap_2.
Qed.

Lemma specMoves_from_NoDup dir files :
  NoDup files → NoDup (map from (specMoves dir files)).
Proof.
  intros Hnd. unfold specMoves. rewrite <- list_fmap_compose.
  apply NoDup_fmap_2; [|done].
  intros f g Heq. simpl in Heq.
  apply (f_equal chars) in Heq. rewrite !chars_app in Heq.
  apply app_inv_head in Heq. apply app_inv_head in Heq.
  by apply chars_inj.
Qed.

(** C9: the regular files among the entries of the directory are moved
    one at a time in listing order, each from its path in the directory
    to the path that [renameSpecPath] gives for it.  When a move fails,
    the files before it have been moved and are at their renamed paths,
    the file of the failed move and those after it are at their original
    paths, the state is the one the earlier moves left (no later move is
    tried), and the caller gets the error of the failed move and nothing
    else. *)
Theorem moveSpecFiles_stops_at_failure (σ σ' : FS) (e2eDirPath : string)
    (files : list string) (e : exn) :
  getSpecFiles readdir statIsFile pathJoin σ e2eDirPath = Return files →
  moveSpecFiles readdir statIsFile moveSync pathJoin σ e2eDirPath
  = (σ', Throw e) →
  ∃ names moved f later,
    readdir σ e2eDirPath = Return names
    ∧ sublist files names
    ∧ (∀ g, g ∈ files ↔ g ∈ names ∧ isFile σ (pathJoin e2eDirPath g))
    ∧ files = moved ++ f :: later
    ∧ moveEach moveSync σ
        (map (λ g, {| from := e2eDirPath +:+ "/" +:+ g;
                      to := renameSpecPath (e2eDirPath +:+ "/" +:+ g) |})
           moved)
      = (σ', Return ())
    ∧ moveSync σ' (e2eDirPath +:+ "/" +:+ f)
        (renameSpecPath (e2eDirPath +:+ "/" +:+ f)) = Throw e
    ∧ Forall (λ g, isFile σ' (renameSpecPath (e2eDirPath +:+ "/" +:+ g)))
        moved
    ∧ Forall (λ g, isFile σ' (e2eDirPath +:+ "/" +:+ g)) (f :: later).
Proof.
  unfold moveSpecFiles, getSpecFiles. intros Hfiles. rewrite Hfiles.
  destruct (readdir σ e2eDirPath) as [names| |] eqn:Er; simpl in Hfiles; try done.
  apply filterFiles_spec in Hfiles as (Hsub & Hall & Hkept).
  intros Hmove.
  destruct (moveEach_prefix _ _ _ _ Hmove)
    as (done & rest0 & Hsplit & Hdone & spec & rest & -> & Hfail).
  assert (NoDup (map from (specMoves e2eDirPath files))) as Hnd.
  { apply specMoves_from_NoDup.
    apply (sublist_NoDup files names); [by eapply readdir_NoDup | done]. }
  assert (Forall (λ m, isFile σ (from m)) (specMoves e2eDirPath files)) as Hsrc.
  { unfold specMoves. apply Forall_fmap. simpl.
    eapply Forall_impl; [exact Hall|]. intros f Hf. simpl.
    by rewrite <- pathJoin_same. }
  rewrite Hsplit in Hnd, Hsrc. rewrite map_app in Hnd.
  apply NoDup_app in Hnd as (Hnd1 & Hdisj & Hnd2).
  apply Forall_app in Hsrc as [Hsrc1 Hsrc2].
  assert (Forall (λ m, isFile σ' (to m)) done) as Hto.
  { by eapply moveEach_moved. }
  assert (Forall (λ m, isFile σ' (from m)) (spec :: rest)) as Hfrom.
  { rewrite Forall_forall in Hsrc2 |- *. intros m Hin.
    eapply moveEach_keeps; [done | by apply Hsrc2 |].
    intros Hin'. apply (Hdisj _ Hin'). by apply list_elem_of_fmap_2. }
  unfold specMoves in Hsplit.
  apply fmap_app_inv in Hsplit as (moved & later0 & -> & Hrest & ->).
  symmetry in Hrest. apply fmap_cons_inv in Hrest as (f & later & -> & -> & ->).
  rewrite Forall_fmap in Hto. apply Forall_cons in Hfrom as [Hf Hlater].
  rewrite Forall_fmap in Hlater.
  exists names, moved, f, later. split_and!; try done; [|by constructor].
  intros g. split; [|intros [? ?]; by apply Hkept].
  intros Hg. split; [by eapply elem_of_sublist|].
  rewrite Forall_forall in Hall. by apply Hall.
Qed.

End MovingProperties.

(** The small file system meets what is assumed of a file system. *)
Lemma FlatFS_readdir_NoDup σ d names :
  FlatFS.readdir σ d = Return names → NoDup names.
Proof. intros [= <-]. apply NoDup_remove_dups. Qed.

Lemma FlatFS_pathJoin_same σ d f :
  FlatFS.statIsFile σ (FlatFS.pathJoin d f)
  = FlatFS.statIsFile σ (d +:+ "/" +:+ f).
Proof. reflexivity. Qed.

Lemma FlatFS_moveSync_inv σ a b σ' :
  FlatFS.moveSync σ a b = Return σ' →
  a ∈ σ ∧ (b ∉ σ) ∧ σ' = {[b]} ∪ σ ∖ {[a]}.
Proof.
  unfold FlatFS.moveSync.
  destruct (bool_decide_reflect (a ∈ σ)), (bool_decide_reflect (b ∈ σ));
    simpl; try done.
  by intros [= <-].
Qed.

Lemma FlatFS_moveSync_no_overwrite σ a b σ' :
  FlatFS.moveSync σ a b = Return σ' → a ≠ b →
  FlatFS.statIsFile σ b ≠ Return true.
Proof.
  intros (_ & Hb & _)%FlatFS_moveSync_inv _. unfold FlatFS.statIsFile.
  by rewrite bool_decide_eq_false_2.
Qed.

Lemma FlatFS_moveSync_moved σ a b σ' :
  FlatFS.moveSync σ a b = Return σ' →
  FlatFS.statIsFile σ a = Return true → FlatFS.statIsFile σ' b = Return true.
Proof.
  intros (_ & _ & ->)%FlatFS_moveSync_inv _. unfold FlatFS.statIsFile.
  rewrite bool_decide_eq_true_2; [done | set_solver].
Qed.

Lemma FlatFS_moveSync_frame σ a b σ' p :
  FlatFS.moveSync σ a b = Return σ' → p ≠ a → p ≠ b →
  FlatFS.statIsFile σ' p = FlatFS.statIsFile σ p.
Proof.
  intros (_ & _ & ->)%FlatFS_moveSync_inv Ha Hb. unfold FlatFS.statIsFile.
  f_equal. apply bool_decide_ext. set_solver.
Qed.

(** An instance: the first of two spec files is moved, the second one
    is not, because there is a file at its renamed path. *)
Lemma moveSpecFiles_stops_at_failure_witness :
  let σ : gset string :=
    {[ "cypress/integration/a.spec.js"; "cypress/integration/b.spec.js";
       "cypress/e2e/b.cy.js" ]} in
  ∃ σ',
    moveSpecFiles FlatFS.readdir FlatFS.statIsFile FlatFS.moveSync
      FlatFS.pathJoin σ "cypress/integration"
    = (σ', Throw (SystemError "EEXIST"))
    ∧ FlatFS.statIsFile σ' "cypress/e2e/a.cy.js" = Return true
    ∧ FlatFS.statIsFile σ' "cypress/integration/b.spec.js" = Return true
    ∧ FlatFS.moveSync σ' "cypress/integration/b.spec.js" "cypress/e2e/b.cy.js"
      = Throw (SystemError "EEXIST").
Proof.
  intros σ.
  pose (σ' := (moveSpecFiles FlatFS.readdir FlatFS.statIsFile FlatFS.moveSync
                 FlatFS.pathJoin σ "cypress/integration").1).
  destruct (moveSpecFiles_stops_at_failure (gset string) FlatFS.readdir
              FlatFS.statIsFile FlatFS.moveSync FlatFS.pathJoin
              FlatFS_readdir_NoDup FlatFS_pathJoin_same
              FlatFS_moveSync_no_overwrite FlatFS_moveSync_moved
              FlatFS_moveSync_frame σ σ' "cypress/integration"
              ["a.spec.js"; "b.spec.js"] (SystemError "EEXIST"))
    as (names & moved & f & later & _ & _ & _ & Hsplit & _ & Hfail & Hto
        & Hfrom).
  - vm_compute. reflexivity.
  - vm_compute. reflexivity.
  - exists σ'. split; [vm_compute; reflexivity|].
    assert (renameSpecPath ("cypress/integration" +:+ "/" +:+ "a.spec.js")
            = "cypress/e2e/a.cy.js") as Ha by (vm_compute; reflexivity).
    assert (renameSpecPath ("cypress/integration" +:+ "/" +:+ "b.spec.js")
            = "cypress/e2e/b.cy.js") as Hb by (vm_compute; reflexivity).
    destruct moved as [|m1 [|m2 moved]].
    + injection Hsplit as <- <-. rewrite Ha in Hfail.
      assert (FlatFS.moveSync σ' ("cypress/integration" +:+ "/" +:+ "a.spec.js")
                "cypress/e2e/a.cy.js" = Throw (SystemError "ENOENT")) as E
        by (vm_compute; reflexivity).
      rewrite E in Hfail. discriminate Hfail.
    + injection Hsplit as <- <- <-.
      apply Forall_inv in Hto. apply Forall_inv in Hfrom.
      rewrite Ha in Hto. rewrite Hb in Hfail. by split_and!.
    + injection Hsplit as _ _ Hsplit. destruct moved; discriminate Hsplit.
Defined.

(** *** Soundness of the matcher *)

Module WordsFacts.
Import RegExp Words.

Lemma substring_nil s a : substring s a a = [].
Proof. unfold substring. by rewrite Nat.sub_diag. Qed.

Lemma substring_app s a b c :
  a ≤ b → b ≤ c → substring s a b ++ substring s b c = substring s a c.
Proof.
  intros Hab Hbc. unfold substring.
  replace (c - a) with ((b - a) + (c - b)) by lia.
  replace (drop b s) with (drop (b - a) (drop a s)).
  - by rewrite take_take_drop.
  - rewrite drop_drop. f_equal. lia.
Qed.

Lemma substring_char s a c :
  s !! a = Some c → substring s a (S a) = [c].
Proof.
  intros H. unfold substring. replace (S a - a) with 1 by lia.
  rewrite <- (take_drop_middle s a c H) at 1.
  rewrite drop_app_length'; [done|].
  rewrite length_take. apply lookup_lt_Some in H. lia.
Qed.

Lemma CapturesIn_clear P ps caps :
  CapturesIn P caps → CapturesIn P (clearCaptures ps caps).
Proof.
  intros H. induction ps as [|p ps IH]; simpl; [done|].
  intros i w Hi. destruct (decide (p = i)) as [->|Hne].
  - destruct (decide (i < length (clearCaptures ps caps))).
    + by rewrite list_lookup_insert_eq in Hi.
    + rewrite list_insert_ge in Hi by lia. by eapply IH.
  - rewrite list_lookup_insert_ne in Hi by done. by eapply IH.
Qed.

Lemma length_clearCaptures ps caps :
  length (clearCaptures ps caps) = length caps.
Proof. induction ps; simpl; [done|]. by rewrite length_insert. Qed.

Section Soundness.

Variable input : list ascii.
Variable P : nat → list ascii → Prop.

Local Abbreviation Sound := (Words.Sound input P).

Lemma Reached_refl x :
  endIndex x ≤ length input → CapturesIn P (captures x) →
  Reached input P x x.
Proof. by split. Qed.

Lemma Reached_trans x y z :
  Reached input P x y → Reached input P y z → Reached input P x z.
Proof. intros [] []. split; [lia | done | congruence | done]. Qed.

Lemma charMatcher_sound p :
  Sound (λ w, ∃ ch, w = [ch] ∧ p ch = true) (charMatcher input p).
Proof.
  intros x c z Hx Hcaps. unfold charMatcher.
  destruct (input !! endIndex x) as [ch|] eqn:E; [|done].
  destruct (p ch) eqn:Ep; [|done]. intros Hc.
  eexists. split; [exact Hc|]. simpl. split.
  - split; simpl; [lia | by apply lookup_lt_Some in E | done | done].
  - exists ch. split; [by apply substring_char | done].
Qed.

Lemma repeatMatcher_sound L m ps greedy fuel min max :
  Sound L m →
  Sound (λ w, ∃ ws, w = concat ws ∧ Forall L ws
                    ∧ ∀ k, max = Some k → length ws ≤ k)
        (repeatMatcher m ps greedy fuel min max).
Proof.
  intros Hm. revert min max.
  induction fuel as [|fuel IH]; intros min max x c z Hx Hcaps; simpl; [done|].
  assert (∀ z, c x = Some z →
            ∃ y, c y = Some z ∧ Reached input P x y
              ∧ ∃ ws, substring input (endIndex x) (endIndex y) = concat ws
                  ∧ Forall L ws ∧ ∀ k, max = Some k → length ws ≤ k) as Hstop.
  { intros z' Hz'. exists x. split; [done|]. split; [by apply Reached_refl|].
    exists []. rewrite substring_nil. split_and!; [done | done |].
    intros; simpl; lia. }
  assert (∀ z,
    m (State (endIndex x) (clearCaptures ps (captures x)))
      (λ y, if (min =? 0) && (endIndex y =? endIndex x) then None
            else repeatMatcher m ps greedy fuel (pred min) (pred <$> max) y c)
    = Some z →
    max ≠ Some 0 →
    ∃ y, c y = Some z ∧ Reached input P x y
      ∧ ∃ ws, substring input (endIndex x) (endIndex y) = concat ws
          ∧ Forall L ws ∧ ∀ k, max = Some k → length ws ≤ k) as Hgo.
  { intros z' Hz' Hmax.
    apply Hm in Hz' as (y1 & Hd & Hr1 & Hw1);
      [| done | by apply CapturesIn_clear].
    destruct ((min =? 0) && (endIndex y1 =? endIndex x)); [done|].
    destruct Hr1 as [Hf1 Ht1 Hl1 Hc1]. simpl in *.
    apply IH in Hd as (y & Hc & Hr2 & ws & Hws & Hall & Hbound); [|done..].
    destruct Hr2 as [Hf2 Ht2 Hl2 Hc2].
    exists y. split; [done|]. split.
    { split; [lia | done | | done].
      by rewrite Hl2, Hl1, length_clearCaptures. }
    exists (substring input (endIndex x) (endIndex y1) :: ws).
    split_and!.
    - simpl. rewrite <- Hws. by rewrite substring_app.
    - by constructor.
    - intros k ->. destruct k as [|k]; [done|].
      simpl. specialize (Hbound k eq_refl). lia. }
  destruct max as [[|k]|].
  - apply Hstop.
  - destruct (min =? 0); simpl; [destruct greedy; simpl|].
    + destruct (m _ _) as [z'|] eqn:Ez.
      * intros [= ->]. by apply Hgo.
      * apply Hstop.
    + destruct (c x) as [z'|] eqn:Ez.
      * intros [= ->]. by apply Hstop.
      * intros Hz. by apply Hgo.
    + intros Hz. by apply Hgo.
  - destruct (min =? 0); simpl; [destruct greedy; simpl|].
    + destruct (m _ _) as [z'|] eqn:Ez.
      * intros [= ->]. by apply Hgo.
      * apply Hstop.
    + destruct (c x) as [z'|] eqn:Ez.
      * intros [= ->]. by apply Hstop.
      * intros Hz. by apply Hgo.
    + intros Hz. by apply Hgo.
Qed.

Lemma matcher_sound r :
  GroupsIn P r → Sound (Lang r) (matcher input r).
Proof.
  induction r as [| a | | neg ranges | r1 IH1 r2 IH2 | r1 IH1 r2 IH2
                  | greedy min max r IH | i r IH | neg r IH | |];
    intros Hwf; [simpl.. | | simpl | simpl | simpl | simpl].
  - intros x c z Hx Hcaps Hc. exists x.
    split_and!; [done | by apply Reached_refl | apply substring_nil].
  - intros x c z Hx Hcaps Hc.
    apply charMatcher_sound in Hc as (y & ? & ? & ch & Hw & Hch); [|done..].
    exists y. apply Ascii.eqb_eq in Hch as ->. done.
  - intros x c z Hx Hcaps Hc.
    apply charMatcher_sound in Hc as (y & ? & ? & ch & Hw & Hch); [|done..].
    exists y. split_and!; [done..|]. exists ch.
    by apply negb_true_iff in Hch.
  - intros x c z Hx Hcaps Hc.
    apply charMatcher_sound in Hc as (y & ? & ? & ch & Hw & Hch); [|done..].
    exists y. split_and!; [done..|]. by exists ch.
  - destruct Hwf as [Hwf1 Hwf2]. intros x c z Hx Hcaps Hc.
    apply (IH1 Hwf1) in Hc as (y1 & Hc & Hr1 & Hw1); [|done..].
    apply (IH2 Hwf2) in Hc as (y & Hc & Hr2 & Hw2);
      [| apply Hr1 | apply Hr1].
    exists y. split_and!; [done | by eapply Reached_trans |].
    exists (substring input (endIndex x) (endIndex y1)),
           (substring input (endIndex y1) (endIndex y)).
    split_and!; [|done..].
    symmetry. apply substring_app; [apply Hr1 | apply Hr2].
  - destruct Hwf as [Hwf1 Hwf2]. intros x c z Hx Hcaps.
    destruct (matcher input r1 x c) as [z'|] eqn:E1.
    + intros [= ->]. apply (IH1 Hwf1) in E1 as (y & ? & ? & ?); [|done..].
      exists y. split_and!; [done..|]. by left.
    + intros Hc. apply (IH2 Hwf2) in Hc as (y & ? & ? & ?); [|done..].
      exists y. split_and!; [done..|]. by right.
  - intros x c z Hx Hcaps Hc.
    exact (repeatMatcher_sound (Lang r) (matcher input r) (parens r) greedy
             _ min max (IH Hwf) x c z Hx Hcaps Hc).
  - destruct Hwf as [Hi Hwf]. intros x c z Hx Hcaps Hc.
    apply (IH Hwf) in Hc as (y1 & Hc & Hr1 & Hw1); [|done..].
    eexists. split; [exact Hc|]. simpl. split; [|done].
    destruct Hr1 as [Hf1 Ht1 Hl1 Hc1].
    split; simpl; [done | done | by rewrite length_insert |].
    intros j w Hj. destruct (decide (i = j)) as [->|Hne].
    * destruct (decide (j < length (captures y1))).
      -- rewrite list_lookup_insert_eq in Hj by done.
         injection Hj as <-. by apply Hi.
      -- rewrite list_insert_ge in Hj by lia. by eapply Hc1.
    * rewrite list_lookup_insert_ne in Hj by done. by eapply Hc1.
  - intros x c z Hx Hcaps. destruct neg.
    + destruct (matcher input r x Some); [done|]. intros Hc.
      exists x. split_and!; [done | by apply Reached_refl | apply substring_nil].
    + destruct (matcher input r x Some) as [y1|] eqn:E; [|done].
      apply (IH Hwf) in E as (y' & [= ->] & Hr1 & _); [|done..].
      intros Hc. eexists. split; [exact Hc|]. simpl.
      destruct Hr1 as [Hf1 Ht1 Hl1 Hc1].
      split; [by split | apply substring_nil].
  - intros x c z Hx Hcaps. destruct (endIndex x =? 0); [|done]. intros Hc.
    exists x. split_and!; [done | by apply Reached_refl | apply substring_nil].
  - intros x c z Hx Hcaps. destruct (endIndex x =? length input); [|done].
    intros Hc.
    exists x. split_and!; [done | by apply Reached_refl | apply substring_nil].
Qed.

End Soundness.

Lemma GroupsIn_True r : GroupsIn (λ _ _, True) r.
Proof. induction r; simpl; auto. Qed.

Lemma matchAt_sound input re P i y :
  GroupsIn P (pattern re) → i ≤ length input →
  matchAt input re i = Some y →
  Reached input P (State i (replicate (ngroups re) None)) y
  ∧ Lang (pattern re) (substring input i (endIndex y)).
Proof.
  intros Hwf Hi Hm. unfold matchAt in Hm.
  apply (matcher_sound input P _ Hwf) in Hm as (y' & [= ->] & Hr & Hw);
    [done | done |].
  simpl. intros j w Hj. apply lookup_replicate in Hj as [? _]. done.
Qed.

Lemma searchFrom_sound input re P n i j y :
  GroupsIn P (pattern re) → i + n ≤ length input →
  searchFrom input re n i = Some (j, y) →
  j ≤ length input
  ∧ Reached input P (State j (replicate (ngroups re) None)) y
  ∧ Lang (pattern re) (substring input j (endIndex y)).
Proof.
  intros Hwf. revert i. induction n as [|n IH]; intros i Hi; simpl.
  - destruct (matchAt input re i) as [y'|] eqn:E; [|done].
    intros [= -> ->]. split; [lia|]. apply matchAt_sound; [done | lia | done].
  - destruct (matchAt input re i) as [y'|] eqn:E.
    + intros [= -> ->]. split; [lia|]. apply matchAt_sound; [done | lia | done].
    + apply IH. lia.
Qed.

Lemma exec_sound input re P j y :
  GroupsIn P (pattern re) →
  exec input re = Some (j, y) →
  length (captures y) = ngroups re ∧ CapturesIn P (captures y).
Proof.
  intros Hwf He. unfold exec in He.
  apply (searchFrom_sound _ _ P) in He as (_ & [_ _ Hl Hc] & _); [|done|simpl; lia].
  simpl in Hl. by rewrite length_replicate in Hl.
Qed.

(** *** Splitting on a pattern that is one capture group *)

Lemma matchAt_whole input r src q y :
  q ≤ length input →
  matchAt input (mk src (Group 0 r) 1 []) q = Some y →
  captures y = [Some (substring input q (endIndex y))]
  ∧ q ≤ endIndex y ∧ endIndex y ≤ length input.
Proof.
  intros Hq. unfold matchAt. simpl. intros Hm.
  apply (matcher_sound input (λ _ _, True) r (GroupsIn_True r)) in Hm
    as (y1 & [= <-] & [Hf Ht Hl _] & _); [| done | done].
  simpl in *. destruct (captures y1) as [|c0 [|]]; simpl in Hl; try done.
Qed.

Lemma substring_to_end s p : substring s p (length s) = drop p s.
Proof. unfold substring. apply take_ge. rewrite length_drop. lia. Qed.

Lemma splitFrom_concat input r src fuel p q :
  p ≤ q →
  ∃ ts, splitFrom input (mk src (Group 0 r) 1 []) fuel p q = map Some ts
        ∧ concat ts = drop p input.
Proof.
  revert p q. induction fuel as [|fuel IH]; intros p q Hpq; simpl.
  - exists [drop p input]. rewrite substring_to_end. simpl.
    by rewrite app_nil_r.
  - destruct (length input <=? q) eqn:Eq.
    { exists [drop p input]. rewrite substring_to_end. simpl.
      by rewrite app_nil_r. }
    apply Nat.leb_gt in Eq.
    destruct (matchAt input _ q) as [y|] eqn:Em.
    + apply matchAt_whole in Em as (Hcaps & Hqe & He); [|lia].
      rewrite Nat.min_l by done.
      destruct (endIndex y =? p) eqn:Ep.
      * apply IH. lia.
      * destruct (IH (endIndex y) (endIndex y)) as (ts & -> & Hts); [done|].
        exists (substring input p q :: substring input q (endIndex y) :: ts).
        rewrite Hcaps. split; [done|]. simpl. rewrite Hts.
        rewrite <- (substring_to_end input (endIndex y)).
        rewrite !substring_app by lia. apply substring_to_end.
    + apply IH. lia.
Qed.

Lemma split_concat input r src :
  ∃ ts, split input (mk src (Group 0 r) 1 []) = map Some ts
        ∧ concat ts = input.
Proof.
  unfold split. destruct input as [|a l].
  - destruct (matchAt _ _ _); [by exists [] | by exists [[]]].
  - by apply (splitFrom_concat (a :: l) r src _ 0 0).
Qed.

End WordsFacts.

(** *** The groups a match defines *)

Module DefinedFacts.
Import RegExp Defined WordsFacts.

Lemma DefinedAt_clear ps caps i :
  DefinedAt caps i → i ∉ ps → DefinedAt (clearCaptures ps caps) i.
Proof.
  intros Hd Hi. induction ps as [|p ps IH]; simpl; [done|].
  apply not_elem_of_cons in Hi as [Hne Hi]. destruct (IH Hi) as [w Hw].
  exists w. by rewrite list_lookup_insert_ne.
Qed.

Lemma Defines_skip ps (m : mstate → cont → option mstate) :
  (∀ x c z, m x c = Some z → c x = Some z) → Defines [] ps m.
Proof.
  intros Hm x c z _ Hz. exists x. split_and!; [by apply Hm | done | | done].
  intros i Hi. by apply elem_of_nil in Hi.
Qed.

Section Definedness.

Variable input : list ascii.

Lemma charMatcher_defines p : Defines [] [] (charMatcher input p).
Proof.
  intros x c z _. unfold charMatcher.
  destruct (input !! endIndex x); [|done]. destruct (p a); [|done].
  intros Hc. eexists. split_and!; [exact Hc | done | | done].
  intros i Hi. by apply elem_of_nil in Hi.
Qed.

Lemma repeatMatcher_defines ss m ps greedy fuel min max :
  Defines ss ps m → Defines [] ps (repeatMatcher m ps greedy fuel min max).
Proof.
  intros Hm. revert min max.
  induction fuel as [|fuel IH]; intros min max x c z Hps; simpl; [done|].
  assert (∀ z, c x = Some z →
            ∃ y, c y = Some z ∧ length (captures y) = length (captures x)
              ∧ (∀ i, i ∈ [] → DefinedAt (captures y) i)
              ∧ (∀ i, DefinedAt (captures x) i → i ∉ ps →
                      DefinedAt (captures y) i)) as Hstop.
  { intros z' Hz'. exists x. split_and!; [done | done | | done].
    intros i Hi. by apply elem_of_nil in Hi. }
  assert (∀ z,
    m (State (endIndex x) (clearCaptures ps (captures x)))
      (λ y, if (min =? 0) && (endIndex y =? endIndex x) then None
            else repeatMatcher m ps greedy fuel (pred min) (pred <$> max) y c)
    = Some z →
    ∃ y, c y = Some z ∧ length (captures y) = length (captures x)
      ∧ (∀ i, i ∈ [] → DefinedAt (captures y) i)
      ∧ (∀ i, DefinedAt (captures x) i → i ∉ ps →
              DefinedAt (captures y) i)) as Hgo.
  { intros z' Hz'.
    apply Hm in Hz' as (y1 & Hd & Hl1 & _ & Hk1);
      [|simpl; by rewrite length_clearCaptures].
    simpl in *. rewrite length_clearCaptures in Hl1.
    destruct ((min =? 0) && (endIndex y1 =? endIndex x)); [done|].
    apply IH in Hd as (y & Hc & Hl2 & _ & Hk2); [|by rewrite Hl1].
    exists y. split_and!; [done | congruence | |].
    - intros i Hi. by apply elem_of_nil in Hi.
    - intros i Hi Hni. apply Hk2; [|done]. apply Hk1; [|done].
      by apply DefinedAt_clear. }
  destruct max as [[|k]|].
  - apply Hstop.
  - destruct (min =? 0); simpl; [destruct greedy; simpl|].
    + destruct (m _ _) as [z'|] eqn:Ez.
      * intros [= ->]. by apply Hgo.
      * apply Hstop.
    + destruct (c x) as [z'|] eqn:Ez.
      * intros [= ->]. by apply Hstop.
      * intros Hz. by apply Hgo.
    + intros Hz. by apply Hgo.
  - destruct (min =? 0); simpl; [destruct greedy; simpl|].
    + destruct (m _ _) as [z'|] eqn:Ez.
      * intros [= ->]. by apply Hgo.
      * apply Hstop.
    + destruct (c x) as [z'|] eqn:Ez.
      * intros [= ->]. by apply Hstop.
      * intros Hz. by apply Hgo.
    + intros Hz. by apply Hgo.
Qed.

Lemma sets_parens r i : i ∈ sets r → i ∈ parens r.
Proof.
  revert i.
  induction r as [| a | | neg ranges | r1 IH1 r2 IH2 | r1 IH1 r2 IH2
                  | greedy min max r IH | j r IH | neg r IH | |];
    simpl; intros i Hi; try (by apply elem_of_nil in Hi).
  - apply elem_of_app in Hi as [|]; apply elem_of_app; auto.
  - apply list_elem_of_filter in Hi as [_ Hi]. apply elem_of_app. auto.
  - apply elem_of_cons in Hi as [->|]; [left | right]; auto.
Qed.

Lemma matcher_defines r :
  NoDup (parens r) → Defines (sets r) (parens r) (matcher input r).
Proof.
  induction r as [| a | | neg ranges | r1 IH1 r2 IH2 | r1 IH1 r2 IH2
                  | greedy min max r IH | i r IH | neg r IH | |];
    intros Hnd; [simpl.. | | simpl | simpl | simpl | simpl].
  - by apply Defines_skip.
  - apply charMatcher_defines.
  - apply charMatcher_defines.
  - apply charMatcher_defines.
  - apply NoDup_app in Hnd as (Hnd1 & Hdisj & Hnd2).
    intros x c z Hps Hz. apply Forall_app in Hps as [Hps1 Hps2].
    apply (IH1 Hnd1) in Hz as (y1 & Hz & Hl1 & Hs1 & Hk1); [|done].
    apply (IH2 Hnd2) in Hz as (y & Hz & Hl2 & Hs2 & Hk2); [|by rewrite Hl1].
    exists y. split_and!; [done | congruence | |].
    + intros i Hi. apply elem_of_app in Hi as [Hi|Hi]; [|by apply Hs2].
      apply Hk2; [by apply Hs1|]. intros Hi2.
      apply (Hdisj i); [by apply sets_parens | done].
    + intros i Hi Hni. apply not_elem_of_app in Hni as [Hn1 Hn2].
      apply Hk2; [|done]. by apply Hk1.
  - apply NoDup_app in Hnd as (Hnd1 & Hdisj & Hnd2).
    intros x c z Hps. apply Forall_app in Hps as [Hps1 Hps2].
    destruct (matcher input r1 x c) as [z'|] eqn:E1.
    + intros [= ->].
      apply (IH1 Hnd1) in E1 as (y & Hz & Hl & Hs & Hk); [|done].
      exists y. split_and!; [done | done | |].
      * intros i Hi. apply list_elem_of_filter in Hi as [_ Hi]. by apply Hs.
      * intros i Hi Hni. apply not_elem_of_app in Hni as [Hn1 Hn2]. by apply Hk.
    + intros Hz.
      apply (IH2 Hnd2) in Hz as (y & Hz & Hl & Hs & Hk); [|done].
      exists y. split_and!; [done | done | |].
      * intros i Hi. apply list_elem_of_filter in Hi as [Hi _]. by apply Hs.
      * intros i Hi Hni. apply not_elem_of_app in Hni as [Hn1 Hn2]. by apply Hk.
  - intros x c z Hps Hz.
    exact (repeatMatcher_defines (sets r) (matcher input r) (parens r) greedy
             _ min max (IH Hnd) x c z Hps Hz).
  - apply NoDup_cons in Hnd as [Hi Hnd].
    intros x c z Hps Hz. apply Forall_cons in Hps as [Hix Hps].
    apply (IH Hnd) in Hz as (y1 & Hz & Hl & Hs & Hk); [|done].
    eexists. split; [exact Hz|]. simpl. split_and!.
    + by rewrite length_insert.
    + intros j Hj. destruct (decide (i = j)) as [->|Hne].
      * eexists. apply list_lookup_insert_eq. lia.
      * apply elem_of_cons in Hj as [->|Hj]; [done|].
        destruct (Hs j Hj) as [w Hw]. exists w.
        by rewrite list_lookup_insert_ne.
    + intros j Hj Hnj. apply not_elem_of_cons in Hnj as [Hne Hnj].
      destruct (Hk j Hj Hnj) as [w Hw]. exists w.
      by rewrite list_lookup_insert_ne.
  - intros x c z Hps. destruct neg.
    + destruct (matcher input r x Some); [done|]. intros Hz.
      exists x. split_and!; [done | done | | done].
      intros i Hi. by apply elem_of_nil in Hi.
    + destruct (matcher input r x Some) as [y1|] eqn:E; [|done].
      apply (IH Hnd) in E as (y' & [= ->] & Hl & _ & Hk); [|done].
      intros Hz. eexists. split; [exact Hz|]. simpl.
      split_and!; [done | | done].
      intros i Hi. by apply elem_of_nil in Hi.
  - apply Defines_skip. intros x c z. by destruct (endIndex x =? 0).
  - apply Defines_skip. intros x c z. by destruct (endIndex x =? length input).
Qed.

Lemma exec_defines re j y i :
  NoDup (parens (pattern re)) →
  Forall (λ i, i < ngroups re) (parens (pattern re)) →
  exec input re = Some (j, y) → i ∈ sets (pattern re) →
  DefinedAt (captures y) i.
Proof.
  intros Hnd Hlt He Hi. unfold exec in He.
  assert (∀ n k, searchFrom input re n k = Some (j, y) →
                 matchAt input re j = Some y) as Hsearch.
  { induction n as [|n IH]; intros k; simpl;
      destruct (matchAt input re k) eqn:E; try done.
    - by intros [= -> ->].
    - by intros [= -> ->].
    - apply IH. }
  apply Hsearch in He. unfold matchAt in He.
  apply (matcher_defines _ Hnd) in He as (y' & [= ->] & _ & Hs & _).
  - by apply Hs.
  - simpl. by rewrite length_replicate.
Qed.

End Definedness.
End DefinedFacts.

(** *** The fuel is enough *)

Module FuelFacts.
Import RegExp Fuel.

Section Enough.

Variable input : list ascii.

Lemma charMatcher_local p : Local input (charMatcher input p).
Proof.
  intros x c c' Hx Hc. unfold charMatcher.
  destruct (input !! endIndex x) eqn:E; [|done]. destruct (p a); [|done].
  apply Hc; simpl; [lia | by apply lookup_lt_Some in E].
Qed.

Lemma repeatMatcher_local m ps greedy fuel min max :
  Local input m → Local input (repeatMatcher m ps greedy fuel min max).
Proof.
  intros Hm. revert min max.
  induction fuel as [|fuel IH]; intros min max x c c' Hx Hc; simpl; [done|].
  assert (c x = c' x) as Hcx by (by apply Hc).
  assert (m (State (endIndex x) (clearCaptures ps (captures x)))
            (λ y, if (min =? 0) && (endIndex y =? endIndex x) then None
                  else repeatMatcher m ps greedy fuel (pred min) (pred <$> max) y c)
          = m (State (endIndex x) (clearCaptures ps (captures x)))
              (λ y, if (min =? 0) && (endIndex y =? endIndex x) then None
                    else repeatMatcher m ps greedy fuel (pred min) (pred <$> max) y c'))
    as Hgo.
  { apply Hm; [done|]. simpl. intros y Hy1 Hy2.
    destruct (_ && _); [done|]. apply IH; [done|].
    intros y' ? ?. apply Hc; [lia | done]. }
  rewrite Hgo, Hcx. done.
Qed.

Lemma matcher_local r : Local input (matcher input r).
Proof.
  induction r as [| a | | neg ranges | r1 IH1 r2 IH2 | r1 IH1 r2 IH2
                  | greedy min max r IH | i r IH | neg r IH | |];
    intros x c c' Hx Hc; [simpl.. | | simpl | simpl | simpl | simpl].
  - by apply Hc.
  - by apply charMatcher_local.
  - by apply charMatcher_local.
  - by apply charMatcher_local.
  - apply IH1; [done|]. intros y Hy1 Hy2. apply IH2; [done|].
    intros y' ? ?. apply Hc; [lia | done].
  - by rewrite (IH1 x c c'), (IH2 x c c').
  - by apply (repeatMatcher_local (matcher input r)).
  - apply IH; [done|]. intros y Hy1 Hy2. by apply Hc.
  - rewrite (Hc x) by done. destruct neg; [done|].
    destruct (matcher input r x Some); [|done]. by apply Hc.
  - destruct (endIndex x =? 0); [by apply Hc | done].
  - destruct (endIndex x =? length input); [by apply Hc | done].
Qed.

(** [repeatMatcher] does not run out of fuel: from the bound the matcher
    gives it, more fuel changes nothing. *)
Lemma repeatMatcher_fuel m ps greedy fuel fuel' min max x c :
  Local input m → endIndex x ≤ length input →
  min + (length input - endIndex x) < fuel →
  min + (length input - endIndex x) < fuel' →
  repeatMatcher m ps greedy fuel min max x c
  = repeatMatcher m ps greedy fuel' min max x c.
Proof.
  intros Hm. revert fuel' min max x.
  induction fuel as [|fuel IH]; intros fuel' min max x Hx Hf Hf'; [lia|].
  destruct fuel' as [|fuel']; [lia|]. simpl.
  assert (m (State (endIndex x) (clearCaptures ps (captures x)))
            (λ y, if (min =? 0) && (endIndex y =? endIndex x) then None
                  else repeatMatcher m ps greedy fuel (pred min) (pred <$> max) y c)
          = m (State (endIndex x) (clearCaptures ps (captures x)))
              (λ y, if (min =? 0) && (endIndex y =? endIndex x) then None
                    else repeatMatcher m ps greedy fuel' (pred min) (pred <$> max) y c))
    as Hgo.
  { apply Hm; [done|]. simpl. intros y Hy1 Hy2.
    destruct (min =? 0) eqn:Emin; simpl.
    - apply Nat.eqb_eq in Emin as ->.
      destruct (endIndex y =? endIndex x) eqn:Ey; [done|].
      apply Nat.eqb_neq in Ey. apply IH; [done | simpl; lia | simpl; lia].
    - apply Nat.eqb_neq in Emin. apply IH; [done | lia | lia]. }
  by rewrite Hgo.
Qed.

(** [splitFrom] does not run out of fuel either. *)
Lemma splitFrom_fuel re fuel fuel' p q :
  splitRounds input p q < fuel → splitRounds input p q < fuel' →
  splitFrom input re fuel p q = splitFrom input re fuel' p q.
Proof.
  unfold splitRounds. revert fuel' p q.
  induction fuel as [|fuel IH]; intros fuel' p q Hf Hf'; [lia|].
  destruct fuel' as [|fuel']; [lia|]. simpl.
  destruct (length input <=? q) eqn:Eq; [done|]. apply Nat.leb_gt in Eq.
  assert (splitFrom input re fuel p (S q) = splitFrom input re fuel' p (S q))
    as Hnext.
  { apply IH.
    - destruct (p =? q) eqn:E1, (p =? S q) eqn:E2; lia.
    - destruct (p =? q) eqn:E1, (p =? S q) eqn:E2; lia. }
  destruct (matchAt input re q) as [y|] eqn:Em; [|done].
  destruct (_ =? p) eqn:Ee; [done|]. apply Nat.eqb_neq in Ee.
  do 2 f_equal.
  assert (q ≤ endIndex y) as Hqe.
  { unfold matchAt in Em.
    apply (WordsFacts.matcher_sound input (λ _ _, True) _
             (WordsFacts.GroupsIn_True _)) in Em as (y' & [= ->] & [? ? ? ?] & _);
      [done | simpl; lia | done]. }
  apply IH.
  - rewrite Nat.eqb_refl. destruct (p =? q) eqn:E1; [apply Nat.eqb_eq in E1|]; lia.
  - rewrite Nat.eqb_refl. destruct (p =? q) eqn:E1; [apply Nat.eqb_eq in E1|]; lia.
Qed.

Lemma searchFrom_range re n i j y :
  i + n ≤ length input →
  searchFrom input re n i = Some (j, y) → i ≤ j ∧ j ≤ endIndex y.
Proof.
  revert i. induction n as [|n IH]; intros i Hi; simpl;
    destruct (matchAt input re i) as [y'|] eqn:Em; try done.
  - intros [= -> ->]. split; [done|]. unfold matchAt in Em.
    apply (WordsFacts.matcher_sound input (λ _ _, True) _
             (WordsFacts.GroupsIn_True _)) in Em as (? & [= ->] & [? ? ? ?] & _);
      [done | simpl; lia | done].
  - intros [= -> ->]. split; [done|]. unfold matchAt in Em.
    apply (WordsFacts.matcher_sound input (λ _ _, True) _
             (WordsFacts.GroupsIn_True _)) in Em as (? & [= ->] & [? ? ? ?] & _);
      [done | simpl; lia | done].
  - intros H. apply IH in H; [lia | lia].
Qed.

(** Nor does [replaceAllFrom]. *)
Lemma replaceAllFrom_fuel re replacement fuel fuel' next from :
  length input < from + fuel → length input < from + fuel' →
  replaceAllFrom input re replacement fuel next from
  = replaceAllFrom input re replacement fuel' next from.
Proof.
  revert fuel' next from.
  induction fuel as [|fuel IH]; intros fuel' next from Hf Hf'.
  - destruct fuel' as [|fuel']; [done|]. simpl.
    destruct (length input <? from) eqn:E; [done|].
    apply Nat.ltb_ge in E. lia.
  - destruct fuel' as [|fuel']; simpl.
    + destruct (length input <? from) eqn:E; [done|].
      apply Nat.ltb_ge in E. lia.
    + destruct (length input <? from) eqn:E; [done|]. apply Nat.ltb_ge in E.
      destruct (searchFrom input re _ from) as [[i y]|] eqn:Es; [|done].
      apply searchFrom_range in Es as [Hi He]; [|lia].
      assert (∀ next', replaceAllFrom input re replacement fuel next'
                         (if endIndex y =? i then S (endIndex y) else endIndex y)
                       = replaceAllFrom input re replacement fuel' next'
                           (if endIndex y =? i then S (endIndex y) else endIndex y))
        as Hnext.
      { intros next'. apply IH.
        - destruct (endIndex y =? i) eqn:E1; [apply Nat.eqb_eq in E1|apply Nat.eqb_neq in E1]; lia.
        - destruct (endIndex y =? i) eqn:E1; [apply Nat.eqb_eq in E1|apply Nat.eqb_neq in E1]; lia. }
      by rewrite !Hnext.
Qed.

End Enough.
End FuelFacts.

(** *** Reading a wrapped text *)

Module WrappedFacts.
Import RegExp Wrapped.

Lemma steps_app st a b :
  steps st (a ++ b)
  = match steps st a with
    | Compiled st1 => steps st1 b
    | SyntaxError => SyntaxError
    | Unmodelled => Unmodelled
    end.
Proof.
  revert st. induction a as [|c a IH]; intros st; simpl; [done|].
  destruct (step st c); [apply IH | done | done].
Qed.

Ltac split_char c :=
  repeat match goal with
         | |- context [Ascii.eqb c ?a] =>
             destruct (Ascii.eqb_spec c a); simplify_eq
         | H : context [Ascii.eqb c ?a] |- _ =>
             destruct (Ascii.eqb_spec c a); simplify_eq
         end.

Lemma step_inert st c :
  InGroup st → inert c = true →
  ∃ st', step st c = Compiled st' ∧ InGroup st'.
Proof.
  destruct st as [m q [k alts terms] stack next names].
  intros (Hs & Hk & Hn & Hnames & Hm) Hp. simpl in *. subst.
  unfold step, stepNormal, inert in *. simpl in *.
  split_char c. all: simpl in *. all: try discriminate.
  all: eexists; split; [reflexivity|].
  all: unfold addTerm, withMode, InGroup; simpl; auto 10.
Qed.

Lemma steps_inert st body :
  InGroup st → Forall (λ c, inert c = true) body →
  ∃ st', steps st body = Compiled st' ∧ InGroup st'.
Proof.
  intros Hin Hall. revert st Hin.
  induction Hall as [|c body Hc Hall IH]; intros st Hin; simpl.
  - by exists st.
  - destruct (step_inert st c Hin Hc) as (st1 & -> & Hin1). by apply IH.
Qed.

(** The end of the text: a literal c, one more code unit whatever it is,
    and the closing parenthesis. *)
Lemma close_marker st X src :
  InGroup st →
  match steps st ["c"; X; ")"]%char with
  | Compiled st' =>
      if structural X then finish src st' = SyntaxError
      else ∃ r, finish src st' = Compiled (mk src (Group 0 r) 1 [])
  | SyntaxError => structural X = true
  | Unmodelled => False
  end.
Proof.
  destruct st as [m q [k alts terms] stack next names].
  intros (Hs & Hk & Hn & Hnames & Hm). simpl in *. subst.
  unfold structural. simpl. unfold step at 1. simpl. unfold step at 1. simpl.
  unfold stepNormal at 1.
  split_char X. all: simpl.
  all: repeat (unfold step, stepNormal, stepClass, classAtom, finish, quantify,
                 addTerm, withMode, openCapture; simpl).
  all: eauto.
Qed.

(** A text in parentheses made of inert code units, a literal c and one
    last code unit compiles to one capture group, unless the last code
    unit is structural: then it is not a pattern. *)
Lemma create_marker a body X :
  inert a = true → Forall (λ c, inert c = true) body →
  let src := str ("("%char :: a :: body ++ ["c"; X; ")"]%char) in
  if structural X then create src = SyntaxError
  else ∃ r, create src = Compiled (mk src (Group 0 r) 1 []).
Proof.
  intros Ha Hbody src. unfold create. subst src.
  rewrite chars_str. set (src := str _). simpl.
  change (step (withMode AfterOpen initial) a)
    with (if Ascii.eqb a "?"
          then Compiled (withMode AfterOpenQ (withMode AfterOpen initial))
          else stepNormal (openCapture None (withMode AfterOpen initial)) a).
  destruct (Ascii.eqb_spec a "?") as [->|_]; [done|].
  assert (InGroup (openCapture None (withMode AfterOpen initial))) as Hin0.
  { unfold InGroup. simpl. auto 10. }
  destruct (step_inert _ a Hin0 Ha) as (st1 & Hs1 & Hin1).
  change (step (openCapture None (withMode AfterOpen initial)) a)
    with (stepNormal (openCapture None (withMode AfterOpen initial)) a) in Hs1.
  rewrite Hs1, steps_app.
  destruct (steps_inert st1 body Hin1 Hbody) as (st2 & -> & Hin2).
  pose proof (close_marker st2 X src Hin2) as Hc.
  destruct (steps st2 _) as [st3| |]; [|by rewrite Hc|done].
  done.
Qed.

End WrappedFacts.

(** *** The parts of a legacy path *)

Section LegacyParts.
Import RegExp Words WordsFacts Wrapped WrappedFacts Defined DefinedFacts.

Lemma append_empty_r s : s +:+ "" = s.
Proof.
  induction s as [|c s IH]; [reflexivity|].
  change (String c s +:+ "") with (String c (s +:+ "")). by rewrite IH.
Qed.

Lemma concat_str ts : String.concat "" (map str ts) = str (concat ts).
Proof.
  induction ts as [|t ts IH]; [done|].
  simpl. rewrite str_app, <- IH. destruct ts as [|t' ts]; simpl.
  - by rewrite append_empty_r.
  - done.
Qed.

Lemma inRanges_inert ranges c :
  ranges = [("."%char, "."%char); ("_"%char, "_"%char); ("-"%char, "-"%char)]
  ∨ ranges = [("s"%char, "s"%char); ("|"%char, "|"%char); ("S"%char, "S"%char)] →
  inRanges ranges c = true → inert c = true.
Proof.
  intros [-> | ->]; destruct c as [[] [] [] [] [] [] [] []];
    vm_compute; congruence.
Qed.

Lemma legacy_marker w :
  Lang (Alt (Seq (Quant true 0 (Some 1)
                    (Class false [("."%char, "."%char); ("_"%char, "_"%char);
                                  ("-"%char, "-"%char)]))
               (Seq (Class false [("s"%char, "s"%char); ("|"%char, "|"%char);
                                  ("S"%char, "S"%char)])
                  (Seq (Char "p") (Seq (Char "e") (Seq (Char "c") AnyChar)))))
          (Class false [("."%char, "."%char)])) w →
  length w ≤ 1
  ∨ ∃ pre X, w = pre ++ ["c"; X]%char ∧ Forall (λ c, inert c = true) pre.
Proof.
  simpl. intros [(w1 & w2 & -> & (ws & -> & Hws & _) & H)|(c & -> & _)];
    [right | left; simpl; lia].
  destruct H as (? & ? & -> & (c2 & -> & Hc2) & ? & ? & -> & -> & ? & ?
                 & -> & -> & ? & ? & -> & -> & X & -> & _).
  exists (concat ws ++ [c2; "p"; "e"]%char), X. split.
  - by rewrite <- app_assoc.
  - apply Forall_app. split.
    + induction Hws as [|v ws (c & -> & Hc) _ IH]; simpl; [done|].
      constructor; [|done]. eapply inRanges_inert; [by left | done].
    + repeat constructor. eapply inRanges_inert; [by right | done].
Qed.

Lemma legacy_groups tt :
  GroupsIn (legacyCaptures tt) (pattern (literal (beforeRegexp tt))).
Proof.
  destruct tt.
  - let p := eval vm_compute in (pattern (literal (beforeRegexp TE2e))) in
    change (pattern (literal (beforeRegexp TE2e))) with p.
    cbn [GroupsIn]. split_and!; try done.
    + simpl. intros w H. repeat (destruct H as (? & ? & -> & -> & H)). by subst.
    + apply legacy_marker.
  - let p := eval vm_compute in (pattern (literal (beforeRegexp TComponent))) in
    change (pattern (literal (beforeRegexp TComponent))) with p.
    cbn [GroupsIn]. split_and!; try done.
    + simpl. intros w H. repeat (destruct H as (? & ? & -> & -> & H)). by subst.
    + apply legacy_marker.
Qed.

Lemma legacy_names tt :
  source (literal (beforeRegexp tt)) = beforeRegexp tt
  ∧ ngroups (literal (beforeRegexp tt)) = 2
  ∧ names (literal (beforeRegexp tt)) = [("dir", 0); ("ext", 1)]
  ∧ parens (pattern (literal (beforeRegexp tt))) = [0; 1]
  ∧ sets (pattern (literal (beforeRegexp tt))) = [0; 1].
Proof. destruct tt; split_and!; vm_compute; reflexivity. Qed.

(** The captures of a match of a legacy pattern. *)
Lemma legacy_exec tt file i y :
  exec (chars file) (literal (beforeRegexp tt)) = Some (i, y) →
  ∃ marker,
    captures y = [Some (chars (legacyFolder tt)); Some marker]
    ∧ (length marker ≤ 1
       ∨ ∃ pre X, marker = pre ++ ["c"; X]%char
                  ∧ Forall (λ c, inert c = true) pre).
Proof.
  intros Ex. destruct (legacy_names tt) as (_ & Hn & _ & Hp & Hs).
  pose proof (exec_sound _ _ (legacyCaptures tt) _ _ (legacy_groups tt) Ex)
    as [Hlen Hcaps].
  assert (∀ k, k ∈ [0; 1] → DefinedAt (captures y) k) as Hdef.
  { intros k Hk. eapply exec_defines; [| |exact Ex|]; rewrite ?Hp, ?Hs, ?Hn.
    - compute_done.
    - repeat constructor; lia.
    - done. }
  rewrite Hn in Hlen.
  destruct (captures y) as [|c0 [|c1 [|]]] eqn:Ec; simpl in Hlen; try done.
  destruct (Hdef 0) as [w0 [= ->]]; [compute_done|].
  destruct (Hdef 1) as [w1 [= ->]]; [compute_done|].
  pose proof (Hcaps 0 w0 eq_refl) as H0. pose proof (Hcaps 1 w1 eq_refl) as H1.
  simpl in H0, H1. subst w0. by exists w1.
Qed.

Lemma legacyFolder_inert tt :
  ∃ a d, chars (legacyFolder tt) = a :: d ∧ inert a = true
         ∧ Forall (λ c, inert c = true) (d ++ ["|"%char])
         ∧ (1 <? length (chars (legacyFolder tt))) = true.
Proof.
  destruct tt; eexists _, _; (split; [reflexivity|]);
    (split_and!; [reflexivity | | reflexivity]);
    repeat (constructor; [reflexivity|]); constructor.
Qed.

Lemma legacy_folder_alone tt :
  ∃ r, create (str (chars "(" ++ chars (legacyFolder tt) ++ chars ")"))
       = Compiled (mk (str (chars "(" ++ chars (legacyFolder tt) ++ chars ")"))
                      (Group 0 r) 1 []).
Proof. destruct tt; eexists; vm_compute; reflexivity. Qed.

(** What [formatMigrationFile] does with a legacy pattern, on every path:
    it throws [NonSpecFileError] when the pattern does not match; when it
    matches, both groups are defined, and the call throws a SyntaxError if
    the marker is longer than one code unit and ends in a structural one,
    and otherwise returns parts whose texts join to the path. *)
Lemma formatMigrationFile_legacy tt file :
  let regexp := literal (beforeRegexp tt) in
  match exec (chars file) regexp with
  | None =>
      formatMigrationFile file regexp
      = Throw (NonSpecFileError file (beforeRegexp tt))
  | Some (_, y) =>
      ∃ marker,
        captures y = [Some (chars (legacyFolder tt)); Some marker]
        ∧ if (1 <? length marker) && default false (structural <$> last marker)
          then formatMigrationFile file regexp
               = Throw (RegExpSyntaxError
                          (str (chars "(" ++ chars (legacyFolder tt)
                                  ++ chars "|" ++ marker ++ chars ")")))
          else ∃ parts texts,
                 formatMigrationFile file regexp = Return parts
                 ∧ map text parts = map Some texts
                 ∧ String.concat "" texts = file
  end.
Proof.
  intros regexp. subst regexp. unfold formatMigrationFile.
  destruct (legacy_names tt) as (Hsrc & _ & Hnames & _).
  destruct (exec (chars file) _) as [[i y]|] eqn:Ex; [|by rewrite Hsrc].
  destruct (legacy_exec tt file i y Ex) as (marker & Hcaps & Hshape).
  exists marker. split; [done|].
  unfold groups. rewrite Hnames, Hcaps. simpl.
  destruct (legacyFolder_inert tt) as (a & d & Hdir & Ha & Hd & ->).
  assert (∀ src r higlights,
    ∃ parts texts,
      Return (map (λ t, {| text := str <$> t; highlight := includes higlights t |})
                  (split (chars file) (mk src (Group 0 r) 1 []))) = Return parts
      ∧ map text parts = map Some texts
      ∧ String.concat "" texts = file) as Hparts.
  { intros src r higlights.
    destruct (split_concat (chars file) r src) as (ts & -> & Hts).
    eexists _, (map str ts). split_and!; [reflexivity | |].
    - by rewrite <- !list_fmap_compose.
    - by rewrite concat_str, Hts, str_chars. }
  destruct Hshape as [Hshort|(pre & X & -> & Hpre)].
  - assert ((1 <? length marker) = false) as -> by (apply Nat.ltb_ge; lia).
    simpl. destruct (legacy_folder_alone tt) as [r Hr].
    change (String "(" (str (chars (legacyFolder tt) ++ [")"%char])))
      with (str (chars "(" ++ chars (legacyFolder tt) ++ chars ")")).
    rewrite Hr. apply Hparts.
  - assert ((1 <? length (pre ++ ["c"; X]%char)) = true) as ->.
    { apply Nat.ltb_lt. rewrite length_app. simpl. lia. }
    assert (last (pre ++ ["c"; X]%char) = Some X) as ->.
    { by rewrite last_app. }
    simpl.
    pose proof (create_marker a (d ++ "|"%char :: pre) X Ha) as Hc.
    cbv zeta in Hc.
    match goal with
    | |- context [create ?s] =>
        replace s with (str ("("%char :: a :: (d ++ "|"%char :: pre)
                               ++ ["c"; X; ")"]%char))
    end.
    2:{ rewrite Hdir. simpl. do 2 f_equal. f_equal.
        rewrite <- !app_assoc. simpl. by rewrite <- ?app_assoc. }
    assert (Forall (λ c, inert c = true) (d ++ "|"%char :: pre)) as Hbody.
    { change (d ++ "|"%char :: pre) with (d ++ ["|"%char] ++ pre).
      rewrite app_assoc. by apply Forall_app. }
    destruct (structural X).
    + rewrite Hc; [|done]. do 2 f_equal. rewrite Hdir. simpl.
      do 2 f_equal. f_equal. rewrite <- !app_assoc. simpl.
      by rewrite <- ?app_assoc.
    + destruct Hc as [r ->]; [done | apply Hparts].
Qed.

(** C3: when [formatMigrationFile] does not throw for a legacy pattern, it
    returns parts that all have a text, and the texts, joined in order,
    are the path. *)
Theorem formatMigrationFile_texts (tt : TestingType) (file : string) :
  (∀ e, formatMigrationFile file (literal (beforeRegexp tt)) ≠ Throw e) →
  ∃ parts texts,
    formatMigrationFile file (literal (beforeRegexp tt)) = Return parts
    ∧ map text parts = map Some texts
    ∧ String.concat "" texts = file.
Proof.
  intros Hno. pose proof (formatMigrationFile_legacy tt file) as H.
  cbv zeta in H.
  destruct (exec (chars file) _) as [[i y]|]; [|by destruct (Hno _ H)].
  destruct H as (marker & _ & H).
  destruct (_ && _); [by destruct (Hno _ H) | done].
Qed.

Lemma formatMigrationFile_texts_witness :
  ∃ parts texts,
    formatMigrationFile "cypress/integration/foo.spec.js"
      (literal (beforeRegexp TE2e)) = Return parts
    ∧ map text parts = map Some texts
    ∧ String.concat "" texts = "cypress/integration/foo.spec.js".
Proof.
  apply (formatMigrationFile_texts TE2e "cypress/integration/foo.spec.js").
  intros e. vm_compute. discriminate.
Defined.

(** The literals of the module are patterns, and so are the texts of the
    table [regexps]. *)
Lemma literals_compile :
  create "([._-]?[s|S]pec.|[.])(?=[j|t]s[x]?)" = Compiled specMarker
  ∧ create "^[{]|[}]$" = Compiled outerBraces
  ∧ ∀ tt, create (beforeRegexp tt) = Compiled (literal (beforeRegexp tt))
          ∧ create (afterRegexp tt) = Compiled (literal (afterRegexp tt)).
Proof.
  split_and!; [vm_compute; reflexivity..|].
  intros tt. destruct tt; split; vm_compute; reflexivity.
Qed.

(** C8: [NonSpecFileError] is thrown exactly when the pattern does not
    match or the match has no groups.  A match with both groups does not
    always give a list: the captured texts go into the source of the
    splitting pattern as they are, so a legacy match whose marker ends in
    one of the code units ( ) [ \ makes the call throw a SyntaxError, as
    for cypress/integration/foo.spec(ts).js, where the marker is .spec( . *)
Theorem formatMigrationFile_errors :
  (∀ file regexp,
     (∃ f p, formatMigrationFile file regexp = Throw (NonSpecFileError f p))
     ↔ exec (chars file) regexp = None
       ∨ ∃ i y, exec (chars file) regexp = Some (i, y)
                ∧ groups regexp y = None)
  ∧ (∀ tt file i y marker X,
       exec (chars file) (literal (beforeRegexp tt)) = Some (i, y) →
       captures y !! 1 = Some (Some (marker ++ [X])) →
       marker ≠ [] → structural X = true →
       ∃ src, formatMigrationFile file (literal (beforeRegexp tt))
              = Throw (RegExpSyntaxError src))
  ∧ (∃ i y,
       exec (chars "cypress/integration/foo.spec(ts).js")
         (literal (beforeRegexp TE2e)) = Some (i, y)
       ∧ groups (literal (beforeRegexp TE2e)) y
         = Some [("dir", Some (chars "integration"));
                 ("ext", Some (chars ".spec("))])
  ∧ formatMigrationFile "cypress/integration/foo.spec(ts).js"
      (literal (beforeRegexp TE2e))
    = Throw (RegExpSyntaxError "(integration|.spec()").
Proof.
  split_and!.
  - intros file regexp. unfold formatMigrationFile.
    destruct (exec (chars file) regexp) as [[i y]|];
      [|split; [by left | by eexists _, _]].
    destruct (groups regexp y) as [gs|] eqn:Eg.
    + split.
      * intros (f & p & H). destruct (longValues _); [|done].
        by destruct (create _).
      * intros [|(i' & y' & [= <- <-] & ?)]; congruence.
    + split; [right; by eexists _, _ | by eexists _, _].
  - intros tt file i y marker X Ex Hcap Hne HX.
    pose proof (formatMigrationFile_legacy tt file) as H. cbv zeta in H.
    rewrite Ex in H. destruct H as (marker' & Hcaps & H).
    rewrite Hcaps in Hcap. injection Hcap as ->.
    rewrite last_snoc in H. simpl in H. rewrite HX, andb_true_r in H.
    assert ((1 <? length (marker ++ [X])) = true) as Hlen.
    { apply Nat.ltb_lt. rewrite length_app. simpl.
      destruct marker; [done | simpl; lia]. }
    rewrite Hlen in H. eauto.
  - eexists _, _. split; vm_compute; reflexivity.
  - vm_compute. reflexivity.
Qed.
End LegacyParts.

(** * Further properties *)

(** ** The global bucket *)

(** *** More on the reducer *)

Lemma reduceEntry_global acc key val :
  global (reduceEntry acc (key, val))
  = if bool_decide (key ∈ reservedKeys) then global acc
    else <[key := val]> (global acc).
Proof.
  unfold reduceEntry.
  destruct (bool_decide_reflect (key ∈ excludedFields)) as [Hx|Hx].
  { rewrite bool_decide_eq_true_2; [done|]. apply elem_of_reservedKeys. by left. }
  destruct (bool_decide_reflect (key = "e2e")) as [->|He]; [done|].
  destruct (bool_decide_reflect (key = "component")) as [->|Hc]; [done|].
  destruct (bool_decide_reflect (key = "testFiles")) as [->|Ht]; [done|].
  destruct (bool_decide_reflect (key = "baseUrl")) as [->|Hb]; [done|].
  rewrite bool_decide_eq_false_2; [done|]. rewrite elem_of_reservedKeys. tauto.
Qed.

Lemma reduceConfig_global_lookup cfg k v :
  NoDup (map fst cfg) →
  global (reduceConfig cfg) !! k = Some v ↔ (k, v) ∈ cfg ∧ k ∉ reservedKeys.
Proof.
  induction cfg as [|[key val] cfg IH] using rev_ind; intros Hnd.
  - simpl. rewrite lookup_empty, elem_of_nil. naive_solver.
  - rewrite map_app in Hnd. apply NoDup_app in Hnd as (Hnd & Hfresh & _).
    rewrite reduceConfig_snoc, reduceEntry_global, elem_of_app,
      list_elem_of_singleton.
    assert (∀ x, (key, x) ∉ cfg) as Hkey.
    { intros x Hin. apply (Hfresh key); [|simpl; left].
      apply list_elem_of_fmap. by exists (key, x). }
    case_bool_decide as Hres.
    + rewrite (IH Hnd). split; [tauto|].
      intros [[Hin|[= -> ->]] Hk]; [done | by destruct Hk].
    + destruct (decide (key = k)) as [->|Hne].
      * rewrite lookup_insert_eq. split.
        -- intros [= ->]. auto.
        -- intros [[Hin|[= ->]] _]; [by destruct (Hkey v) | done].
      * rewrite lookup_insert_ne by done. rewrite (IH Hnd). split; [tauto|].
        intros [[Hin|[= -> ->]] Hk]; [done | done].
Qed.

Lemma reduceEntry_global_ordered acc key val :
  Ordered.global (Ordered.reduceEntry acc (key, val))
  = if bool_decide (key ∈ reservedKeys) then Ordered.global acc
    else Ordered.setProp key val (Ordered.global acc).
Proof.
  unfold Ordered.reduceEntry.
  destruct (bool_decide_reflect (key ∈ excludedFields)) as [Hx|Hx].
  { rewrite bool_decide_eq_true_2; [done|]. apply elem_of_reservedKeys. by left. }
  destruct (bool_decide_reflect (key = "e2e")) as [->|He]; [done|].
  destruct (bool_decide_reflect (key = "component")) as [->|Hc]; [done|].
  destruct (bool_decide_reflect (key = "testFiles")) as [->|Ht]; [done|].
  destruct (bool_decide_reflect (key = "baseUrl")) as [->|Hb]; [done|].
  rewrite bool_decide_eq_false_2; [done|]. rewrite elem_of_reservedKeys. tauto.
Qed.

(** The global bucket, with its order, of a configuration without
    repeated keys and without array indices among its keys. *)
Lemma reduceConfig_global_order cfg :
  NoDup (map fst cfg) →
  (∀ k, k ∈ map fst cfg → Ordered.arrayIndex k = None) →
  Ordered.global (Ordered.reduceConfig cfg)
  = filter (λ kv, kv.1 ∉ reservedKeys) cfg.
Proof.
  induction cfg as [|[key val] cfg IH] using rev_ind; intros Hnd Hidx; [done|].
  rewrite map_app in Hnd, Hidx. apply NoDup_app in Hnd as (Hnd & Hfresh & _).
  rewrite OrderedFacts.reduceConfig_snoc_ordered, reduceEntry_global_ordered,
    filter_app.
  rewrite IH; [|done|]; last first.
  { intros k Hk. apply Hidx. apply elem_of_app. by left. }
  case_bool_decide as Hres.
  - rewrite filter_cons_False, filter_nil, app_nil_r by (simpl; tauto). done.
  - rewrite filter_cons_True, filter_nil by done.
    apply OrderedFacts.setProp_new.
    + intros ([k v] & Hk & [_ Hin]%list_elem_of_filter)%list_elem_of_fmap.
      simpl in Hk. subst k. apply (Hfresh key); [|simpl; left].
      apply list_elem_of_fmap. by exists (key, v).
    + apply Hidx. apply elem_of_app. right. simpl. left.
Qed.

(** X9: when no key occurs twice in the configuration, the global bucket
    holds exactly the top-level entries whose key has no rule of its own
    (it is not excluded and is none of e2e, component, testFiles and
    baseUrl), each with the value it has in the configuration; and when
    no key is an array index either, the global bucket has these entries
    in the order in which the configuration has them, so that
    configurations with the same entries in another order give the
    properties of the global bucket in another order. *)
Theorem reduceConfig_global_entries (cfg : list (string * value)) :
  NoDup (map fst cfg) →
  (∀ k v, global (reduceConfig cfg) !! k = Some v
          ↔ (k, v) ∈ cfg ∧ k ∉ reservedKeys)
  ∧ ((∀ k, k ∈ map fst cfg → Ordered.arrayIndex k = None) →
     Ordered.global (Ordered.reduceConfig cfg)
     = filter (λ kv, kv.1 ∉ reservedKeys) cfg).
Proof.
  intros Hnd. split.
  - intros k v. by apply reduceConfig_global_lookup.
  - by apply reduceConfig_global_order.
Qed.

Lemma reduceConfig_global_entries_witness :
  global (reduceConfig [("video", VBool true); ("baseUrl", VStr "u");
                        ("retries", VNum 2)])
    !! "video" = Some (VBool true)
  ∧ Ordered.global (Ordered.reduceConfig
                      [("video", VBool true); ("baseUrl", VStr "u");
                       ("retries", VNum 2)])
    = [("video", VBool true); ("retries", VNum 2)]
  ∧ Ordered.global (Ordered.reduceConfig
                      [("retries", VNum 2); ("baseUrl", VStr "u");
                       ("video", VBool true)])
    = [("retries", VNum 2); ("video", VBool true)].
Proof.
  destruct (reduceConfig_global_entries
              [("video", VBool true); ("baseUrl", VStr "u");
               ("retries", VNum 2)]) as [Hl Ho]; [compute_done|].
  destruct (reduceConfig_global_entries
              [("retries", VNum 2); ("baseUrl", VStr "u");
               ("video", VBool true)]) as [_ Ho']; [compute_done|].
  split_and!.
  - apply Hl. split; [left | compute_done].
  - rewrite Ho; [reflexivity|].
    intros k Hk. simpl in Hk. rewrite !elem_of_cons, elem_of_nil in Hk.
    destruct Hk as [->|[->|[->|[]]]]; reflexivity.
  - rewrite Ho'; [reflexivity|].
    intros k Hk. simpl in Hk. rewrite !elem_of_cons, elem_of_nil in Hk.
    destruct Hk as [->|[->|[->|[]]]]; reflexivity.
Defined.

(** X10: the option names of each bucket.  The global bucket has the
    top-level keys without a rule of their own; the e2e bucket has the
    names nested under e2e, specPattern when there is a testFiles key and
    baseUrl when there is a baseUrl key; the component bucket has the
    names nested under component, and specPattern when there is a
    testFiles key. *)
Theorem reduceConfig_bucket_keys (cfg : list (string * value)) (k : string) :
  (k ∈ dom (global (reduceConfig cfg)) ↔ k ∈ map fst cfg ∧ k ∉ reservedKeys)
  ∧ (k ∈ dom (e2e (reduceConfig cfg)) ↔
       k ∈ nestedKeys "e2e" cfg
       ∨ (k = "specPattern" ∧ "testFiles" ∈ map fst cfg)
       ∨ (k = "baseUrl" ∧ "baseUrl" ∈ map fst cfg))
  ∧ (k ∈ dom (component (reduceConfig cfg)) ↔
       k ∈ nestedKeys "component" cfg
       ∨ (k = "specPattern" ∧ "testFiles" ∈ map fst cfg)).
Proof.
  split_and!.
  - apply reduceConfig_dom_global.
  - apply reduceConfig_dom_e2e.
  - apply reduceConfig_dom_component.
Qed.

(** *** More on the rendered module *)

Lemma reduceConfig_no_options cfg :
  Forall (λ kv, kv.1 ∈ excludedFields
                ∨ (kv.1 = "e2e" ∨ kv.1 = "component") ∧ ownProps kv.2 = []) cfg →
  reduceConfig cfg = {| global := ∅; e2e := ∅; component := ∅ |}.
Proof.
  induction cfg as [|[key val] cfg IH] using rev_ind; [done|].
  intros [Hcfg Hlast]%Forall_app. rewrite Forall_singleton in Hlast.
  rewrite reduceConfig_snoc, (IH Hcfg). unfold reduceEntry. simpl in Hlast.
  destruct (bool_decide_reflect (key ∈ excludedFields)) as [Hx|Hx]; [done|].
  destruct Hlast as [Hx'|[Hkey Hprops]]; [done|].
  destruct Hkey as [-> | ->]; simpl; unfold spread; by rewrite Hprops.
Qed.

Lemma reduceConfig_no_options_ordered cfg :
  Forall (λ kv, kv.1 ∈ excludedFields
                ∨ (kv.1 = "e2e" ∨ kv.1 = "component") ∧ ownProps kv.2 = []) cfg →
  Ordered.reduceConfig cfg
  = {| Ordered.global := []; Ordered.e2e := []; Ordered.component := [] |}.
Proof.
  intros Hcfg. pose proof (reduceConfig_no_options cfg Hcfg) as Hm.
  destruct (OrderedFacts.reduceConfig_empty cfg) as (Hg & He & Hc).
  rewrite Hm in Hg, He, Hc. simpl in Hg, He, Hc.
  destruct (Ordered.reduceConfig cfg) as [g e c]. simpl in *.
  by rewrite (proj2 Hg), (proj2 He), (proj2 Hc).
Qed.

Section RenderingEdges.

Variable stringify : list (string * value) → string → string.
Variable normalize : string → string.

(** X11: a configuration with nothing to write.  When every key is an
    excluded one, or is e2e or component with a value without properties
    of its own, the module text is the header, the opening of the call,
    a line break and the closing, with no option and no block of a
    testing type; the serializer is not asked. *)
Theorem createConfigString_no_options (cfg : list (string * value)) :
  Forall (λ kv, kv.1 ∈ excludedFields
                ∨ (kv.1 = "e2e" ∨ kv.1 = "component") ∧ ownProps kv.2 = []) cfg →
  createConfigString stringify normalize cfg
  = "const { defineConfig } = require('cypress')" +:+ nl +:+ nl
      +:+ "module.exports = defineConfig({" +:+ nl +:+ "})".
Proof.
  intros Hcfg. unfold createConfigString, createCypressConfigJs.
  by rewrite (reduceConfig_no_options_ordered cfg Hcfg).
Qed.

End RenderingEdges.

Lemma createConfigString_no_options_witness :
  createConfigString (λ _ _, "{}") id
    [("pluginsFile", VStr "p.js"); ("$schema", VStr "s"); ("e2e", VObj [])]
  = "const { defineConfig } = require('cypress')" +:+ nl +:+ nl
      +:+ "module.exports = defineConfig({" +:+ nl +:+ "})".
Proof.
  apply createConfigString_no_options.
  apply Forall_cons_2; [left; compute_done|].
  apply Forall_cons_2; [left; compute_done|].
  apply Forall_cons_2; [right; by split; [left|] | apply Forall_nil_2].
Defined.

(** *** More on the listing of specs *)

Section ListingEdges.

Variable globby : string → string → completion (list string).

(** X14: when each of the two directories is null or the empty text,
    [getSpecs] returns two empty lists whatever the listing function
    does: nothing is listed. *)
Theorem getSpecs_no_directory (projectRoot : string)
    (componentDirPath e2eDirPath : option string) :
  componentDirPath = None ∨ componentDirPath = Some "" →
  e2eDirPath = None ∨ e2eDirPath = Some "" →
  getSpecs globby projectRoot componentDirPath e2eDirPath
  = Return {| before := []; after := [] |}.
Proof. intros [-> | ->] [-> | ->]; reflexivity. Qed.

(** X15: [getSpecs] returns exactly when both of its listings return.
    When one listing throws and the other returns, the caller gets that
    error; so with a component directory whose listing throws and no
    e2e directory, the call throws the error of the listing. *)
Theorem getSpecs_listing_errors (projectRoot : string)
    (componentDirPath e2eDirPath : option string) :
  let comp := findByTestingType globby projectRoot componentDirPath TComponent in
  let e2e := findByTestingType globby projectRoot e2eDirPath TE2e in
  ((∃ specs, getSpecs globby projectRoot componentDirPath e2eDirPath
             = Return specs)
   ↔ (∃ c, comp = Return c) ∧ (∃ e, e2e = Return e))
  ∧ (∀ err c, comp = Return c → e2e = Throw err →
       getSpecs globby projectRoot componentDirPath e2eDirPath = Throw err)
  ∧ (∀ err e, comp = Throw err → e2e = Return e →
       getSpecs globby projectRoot componentDirPath e2eDirPath = Throw err)
  ∧ (∀ d err, componentDirPath = Some d → d ≠ "" →
       e2eDirPath = None →
       globby (d +:+ "/**/*") projectRoot = Throw err →
       getSpecs globby projectRoot componentDirPath e2eDirPath = Throw err).
Proof.
  intros comp e2e. unfold getSpecs. fold comp e2e. split_and!.
  - destruct comp as [c| |], e2e as [e1| |]; simpl; split;
      try (intros [? ?]; done); try (intros [[? ?] [? ?]]; done); eauto.
  - intros err c -> ->. done.
  - intros err e -> ->. done.
  - intros d err -> Hd -> Hg. subst comp e2e. simpl.
    destruct d; [done|]. by rewrite Hg.
Qed.

End ListingEdges.

(** *** More on moving the spec files *)

Section MovingEdges.

Variable FS : Type.
Variable readdir : FS → string → completion (list string).
Variable statIsFile : FS → string → completion bool.
Variable moveSync : FS → string → string → completion FS.
Variable pathJoin : string → string → string.

Hypothesis readdir_NoDup :
  ∀ σ d names, readdir σ d = Return names → NoDup names.
Hypothesis pathJoin_same :
  ∀ σ d f, statIsFile σ (pathJoin d f) = statIsFile σ (d +:+ "/" +:+ f).
Hypothesis moveSync_no_overwrite :
  ∀ σ a b σ', moveSync σ a b = Return σ' → a ≠ b →
    statIsFile σ b ≠ Return true.
Hypothesis moveSync_moved :
  ∀ σ a b σ', moveSync σ a b = Return σ' →
    statIsFile σ a = Return true → statIsFile σ' b = Return true.
Hypothesis moveSync_frame :
  ∀ σ a b σ' p, moveSync σ a b = Return σ' → p ≠ a → p ≠ b →
    statIsFile σ' p = statIsFile σ p.

Lemma moveEach_frame σ moves σ' res p :
  moveEach moveSync σ moves = (σ', res) →
  p ∉ map from moves → p ∉ map to moves →
  statIsFile σ' p = statIsFile σ p.
Proof.
  revert σ. induction moves as [|m moves IH]; intros σ; simpl.
  - by intros [= <- <-].
  - intros H [Hf Hfs]%not_elem_of_cons [Ht Hts]%not_elem_of_cons.
    destruct (moveSync σ (from m) (to m)) as [σ1| e |] eqn:Em.
    + rewrite (IH σ1 H Hfs Hts). by eapply moveSync_frame.
    + by injection H as <- <-.
    + by injection H as <- <-.
Qed.


(** X17: [moveSpecFiles] touches the listed files and their renamed
    paths only.  Whether it returns or throws, a path that is neither
    the path of a listed file nor a renamed path of one is a file after
    the call exactly as it was before. *)
Theorem moveSpecFiles_frame (σ σ' : FS) (e2eDirPath : string)
    (files : list string) (res : completion ()) (p : string) :
  getSpecFiles readdir statIsFile pathJoin σ e2eDirPath = Return files →
  moveSpecFiles readdir statIsFile moveSync pathJoin σ e2eDirPath = (σ', res) →
  (∀ f, f ∈ files → p ≠ e2eDirPath +:+ "/" +:+ f
                    ∧ p ≠ renameSpecPath (e2eDirPath +:+ "/" +:+ f)) →
  statIsFile σ' p = statIsFile σ p.
Proof.
  unfold moveSpecFiles. intros Hfiles. rewrite Hfiles. intros Hmove Hp.
  eapply moveEach_frame; [exact Hmove | |].
  - unfold specMoves. rewrite <- list_fmap_compose.
    intros (f & -> & Hf)%list_elem_of_fmap. by destruct (Hp f Hf).
  - unfold specMoves. rewrite <- list_fmap_compose.
    intros (f & -> & Hf)%list_elem_of_fmap. by destruct (Hp f Hf).
Qed.

Lemma filterFiles_throws σ dirPath pre f post e :
  Forall (λ g, ∃ b, statIsFile σ (pathJoin dirPath g) = Return b) pre →
  statIsFile σ (pathJoin dirPath f) = Throw e →
  filterFiles statIsFile pathJoin σ dirPath (pre ++ f :: post) = Throw e.
Proof.
  intros Hpre Hf. induction Hpre as [|g pre [b Hg] _ IH]; simpl.
  - by rewrite Hf.
  - by rewrite Hg, IH.
Qed.

(** X18: a failure while the directory is listed moves nothing.  When
    the directory cannot be read, or the status of one of its entries
    cannot be read while those of the entries before it can,
    [moveSpecFiles] throws that error and leaves the file system as it
    was. *)
Theorem moveSpecFiles_listing_fails (σ : FS) (e2eDirPath : string) (e : exn) :
  (readdir σ e2eDirPath = Throw e →
   moveSpecFiles readdir statIsFile moveSync pathJoin σ e2eDirPath
   = (σ, Throw e))
  ∧ (∀ pre f post,
       readdir σ e2eDirPath = Return (pre ++ f :: post) →
       Forall (λ g, ∃ b, statIsFile σ (pathJoin e2eDirPath g) = Return b) pre →
       statIsFile σ (pathJoin e2eDirPath f) = Throw e →
       moveSpecFiles readdir statIsFile moveSync pathJoin σ e2eDirPath
       = (σ, Throw e)).
Proof.
  unfold moveSpecFiles, getSpecFiles. split.
  - by intros ->.
  - intros pre f post -> Hpre Hf. simpl.
    by rewrite (filterFiles_throws σ e2eDirPath pre f post e Hpre Hf).
Qed.

End MovingEdges.

(** ** Matching in a longer text, and the leftmost match *)

(** *** Matching in a longer text *)

Module ShiftedFacts.
Import RegExp Shifted.

Section Continuations.

Variable input : list ascii.

(** The result depends on the continuation through its values only. *)
Lemma repeatMatcher_ext m ps greedy fuel min max x c c' :
  (∀ x c c', (∀ y, c y = c' y) → m x c = m x c') →
  (∀ y, c y = c' y) →
  repeatMatcher m ps greedy fuel min max x c
  = repeatMatcher m ps greedy fuel min max x c'.
Proof.
  intros Hm Hc. revert min max x.
  induction fuel as [|fuel IH]; intros min max x; simpl; [done|].
  rewrite (Hc x).
  rewrite (Hm (State (endIndex x) (clearCaptures ps (captures x)))
             (λ y, if (min =? 0) && (endIndex y =? endIndex x) then None
                   else repeatMatcher m ps greedy fuel (pred min) (pred <$> max) y c)
             (λ y, if (min =? 0) && (endIndex y =? endIndex x) then None
                   else repeatMatcher m ps greedy fuel (pred min) (pred <$> max) y c')).
  - done.
  - intros y. destruct (_ && _); [done | apply IH].
Qed.

Lemma matcher_ext r x c c' :
  (∀ y, c y = c' y) → matcher input r x c = matcher input r x c'.
Proof.
  revert x c c'.
  induction r as [| a | | neg ranges | r1 IH1 r2 IH2 | r1 IH1 r2 IH2
                  | greedy min max r IH | i r IH | neg r IH | |];
    intros x c c' Hc; [simpl.. | | simpl | simpl | simpl | simpl].
  - apply Hc.
  - unfold charMatcher. destruct (input !! _); [|done]. by destruct (Ascii.eqb _ _).
  - unfold charMatcher. destruct (input !! _); [|done]. by destruct (negb _).
  - unfold charMatcher. destruct (input !! _); [|done]. by destruct (xorb _ _).
  - apply IH1. intros y. by apply IH2.
  - by rewrite (IH1 x c c'), (IH2 x c c').
  - apply repeatMatcher_ext; [|done]. intros x0 c0 c0'. apply IH.
  - apply IH. intros y. apply Hc.
  - rewrite (Hc x). destruct neg; [done|].
    destruct (matcher input r x Some); [apply Hc | done].
  - rewrite (Hc x). done.
  - rewrite (Hc x). done.
Qed.

(** A function applied to the result of the continuation can be applied
    to the result of the match. *)
Lemma repeatMatcher_map (g : mstate → mstate) m ps greedy fuel min max x c :
  (∀ x c c', (∀ y, c y = c' y) → m x c = m x c') →
  (∀ x c, m x (λ y, g <$> c y) = g <$> m x c) →
  repeatMatcher m ps greedy fuel min max x (λ y, g <$> c y)
  = g <$> repeatMatcher m ps greedy fuel min max x c.
Proof.
  intros Hext Hm. revert min max x.
  induction fuel as [|fuel IH]; intros min max x; simpl; [done|].
  assert (m (State (endIndex x) (clearCaptures ps (captures x)))
            (λ y, if (min =? 0) && (endIndex y =? endIndex x) then None
                  else repeatMatcher m ps greedy fuel (pred min) (pred <$> max) y
                         (λ y, g <$> c y))
          = g <$> m (State (endIndex x) (clearCaptures ps (captures x)))
              (λ y, if (min =? 0) && (endIndex y =? endIndex x) then None
                    else repeatMatcher m ps greedy fuel (pred min) (pred <$> max) y c))
    as Hgo.
  { rewrite <- Hm. apply Hext. intros y. destruct (_ && _); [done | apply IH]. }
  rewrite Hgo. set (M := m _ _).
  destruct max as [[|k]|]; [done | |];
    (destruct (negb (min =? 0)); [done|]); destruct (negb greedy);
    destruct (c x), M; done.
Qed.

Lemma matcher_map (g : mstate → mstate) r x c :
  matcher input r x (λ y, g <$> c y) = g <$> matcher input r x c.
Proof.
  revert x c.
  induction r as [| a | | neg ranges | r1 IH1 r2 IH2 | r1 IH1 r2 IH2
                  | greedy min max r IH | i r IH | neg r IH | |];
    intros x c; [simpl.. | | simpl | simpl | simpl | simpl].
  - done.
  - unfold charMatcher. destruct (input !! _); [|done]. by destruct (Ascii.eqb _ _).
  - unfold charMatcher. destruct (input !! _); [|done]. by destruct (negb _).
  - unfold charMatcher. destruct (input !! _); [|done]. by destruct (xorb _ _).
  - rewrite <- IH1. apply matcher_ext. intros y. apply IH2.
  - rewrite IH1, IH2. by destruct (matcher input r1 x c).
  - apply repeatMatcher_map; [|done]. intros x0 c0 c0'. apply matcher_ext.
  - rewrite <- IH. by apply matcher_ext.
  - destruct neg.
    + by destruct (matcher input r x Some).
    + by destruct (matcher input r x Some).
  - by destruct (endIndex x =? 0).
  - by destruct (endIndex x =? length input).
Qed.

End Continuations.

Lemma substring_shift pre s a b :
  substring (pre ++ s) (a + length pre) (b + length pre) = substring s a b.
Proof.
  unfold substring. replace (b + length pre - (a + length pre)) with (b - a) by lia.
  f_equal. rewrite Nat.add_comm, <- drop_drop. by rewrite drop_app_length.
Qed.

Lemma lookup_shift pre (s : list ascii) k :
  (pre ++ s) !! (k + length pre) = s !! k.
Proof.
  rewrite lookup_app_r by lia. f_equal. lia.
Qed.

Section Shift.

Variable pre s : list ascii.

Local Abbreviation up := (shift (length pre)).

Lemma charMatcher_shift p x c :
  charMatcher (pre ++ s) p (up x) c = charMatcher s p x (λ y, c (up y)).
Proof.
  unfold charMatcher. simpl. rewrite lookup_shift.
  destruct (s !! endIndex x); [|done]. by destruct (p _).
Qed.

Lemma repeatMatcher_shift m m' ps greedy fuel min max x c :
  (∀ x c c', (∀ y, c y = c' y) → m' x c = m' x c') →
  (∀ x c, m (up x) c = m' x (λ y, c (up y))) →
  repeatMatcher m ps greedy fuel min max (up x) c
  = repeatMatcher m' ps greedy fuel min max x (λ y, c (up y)).
Proof.
  intros Hext Hm. revert min max x.
  induction fuel as [|fuel IH]; intros min max x; simpl; [done|].
  change (State (endIndex x + length pre) (clearCaptures ps (captures x)))
    with (up (State (endIndex x) (clearCaptures ps (captures x)))).
  rewrite Hm.
  assert (m' (State (endIndex x) (clearCaptures ps (captures x)))
            (λ y, if (min =? 0) && (endIndex (up y) =? endIndex x + length pre)
                  then None
                  else repeatMatcher m ps greedy fuel (pred min) (pred <$> max)
                         (up y) c)
          = m' (State (endIndex x) (clearCaptures ps (captures x)))
              (λ y, if (min =? 0) && (endIndex y =? endIndex x) then None
                    else repeatMatcher m' ps greedy fuel (pred min) (pred <$> max)
                           y (λ y, c (up y)))) as ->.
  { apply Hext. intros y. simpl.
    replace (endIndex y + length pre =? endIndex x + length pre)
      with (endIndex y =? endIndex x).
    - destruct (_ && _); [done | apply IH].
    - destruct (Nat.eqb_spec (endIndex y) (endIndex x)) as [->|Hne].
      + by rewrite Nat.eqb_refl.
      + symmetry. apply Nat.eqb_neq. lia. }
  done.
Qed.

(** A term that does not look at the start of the input matches in
    [pre ++ s], from an index of [s] on, as it does in [s]. *)
Lemma matcher_shift r x c :
  noStart r = true →
  matcher (pre ++ s) r (up x) c = matcher s r x (λ y, c (up y)).
Proof.
  revert x c.
  induction r as [| a | | neg ranges | r1 IH1 r2 IH2 | r1 IH1 r2 IH2
                  | greedy min max r IH | i r IH | neg r IH | |];
    intros x c Hr; [simpl.. | | simpl | simpl | simpl | simpl].
  - done.
  - apply charMatcher_shift.
  - apply charMatcher_shift.
  - apply charMatcher_shift.
  - simpl in Hr. apply andb_true_iff in Hr as [Hr1 Hr2].
    rewrite IH1 by done. apply matcher_ext. intros y. by apply IH2.
  - simpl in Hr. apply andb_true_iff in Hr as [Hr1 Hr2].
    by rewrite IH1, IH2.
  - simpl in Hr.
    change (repeatMatcher (matcher (pre ++ s) r) (parens r) greedy
              (S (min + (length (pre ++ s) - endIndex (up x)))) min max (up x) c
            = repeatMatcher (matcher s r) (parens r) greedy
                (S (min + (length s - endIndex x))) min max x (λ y, c (up y))).
    replace (length (pre ++ s) - endIndex (up x))
      with (length s - endIndex x) by (simpl; rewrite length_app; lia).
    apply repeatMatcher_shift.
    + intros x0 c0 c0'. apply matcher_ext.
    + intros x0 c0. by apply IH.
  - simpl in Hr. rewrite IH by done. apply matcher_ext. intros y. simpl.
    by rewrite substring_shift.
  - simpl in Hr.
    assert (matcher (pre ++ s) r (up x) Some = up <$> matcher s r x Some) as ->.
    { rewrite IH by done. apply (matcher_map s up r x Some). }
    destruct neg; by destruct (matcher s r x Some).
  - done.
  - replace (endIndex x + length pre =? length (pre ++ s))
      with (endIndex x =? length s); [done|].
    rewrite length_app.
    destruct (Nat.eqb_spec (endIndex x) (length s)) as [->|Hne].
    + symmetry. apply Nat.eqb_eq. lia.
    + symmetry. apply Nat.eqb_neq. lia.
Qed.

Lemma matchAt_shift re k :
  noStart (pattern re) = true →
  matchAt (pre ++ s) re (k + length pre) = up <$> matchAt s re k.
Proof.
  intros Hr. unfold matchAt.
  change (State (k + length pre) (replicate (ngroups re) None))
    with (up (State k (replicate (ngroups re) None))).
  rewrite matcher_shift by done.
  apply (matcher_map s up (pattern re) _ Some).
Qed.

End Shift.

(** *** The leftmost match *)

Lemma searchFrom_Some input re n i k y :
  searchFrom input re n i = Some (k, y) ↔
  i ≤ k ∧ k ≤ i + n ∧ matchAt input re k = Some y
  ∧ ∀ j, i ≤ j → j < k → matchAt input re j = None.
Proof.
  revert i. induction n as [|n IH]; intros i; simpl.
  - destruct (matchAt input re i) as [y'|] eqn:E.
    + split.
      * intros [= -> ->]. split_and!; [lia | lia | done | intros; lia].
      * intros (H1 & H2 & Hk & Hj). assert (k = i) as -> by lia. congruence.
    + split; [done|]. intros (H1 & H2 & Hk & Hj).
      assert (k = i) as -> by lia. congruence.
  - destruct (matchAt input re i) as [y'|] eqn:E.
    + split.
      * intros [= -> ->]. split_and!; [lia | lia | done | intros; lia].
      * intros (H1 & H2 & Hk & Hj). destruct (decide (k = i)) as [->|Hne].
        -- congruence.
        -- rewrite Hj in E; [done | lia | lia].
    + rewrite IH. split.
      * intros (H1 & H2 & Hk & Hj). split_and!; [lia | lia | done |].
        intros j Hj1 Hj2. destruct (decide (j = i)) as [->|Hne]; [done|].
        apply Hj; lia.
      * intros (H1 & H2 & Hk & Hj). split_and!; [| lia | done |].
        -- destruct (decide (k = i)) as [->|Hne]; [congruence | lia].
        -- intros j Hj1 Hj2. apply Hj; lia.
Qed.

Lemma searchFrom_None input re n i :
  searchFrom input re n i = None ↔
  ∀ j, i ≤ j → j ≤ i + n → matchAt input re j = None.
Proof.
  revert i. induction n as [|n IH]; intros i; simpl.
  - destruct (matchAt input re i) as [y'|] eqn:E.
    + split; [done|]. intros H. rewrite H in E; [done | lia | lia].
    + split; [|done]. intros _ j H1 H2. assert (j = i) as -> by lia. done.
  - destruct (matchAt input re i) as [y'|] eqn:E.
    + split; [done|]. intros H. rewrite H in E; [done | lia | lia].
    + rewrite IH. split.
      * intros H j H1 H2. destruct (decide (j = i)) as [->|Hne]; [done|].
        apply H; lia.
      * intros H j H1 H2. apply H; lia.
Qed.

End ShiftedFacts.

(** ** The marker pattern, as a text *)

(** *** The marker pattern *)

Section MarkerPattern.
Import RegExp Words WordsFacts Shifted ShiftedFacts.

Lemma substring_drop (s : list ascii) a b :
  a ≤ b → b ≤ length s → substring s a b ++ drop b s = drop a s.
Proof.
  intros Hab Hb. rewrite <- (substring_to_end s b), substring_app by done.
  apply substring_to_end.
Qed.

Lemma specMarker_pattern :
  pattern specMarker = Seq (Group 0 markerAlt) scriptLook
  ∧ ngroups specMarker = 1
  ∧ noStart (Seq (Group 0 markerAlt) scriptLook) = true.
Proof. split_and!; vm_compute; reflexivity. Qed.

Lemma code_inj a b : code a = code b → a = b.
Proof.
  unfold code. intros H.
  by rewrite <- (ascii_nat_embedding a), <- (ascii_nat_embedding b), H.
Qed.

Lemma inRanges_three a b c ch :
  inRanges [(a, a); (b, b); (c, c)] ch = true → ch ∈ [a; b; c].
Proof.
  unfold inRanges. simpl. rewrite !orb_true_iff, !andb_true_iff, !Nat.leb_le.
  intros H. rewrite !elem_of_cons.
  assert (∀ u : ascii, code u ≤ code ch ∧ code ch ≤ code u → ch = u) as Heq.
  { intros u [? ?]. apply code_inj. lia. }
  destruct H as [H|[H|[H|?]]]; try discriminate; apply Heq in H; auto.
Qed.

Lemma inRanges_one a ch : inRanges [(a, a)] ch = true → ch = a.
Proof.
  unfold inRanges. simpl. rewrite !orb_true_iff, !andb_true_iff, !Nat.leb_le.
  intros [[? ?]|?]; [|discriminate]. apply code_inj. lia.
Qed.

Lemma markerAlt_words w : Lang markerAlt w → markerWord w.
Proof.
  unfold markerAlt. cbn [Lang xorb].
  intros [(w1 & w2 & -> & (ws & -> & Hws & Hmax) & H)|(c & -> & Hc)].
  - right.
    destruct H as (? & ? & -> & (c & -> & Hc) & ? & ? & -> & -> & ? & ?
                   & -> & -> & ? & ? & -> & -> & X & -> & HX).
    exists (concat ws), c, X. split_and!; [done | | | done].
    + specialize (Hmax 1 eq_refl).
      destruct ws as [|v [|]]; [by left | | simpl in Hmax; lia].
      right. apply Forall_singleton in Hws as (d & -> & Hd).
      exists d. split; [done|]. by apply inRanges_three.
    + by apply inRanges_three.
  - left. apply inRanges_one in Hc. by subst.
Qed.

Lemma scriptLook_words w :
  Lang (Seq (Class false [("j"%char, "j"%char); ("|"%char, "|"%char);
                          ("t"%char, "t"%char)])
          (Seq (Char "s")
             (Quant true 0 (Some 1) (Class false [("x"%char, "x"%char)])))) w →
  ∀ rest, scriptAhead (w ++ rest).
Proof.
  cbn [Lang xorb].
  intros (? & ? & -> & (a & -> & Ha) & ? & ? & -> & -> & _) rest.
  exists a. eexists. split; [reflexivity|]. by apply inRanges_three.
Qed.

(** A match of a term followed by a lookahead. *)
Lemma seq_look_sound input P G L x z :
  GroupsIn P G → GroupsIn P L →
  endIndex x ≤ length input → CapturesIn P (captures x) →
  matcher input (Seq G (Look false L)) x Some = Some z →
  ∃ y y', Reached input P x y
          ∧ Lang G (substring input (endIndex x) (endIndex y))
          ∧ Reached input P y y'
          ∧ Lang L (substring input (endIndex y) (endIndex y'))
          ∧ endIndex z = endIndex y.
Proof.
  intros HG HL Hx Hcaps. simpl. intros Hm.
  apply (matcher_sound input P G HG) in Hm as (y & Hc & Hr & Hw); [|done..].
  destruct (matcher input L y Some) as [y'|] eqn:El; [|done].
  injection Hc as <-.
  apply (matcher_sound input P L HL) in El as (y'' & [= ->] & Hr' & Hw');
    [| apply Hr | apply Hr].
  by exists y, y'.
Qed.

(** What a match of the marker and the lookahead says of the text: a
    marker begins at the index the match starts at. *)
Lemma marker_look_sound i input x z :
  endIndex x ≤ length input →
  matcher input (Seq (Group i markerAlt) scriptLook) x Some = Some z →
  ∃ w post, drop (endIndex x) input = w ++ post ∧ markerWord w
            ∧ scriptAhead post ∧ endIndex z = endIndex x + length w.
Proof.
  intros Hx. unfold scriptLook. intros Hm.
  apply (seq_look_sound input (λ _ _, True)) in Hm
    as (y1 & y2 & [Hf1 Ht1 _ _] & Hw & [Hf2 Ht2 _ _] & Hl & He);
    [| apply GroupsIn_True | apply GroupsIn_True | done | done].
  exists (substring input (endIndex x) (endIndex y1)),
    (substring input (endIndex y1) (endIndex y2) ++ drop (endIndex y2) input).
  split_and!.
  - by rewrite !substring_drop by lia.
  - by apply markerAlt_words.
  - by apply scriptLook_words.
  - unfold substring. rewrite length_take, length_drop. lia.
Qed.

(** The lookahead succeeds before a script extension. *)
Lemma scriptLook_ahead pre a rest caps :
  a ∈ ["j"; "|"; "t"]%char →
  matcher (pre ++ a :: "s"%char :: rest) scriptLook (State (length pre) caps) Some
  = Some (State (length pre) caps).
Proof.
  intros Ha.
  change (State (length pre) caps) with (shift (length pre) (State 0 caps)).
  rewrite matcher_shift by reflexivity. unfold scriptLook.
  rewrite !elem_of_cons, elem_of_nil in Ha.
  destruct Ha as [->|[->|[->|[]]]]; destruct rest as [|ch rest]; cbn.
  all: try reflexivity.
  all: by destruct ((code "x" <=? code ch) && (code ch <=? code "x") || false).
Qed.

(** The three forms of a marker at the start of a text. *)
Lemma markerAlt_dot a rest caps (k : cont) :
  a ∈ ["j"; "|"; "t"]%char →
  matcher ("."%char :: a :: "s"%char :: rest) markerAlt (State 0 caps) k
  = k (State 1 caps).
Proof.
  intros Ha. rewrite !elem_of_cons, elem_of_nil in Ha. unfold markerAlt.
  destruct Ha as [->|[->|[->|[]]]]; cbn; reflexivity.
Qed.

Lemma markerAlt_spec c X rest caps (k : cont) z :
  c ∈ ["s"; "|"; "S"]%char → isLineTerminator X = false →
  k (State 5 caps) = Some z →
  matcher (c :: "p"%char :: "e"%char :: "c"%char :: X :: rest) markerAlt
    (State 0 caps) k = Some z.
Proof.
  intros Hc HX Hk. rewrite !elem_of_cons, elem_of_nil in Hc. unfold markerAlt.
  destruct Hc as [->|[->|[->|[]]]]; cbn; rewrite HX; cbn [negb];
    rewrite Hk; reflexivity.
Qed.

Lemma markerAlt_sep_spec d c X rest caps (k : cont) z :
  d ∈ ["."; "_"; "-"]%char →
  c ∈ ["s"; "|"; "S"]%char → isLineTerminator X = false →
  k (State 6 caps) = Some z →
  matcher (d :: c :: "p"%char :: "e"%char :: "c"%char :: X :: rest) markerAlt
    (State 0 caps) k = Some z.
Proof.
  intros Hd Hc HX Hk. rewrite !elem_of_cons, elem_of_nil in Hd, Hc.
  unfold markerAlt.
  destruct Hd as [->|[->|[->|[]]]]; destruct Hc as [->|[->|[->|[]]]];
    cbn; rewrite HX; cbn [negb]; rewrite Hk; reflexivity.
Qed.

Lemma substring_prefix (w post : list ascii) :
  substring (w ++ post) 0 (length w) = w.
Proof.
  unfold substring. by rewrite Nat.sub_0_r, drop_0, take_app_length.
Qed.

(** A marker at the start of a text is matched there, and as a whole. *)
Lemma marker_here i w post caps :
  markerWord w → scriptAhead post →
  matcher (w ++ post) (Seq (Group i markerAlt) scriptLook) (State 0 caps) Some
  = Some (State (length w) (<[i := Some w]> caps)).
Proof.
  intros Hw (a & rest & -> & Ha). cbn [matcher endIndex].
  assert (∀ caps', matcher (w ++ a :: "s"%char :: rest) scriptLook
                     (State (length w) caps') Some
                   = Some (State (length w) caps')) as Hlook.
  { intros caps'. by apply scriptLook_ahead. }
  pose proof (substring_prefix w (a :: "s"%char :: rest)) as Hsub.
  destruct Hw as [->|(sep & c & X & -> & Hsep & Hc & HX)].
  - cbn [app]. rewrite markerAlt_dot by done. cbn [endIndex captures].
    cbn [app length] in Hsub, Hlook. by rewrite Hsub, Hlook.
  - destruct Hsep as [->|(d & -> & Hd)]; cbn [app length] in *.
    + apply markerAlt_spec; [done..|]. cbn [endIndex captures].
      by rewrite Hsub, Hlook.
    + apply markerAlt_sep_spec; [done..|]. cbn [endIndex captures].
      by rewrite Hsub, Hlook.
Qed.

Lemma markerWord_length w :
  markerWord w → length w = 1 ∨ length w = 5 ∨ length w = 6.
Proof.
  intros [->|(sep & c & X & -> & [->|(d & -> & _)] & _)]; simpl; auto.
Qed.

(** A marker of a text is matched at its index, and as a whole. *)
Lemma marker_at i input pre w post caps :
  markerIn input pre w post →
  matcher input (Seq (Group i markerAlt) scriptLook) (State (length pre) caps)
    Some
  = Some (State (length pre + length w) (<[i := Some w]> caps)).
Proof.
  intros (-> & Hw & Hpost).
  change (State (length pre) caps) with (shift (length pre) (State 0 caps)).
  rewrite matcher_shift by reflexivity.
  rewrite (matcher_map (w ++ post) (shift (length pre)) _ _ Some).
  rewrite marker_here by done. simpl. unfold shift. simpl.
  by rewrite Nat.add_comm.
Qed.

Lemma specMarker_matchAt input pre w post :
  markerIn input pre w post →
  matchAt input specMarker (length pre)
  = Some (State (length pre + length w) [Some w]).
Proof.
  intros Hin. unfold matchAt. destruct specMarker_pattern as (-> & -> & _).
  by rewrite (marker_at 0 input pre w post _ Hin).
Qed.

Lemma specMarker_matchAt_inv input k y :
  k ≤ length input → matchAt input specMarker k = Some y →
  ∃ w post, markerIn input (take k input) w post
            ∧ endIndex y = k + length w.
Proof.
  intros Hk. unfold matchAt. destruct specMarker_pattern as (-> & -> & _).
  intros Hm. apply marker_look_sound in Hm as (w & post & Hd & Hw & Hp & He);
    [|done].
  exists w, post. split; [|done]. split; [|done].
  simpl in Hd. by rewrite <- Hd, take_drop.
Qed.

(** The search for the marker pattern finds the leftmost marker. *)
Lemma specMarker_exec input :
  match exec input specMarker with
  | None => ∀ pre w post, ¬ markerIn input pre w post
  | Some (k, y) =>
      ∃ pre w post,
        markerIn input pre w post
        ∧ k = length pre ∧ endIndex y = length pre + length w
        ∧ ∀ pre' w' post', markerIn input pre' w' post' →
                           length pre ≤ length pre'
  end.
Proof.
  unfold exec. destruct (searchFrom _ _ _ 0) as [[k y]|] eqn:E.
  - apply searchFrom_Some in E as (_ & Hk & Hm & Hleft). simpl in Hk.
    destruct (specMarker_matchAt_inv input k y Hk Hm) as (w & post & Hin & He).
    exists (take k input), w, post.
    assert (length (take k input) = k) as Hlen.
    { rewrite length_take. lia. }
    rewrite Hlen. split_and!; [done..|].
    intros pre' w' post' Hin'.
    destruct (decide (length pre' < k)) as [Hlt|]; [|lia].
    pose proof (specMarker_matchAt _ _ _ _ Hin') as Hm'.
    rewrite (Hleft (length pre')) in Hm' by lia. discriminate.
  - intros pre w post Hin.
    pose proof (specMarker_matchAt _ _ _ _ Hin) as Hm.
    rewrite (proj1 (searchFrom_None _ _ _ _) E) in Hm; [done | lia |].
    destruct Hin as (-> & _). rewrite length_app. simpl. lia.
Qed.

(** [replace] with the marker pattern rewrites the leftmost marker. *)
Lemma specMarker_replace input repl :
  (replace input specMarker repl = input
   ∧ ∀ pre w post, ¬ markerIn input pre w post)
  ∨ ∃ pre w post,
      markerIn input pre w post
      ∧ (∀ pre' w' post', markerIn input pre' w' post' →
                          length pre ≤ length pre')
      ∧ replace input specMarker repl = pre ++ repl ++ post.
Proof.
  unfold replace. pose proof (specMarker_exec input) as H.
  destruct (exec input specMarker) as [[k y]|]; [right | by left].
  destruct H as (pre & w & post & Hin & -> & -> & Hleft).
  exists pre, w, post. split_and!; [done..|].
  destruct Hin as (-> & _).
  rewrite take_app_length. do 2 f_equal.
  rewrite drop_app_add', drop_app_length by done. done.
Qed.

End MarkerPattern.

(** ** Renaming, by the markers of the path *)

Section RenameFacts.
Import RegExp.

Lemma replaceString_length s pat repl :
  (replaceString s pat repl = s ∧ ∀ pre post, s ≠ pre ++ pat ++ post)
  ∨ length (replaceString s pat repl) + length pat = length s + length repl.
Proof.
  unfold replaceString. destruct (indexOf pat s) as [i|] eqn:E.
  - right. apply indexOf_Some in E as (pre & post & -> & <- & _).
    rewrite take_app_length, drop_app_add', drop_app_length by done.
    rewrite !length_app. lia.
  - left. split; [done|]. by apply indexOf_None.
Qed.

(** X1: the second rewrite of [renameSpecPath] puts .cy. in the place of
    the leftmost marker of the path, and leaves a path without a marker
    as the first rewrite left it. *)
Theorem renameSpecPath_leftmost_marker (spec : string) :
  let r := replaceString (chars spec) (chars "integration") (chars "e2e") in
  (renameSpecPath spec = str r ∧ ∀ pre w post, ¬ markerIn r pre w post)
  ∨ ∃ pre w post,
      markerIn r pre w post
      ∧ (∀ pre' w' post', markerIn r pre' w' post' → length pre ≤ length pre')
      ∧ renameSpecPath spec = str (pre ++ chars ".cy." ++ post).
Proof.
  intros r. unfold renameSpecPath. fold r.
  destruct (specMarker_replace r (chars ".cy."))
    as [[-> Hno]|(pre & w & post & Hin & Hleft & ->)].
  - by left.
  - right. by exists pre, w, post.
Qed.

(** A path that [renameSpecPath] gives back has nothing to rewrite. *)
Lemma renameSpecPath_fixed spec :
  renameSpecPath spec = spec →
  (∀ pre post, chars spec ≠ pre ++ chars "integration" ++ post)
  ∧ (∀ pre w post, ¬ markerIn (chars spec) pre w post).
Proof.
  unfold renameSpecPath. intros Hfix.
  apply (f_equal chars) in Hfix. rewrite chars_str in Hfix.
  pose proof (f_equal length Hfix) as Hlen.
  destruct (replaceString_length (chars spec) (chars "integration") (chars "e2e"))
    as [[Hr Hno]|Hl].
  - split; [done|]. rewrite Hr in Hfix, Hlen.
    destruct (specMarker_replace (chars spec) (chars ".cy."))
      as [[_ Hnone]|(pre & w & post & (Hs & Hw & _) & _ & Hrep)]; [done|].
    rewrite Hrep, Hs in Hlen.
    rewrite !length_app in Hlen. simpl in Hlen.
    apply markerWord_length in Hw. lia.
  - exfalso. change (length (chars "integration")) with 11 in Hl.
    change (length (chars "e2e")) with 3 in Hl.
    destruct (specMarker_replace
                (replaceString (chars spec) (chars "integration") (chars "e2e"))
                (chars ".cy."))
      as [[Hrep _]|(pre & w & post & (Hs & Hw & _) & _ & Hrep)].
    + rewrite Hrep in Hlen. lia.
    + rewrite Hrep in Hlen. rewrite Hs in Hl.
      rewrite !length_app in Hlen, Hl. simpl in Hlen.
      apply markerWord_length in Hw. lia.
Qed.

(** X2: the paths that [renameSpecPath] leaves as they are are exactly
    the paths without the text integration and without a marker that is
    followed by a script extension. *)
Theorem renameSpecPath_fixed_points (spec : string) :
  renameSpecPath spec = spec ↔
    (∀ pre post, chars spec ≠ pre ++ chars "integration" ++ post)
    ∧ (∀ pre w post, ¬ markerIn (chars spec) pre w post).
Proof.
  split; [apply renameSpecPath_fixed|].
  intros [Hint Hmark]. unfold renameSpecPath.
  rewrite replaceString_absent by done.
  destruct (specMarker_replace (chars spec) (chars ".cy."))
    as [[-> _]|(pre & w & post & Hin & _)].
  - apply str_chars.
  - by destruct (Hmark pre w post).
Qed.

Lemma renameSpecPath_fixed_points_witness :
  (∀ pre post, chars "cypress/support/commands.py"
               ≠ pre ++ chars "integration" ++ post)
  ∧ (∀ pre w post, ¬ markerIn (chars "cypress/support/commands.py") pre w post).
Proof. apply renameSpecPath_fixed_points. vm_compute. reflexivity. Defined.

(** X3: a path on which the marker rule has fired is never a fixed
    point.  When the path, after its first rewrite, has a marker followed
    by a script extension, renaming the renamed path changes it again:
    the dot that ends the inserted .cy. is a marker of its own. *)
Theorem renameSpecPath_marker_again (spec : string) (pre w post : list ascii) :
  markerIn (replaceString (chars spec) (chars "integration") (chars "e2e"))
    pre w post →
  renameSpecPath (renameSpecPath spec) ≠ renameSpecPath spec.
Proof.
  intros Hin Hfix. apply renameSpecPath_fixed in Hfix as [_ Hno].
  unfold renameSpecPath in Hno. rewrite chars_str in Hno.
  destruct (specMarker_replace
              (replaceString (chars spec) (chars "integration") (chars "e2e"))
              (chars ".cy."))
    as [[_ Hnone]|(pre0 & w0 & post0 & (_ & _ & Hpost) & _ & Hrep)].
  - by destruct (Hnone pre w post).
  - rewrite Hrep in Hno.
    apply (Hno (pre0 ++ chars ".cy") ["."%char] post0).
    split_and!; [by rewrite <- !app_assoc | by left | done].
Qed.

End RenameFacts.

Section SpecFiles.
Import RegExp.

Lemma lookup_middle (a b : list ascii) i :
  (a ++ b) !! (length a + i) = b !! i.
Proof. rewrite lookup_app_r by lia. f_equal. lia. Qed.

(** The text pec occurs in a text without it, followed by a separator and
    a code unit other than p, only from the second code unit after the
    text on. *)
Lemma pec_after_base base d c1 tail A B :
  (∀ a b, base ≠ a ++ chars "pec" ++ b) →
  d ∈ ["."; "_"; "-"]%char → c1 ≠ "p"%char →
  base ++ d :: c1 :: tail = A ++ chars "pec" ++ B →
  length base + 2 ≤ length A.
Proof.
  intros Hpec Hd Hc1 Hs'.
  destruct (decide (length A < length base + 2)) as [HA|]; [exfalso | lia].
  assert (∀ i x, (base ++ d :: c1 :: tail) !! i = Some x → i < length base →
                 base !! i = Some x) as Hbase.
  { intros i x Hi Hib. by rewrite lookup_app_l in Hi. }
  assert ((base ++ d :: c1 :: tail) !! length base = Some d) as Hd0.
  { rewrite <- (Nat.add_0_r (length base)). apply lookup_middle. }
  assert ((base ++ d :: c1 :: tail) !! S (length base) = Some c1) as Hd1.
  { rewrite <- (Nat.add_1_r (length base)). apply lookup_middle. }
  assert (d ≠ "p"%char ∧ d ≠ "e"%char ∧ d ≠ "c"%char) as (Hdp & Hde & Hdc).
  { rewrite !elem_of_cons, elem_of_nil in Hd.
    split_and!; intros ->; destruct Hd as [?|[?|[?|[]]]]; discriminate. }
  assert ((base ++ d :: c1 :: tail) !! length A = Some "p"%char
          ∧ (base ++ d :: c1 :: tail) !! S (length A) = Some "e"%char
          ∧ (base ++ d :: c1 :: tail) !! S (S (length A)) = Some "c"%char)
    as (Hp & He & Hc).
  { rewrite Hs'. split_and!.
    - rewrite <- (Nat.add_0_r (length A)). by rewrite lookup_middle.
    - rewrite <- (Nat.add_1_r (length A)). by rewrite lookup_middle.
    - replace (S (S (length A))) with (length A + 2) by lia.
      by rewrite lookup_middle. }
  destruct (decide (length A + 3 ≤ length base)) as [Hin|Hout].
  - apply (Hpec A (take (length base - (length A + 3)) B)).
    assert (take (length base) (A ++ chars "pec" ++ B)
            = A ++ chars "pec" ++ take (length base - (length A + 3)) B) as Ht.
    { rewrite take_app_ge by lia. f_equal.
      rewrite take_app_ge by (simpl; lia). f_equal. f_equal. simpl. lia. }
    rewrite <- Ht, <- Hs'. by rewrite take_app_length.
  - assert (length A + 2 = length base ∨ length A + 1 = length base
            ∨ length A = length base ∨ length A = S (length base))
      as [H|[H|[H|H]]] by lia.
    + replace (S (S (length A))) with (length base) in Hc by lia. congruence.
    + replace (S (length A)) with (length base) in He by lia. congruence.
    + rewrite H in Hp. congruence.
    + rewrite H in Hp. congruence.
Qed.

(** No marker begins inside a text without a dot and without the text
    pec, when a separator follows it. *)
Lemma marker_after_base base d c1 tail pre' w' post' :
  "."%char ∉ base →
  (∀ a b, base ≠ a ++ chars "pec" ++ b) →
  d ∈ ["."; "_"; "-"]%char → c1 ≠ "p"%char →
  markerIn (base ++ d :: c1 :: tail) pre' w' post' →
  length base ≤ length pre'.
Proof.
  intros Hdot Hpec Hd Hc1 (Hs & Hw & _).
  destruct (decide (length pre' < length base)) as [Hlt|]; [exfalso | lia].
  destruct Hw as [->|(sep & c & X & -> & Hsep & _)].
  - apply Hdot. apply (list_elem_of_lookup_2 _ (length pre')).
    rewrite <- (lookup_app_l base (d :: c1 :: tail)) by done.
    rewrite Hs. rewrite <- (Nat.add_0_r (length pre')).
    by rewrite lookup_middle.
  - assert (length base + 2 ≤ length (pre' ++ sep ++ [c])) as Hge.
    { apply (pec_after_base base d c1 tail _ (X :: post') Hpec Hd Hc1).
      rewrite Hs. by rewrite <- !app_assoc. }
    rewrite !length_app in Hge. simpl in Hge.
    destruct Hsep as [->|(d' & -> & _)]; simpl in Hge; lia.
Qed.

(** The marker rule on a text that is a base, a marker that begins with
    a separator, and a script extension. *)
Lemma specMarker_replace_after base w post d w0 :
  "."%char ∉ base →
  (∀ a b, base ≠ a ++ chars "pec" ++ b) →
  markerWord w → w = d :: w0 → d ∈ ["."; "_"; "-"]%char →
  scriptAhead post →
  replace (base ++ w ++ post) specMarker (chars ".cy.")
  = base ++ chars ".cy." ++ post.
Proof.
  intros Hdot Hpec Hw Hw0 Hd Hpost.
  assert (markerIn (base ++ w ++ post) base w post) as Hhere by done.
  assert (∃ c1 tail, w ++ post = d :: c1 :: tail ∧ c1 ≠ "p"%char)
    as (c1 & tail & Htext & Hc1).
  { destruct Hpost as (a & rest & -> & Ha).
    destruct Hw as [->|(sep & c & X & -> & Hsep & Hc & _)].
    - injection Hw0 as <- <-. exists a, ("s"%char :: rest). split; [done|].
      rewrite !elem_of_cons, elem_of_nil in Ha. intros ->.
      destruct Ha as [?|[?|[?|[]]]]; discriminate.
    - destruct Hsep as [->|(d' & -> & _)].
      + simpl in Hw0. injection Hw0 as <- <-.
        rewrite !elem_of_cons, elem_of_nil in Hd, Hc.
        exfalso. destruct Hd as [?|[?|[?|[]]]], Hc as [?|[?|[?|[]]]]; congruence.
      + simpl in Hw0. injection Hw0 as <- <-. eexists c, _. split; [done|].
        rewrite !elem_of_cons, elem_of_nil in Hc. intros ->.
        destruct Hc as [?|[?|[?|[]]]]; discriminate. }
  destruct (specMarker_replace (base ++ w ++ post) (chars ".cy."))
    as [[_ Hnone]|(pre1 & w1 & post1 & Hin1 & Hleft & ->)].
  { by destruct (Hnone base w post). }
  assert (length pre1 = length base) as Hlen.
  { apply Nat.le_antisymm; [by apply (Hleft base w post)|].
    rewrite Htext in Hin1. by eapply marker_after_base. }
  pose proof (specMarker_matchAt _ _ _ _ Hin1) as H1.
  pose proof (specMarker_matchAt _ _ _ _ Hhere) as H2.
  rewrite Hlen, H2 in H1. injection H1 as _ ->.
  destruct Hin1 as (Hs & _).
  assert (pre1 = base) as ->.
  { apply (f_equal (take (length base))) in Hs.
    rewrite take_app_length in Hs. by rewrite <- Hlen, take_app_length in Hs. }
  apply app_inv_head in Hs. apply app_inv_head in Hs. by subst.
Qed.

Lemma default_folder_rewritten rest :
  replaceString (chars "cypress/integration/" ++ rest) (chars "integration")
    (chars "e2e")
  = chars "cypress/e2e/" ++ rest.
Proof.
  change (chars "cypress/e2e/" ++ rest)
    with (chars "cypress/" ++ chars "e2e" ++ "/"%char :: rest).
  apply (replaceString_first _ _ _ (chars "cypress/") ("/"%char :: rest));
    [reflexivity|].
  intros pre' post' Heq.
  do 8 (destruct pre' as [|? pre']; [discriminate|]). simpl. lia.
Qed.

Lemma default_folder_base name :
  "."%char ∉ name → (∀ a b, name ≠ a ++ chars "pec" ++ b) →
  ("."%char ∉ chars "cypress/e2e/" ++ name)
  ∧ (∀ a b, chars "cypress/e2e/" ++ name ≠ a ++ chars "pec" ++ b).
Proof.
  intros Hdot Hpec. split.
  - rewrite elem_of_app. intros [H|H]; [|done]. revert H. compute_done.
  - intros a b Heq.
    do 12 (destruct a as [|? a]; [discriminate|]; injection Heq as _ Heq).
    by apply (Hpec a b).
Qed.

(** X4: the usual spec files.  For a file name without a dot and without
    the text pec, followed by a marker that begins with a separator and by
    a script extension, the path below cypress/integration/ is renamed to
    the path below cypress/e2e/ with .cy. in the place of the marker; the
    same name without the text integration anywhere keeps its folder and
    has the marker replaced by .cy. as well. *)
Theorem renameSpecPath_spec_file (name w post : list ascii) :
  "."%char ∉ name → (∀ a b, name ≠ a ++ chars "pec" ++ b) →
  markerWord w → (∃ d w0, w = d :: w0 ∧ d ∈ ["."; "_"; "-"]%char) →
  scriptAhead post →
  renameSpecPath (str (chars "cypress/integration/" ++ name ++ w ++ post))
  = str (chars "cypress/e2e/" ++ name ++ chars ".cy." ++ post)
  ∧ ((∀ a b, name ++ w ++ post ≠ a ++ chars "integration" ++ b) →
     renameSpecPath (str (name ++ w ++ post))
     = str (name ++ chars ".cy." ++ post)).
Proof.
  intros Hdot Hpec Hw (d & w0 & Hw0 & Hd) Hpost. split.
  - unfold renameSpecPath. rewrite chars_str, default_folder_rewritten.
    destruct (default_folder_base name Hdot Hpec) as [Hdot' Hpec'].
    rewrite (app_assoc _ name), (app_assoc _ name).
    by rewrite (specMarker_replace_after _ w post d w0).
  - intros Hint. unfold renameSpecPath.
    rewrite chars_str, replaceString_absent by done.
    by rewrite (specMarker_replace_after _ w post d w0).
Qed.

Lemma renameSpecPath_spec_file_witness :
  renameSpecPath "cypress/integration/login/form_spec.tsx"
  = "cypress/e2e/login/form.cy.tsx"
  ∧ renameSpecPath "cypress/component/Button.jsx"
    = "cypress/component/Button.cy.jsx".
Proof.
  split.
  - apply (renameSpecPath_spec_file (chars "login/form") (chars "_spec.")
             (chars "tsx")).
    + compute_done.
    + apply indexOf_None. reflexivity.
    + right. exists ["_"%char], "s"%char, "."%char.
      split_and!; [reflexivity | right; exists "_"%char; split; [done|compute_done]
                   | compute_done | reflexivity].
    + eexists _, _. split; [reflexivity | compute_done].
    + eexists _, _. split; [reflexivity | compute_done].
  - apply (renameSpecPath_spec_file (chars "cypress/component/Button") ["."%char]
             (chars "jsx")).
    + compute_done.
    + apply indexOf_None. reflexivity.
    + by left.
    + eexists _, _. split; [reflexivity | compute_done].
    + eexists _, _. split; [reflexivity | compute_done].
    + apply indexOf_None. reflexivity.
Defined.

End SpecFiles.

(** ** The braces of a serialized object *)

Section OuterBraces.
Import RegExp WordsFacts ShiftedFacts.

Lemma outerBraces_pattern :
  pattern outerBraces
  = Alt (Seq AssertStart (Class false [("{"%char, "{"%char)]))
        (Seq (Class false [("}"%char, "}"%char)]) AssertEnd)
  ∧ ngroups outerBraces = 0.
Proof. split; vm_compute; reflexivity. Qed.

Lemma inRanges_self a : inRanges [(a, a)] a = true.
Proof. unfold inRanges. simpl. by rewrite Nat.leb_refl. Qed.

(** Where the pattern of the outer braces matches in a text in braces:
    at the opening brace, at the closing brace, and nowhere else. *)
Lemma outerBraces_matchAt body j :
  matchAt ("{"%char :: body ++ ["}"%char]) outerBraces j
  = if j =? 0 then Some (State 1 [])
    else if j =? S (length body) then Some (State (S j) [])
    else None.
Proof.
  set (input := "{"%char :: body ++ ["}"%char]).
  unfold matchAt. destruct outerBraces_pattern as [-> ->].
  assert (length input = S (S (length body))) as Hlen.
  { subst input. simpl. rewrite length_app. simpl. lia. }
  cbn [matcher replicate]. unfold charMatcher. cbn [endIndex captures].
  destruct j as [|j].
  - reflexivity.
  - cbn [Nat.eqb]. rewrite Hlen.
    destruct (Nat.eqb_spec j (length body)) as [->|Hne].
    + subst input. simpl.
      rewrite lookup_app_r, Nat.sub_diag by done. reflexivity.
    + destruct (input !! S j) as [ch|]; [|done]. by destruct (xorb _ _).
Qed.

Lemma outerBraces_search body :
  searchFrom ("{"%char :: body ++ ["}"%char]) outerBraces
    (S (S (length body))) 0 = Some (0, State 1 [])
  ∧ searchFrom ("{"%char :: body ++ ["}"%char]) outerBraces
      (S (length body)) 1
    = Some (S (length body), State (S (S (length body))) [])
  ∧ searchFrom ("{"%char :: body ++ ["}"%char]) outerBraces 0
      (S (S (length body))) = None.
Proof.
  split_and!.
  - apply searchFrom_Some. split_and!; [lia | lia | | intros; lia].
    apply (outerBraces_matchAt body 0).
  - apply searchFrom_Some. split_and!; [lia | lia | |].
    + rewrite outerBraces_matchAt. simpl. by rewrite Nat.eqb_refl.
    + intros j Hj1 Hj2. rewrite outerBraces_matchAt.
      destruct j as [|j]; [lia|]. simpl.
      by destruct (Nat.eqb_spec j (length body)); [lia|].
  - apply searchFrom_None. intros j Hj1 Hj2. rewrite outerBraces_matchAt.
    destruct j as [|j]; [lia|]. simpl.
    by destruct (Nat.eqb_spec j (length body)); [lia|].
Qed.

Lemma replaceAllFrom_S input re repl fuel next from :
  replaceAllFrom input re repl (S fuel) next from
  = if length input <? from then drop next input
    else
      match searchFrom input re (length input - from) from with
      | None => drop next input
      | Some (i, y) =>
          if next <=? i then
            substring input next i ++ repl
              ++ replaceAllFrom input re repl fuel (endIndex y)
                   (if endIndex y =? i then S (endIndex y) else endIndex y)
          else replaceAllFrom input re repl fuel next
                 (if endIndex y =? i then S (endIndex y) else endIndex y)
      end.
Proof. reflexivity. Qed.

(** Replacing the outer braces by nothing leaves what is between them. *)
Lemma outerBraces_replaceAll body :
  replaceAll ("{"%char :: body ++ ["}"%char]) outerBraces [] = body.
Proof.
  destruct (outerBraces_search body) as (H0 & H1 & H2).
  set (input := "{"%char :: body ++ ["}"%char]) in *.
  assert (length input = S (S (length body))) as Hlen.
  { subst input. simpl. rewrite length_app. simpl. lia. }
  assert (∀ a b, a ≤ b → (b <? a) = false) as Hlt.
  { intros a b Hab. by apply Nat.ltb_ge. }
  unfold replaceAll.
  rewrite Hlen, replaceAllFrom_S, Hlen, Hlt, Nat.sub_0_r, H0 by lia.
  cbn [endIndex Nat.eqb Nat.leb].
  rewrite replaceAllFrom_S, Hlen, Hlt by lia.
  replace (S (S (length body)) - 1) with (S (length body)) by lia.
  rewrite H1. cbn [endIndex Nat.leb].
  replace (S (S (length body)) =? S (length body)) with false
    by (symmetry; apply Nat.eqb_neq; lia).
  rewrite replaceAllFrom_S, Hlen, Hlt, Nat.sub_diag, H2 by lia.
  rewrite <- Hlen, drop_all, !app_nil_r, WordsFacts.substring_nil. simpl.
  unfold substring. subst input. simpl. rewrite Nat.sub_0_r, drop_0.
  by rewrite take_app_length.
Qed.

End OuterBraces.

(** *** White space around a text *)

Lemma trimStart_spec s :
  ∃ l, s = l ++ trimStart s ∧ Forall (λ c, isWhiteSpace c = true) l
       ∧ (∀ c, head (trimStart s) = Some c → isWhiteSpace c = false).
Proof.
  induction s as [|a s (l & Hs & Hl & Hh)]; simpl.
  - exists []. by split_and!.
  - destruct (isWhiteSpace a) eqn:Ea.
    + exists (a :: l). split_and!; [simpl; congruence | by constructor | done].
    + exists []. split_and!; [done | done |]. by intros c [= <-].
Qed.

Lemma trim_spec s :
  ∃ l r, s = l ++ trim s ++ r
         ∧ Forall (λ c, isWhiteSpace c = true) l
         ∧ Forall (λ c, isWhiteSpace c = true) r
         ∧ (∀ c, head (trim s) = Some c → isWhiteSpace c = false)
         ∧ (∀ c, last (trim s) = Some c → isWhiteSpace c = false).
Proof.
  unfold trim. destruct (trimStart_spec s) as (l & Hs & Hl & Hh).
  destruct (trimStart_spec (reverse (trimStart s))) as (r & Hr & Hrl & Hrh).
  set (t := trimStart (reverse (trimStart s))) in *.
  assert (trimStart s = reverse t ++ reverse r) as Ht.
  { rewrite <- reverse_app, <- Hr. by rewrite reverse_involutive. }
  exists l, (reverse r). split_and!.
  - by rewrite <- Ht.
  - done.
  - by apply Forall_reverse.
  - intros c Hc. apply Hh. rewrite Ht.
    destruct (reverse t); [done | exact Hc].
  - intros c Hc. apply Hrh. rewrite last_reverse in Hc. exact Hc.
Qed.

Section RenderingOptions.

Variable stringify : list (string * value) → string → string.
Variable normalize : string → string.

(** When the serializer gives a text in braces, [formatObjectForConfig]
    gives what is between the braces, trimmed. *)
Lemma formatObjectForConfig_braces (obj : list (string * value))
    (spaces : nat)
    (body : string) :
  stringify obj (str (replicate spaces " "%char)) = "{" +:+ body +:+ "}" →
  formatObjectForConfig stringify obj spaces = str (trim (chars body)).
Proof.
  intros Hs. unfold formatObjectForConfig. rewrite Hs, !chars_app.
  change (chars "{" ++ chars body ++ chars "}")
    with ("{"%char :: chars body ++ ["}"%char]).
  by rewrite outerBraces_replaceAll.
Qed.

(** X12: when the serializer gives the text of an object in braces,
    [formatObjectForConfig] gives what is between the two outer braces
    without the white space around it: the body is the result between
    two runs of white space, the result neither begins nor ends with
    white space, and braces inside the body stay. *)
Theorem formatObjectForConfig_body (obj : list (string * value))
    (spaces : nat)
    (body : string) :
  stringify obj (str (replicate spaces " "%char)) = "{" +:+ body +:+ "}" →
  formatObjectForConfig stringify obj spaces = str (trim (chars body))
  ∧ ∃ l r,
      chars body = l ++ chars (formatObjectForConfig stringify obj spaces) ++ r
      ∧ Forall (λ c, isWhiteSpace c = true) l
      ∧ Forall (λ c, isWhiteSpace c = true) r
      ∧ (∀ c, head (chars (formatObjectForConfig stringify obj spaces)) = Some c
              → isWhiteSpace c = false)
      ∧ (∀ c, last (chars (formatObjectForConfig stringify obj spaces)) = Some c
              → isWhiteSpace c = false).
Proof.
  intros Hs. rewrite (formatObjectForConfig_braces obj spaces body Hs).
  split; [done|]. rewrite chars_str. apply trim_spec.
Qed.

End RenderingOptions.

(** ** The patterns for migrated paths *)

Section MigratedParts.
Import RegExp Words WordsFacts Wrapped WrappedFacts Defined DefinedFacts Migrated.

Lemma new_names tt :
  source (literal (afterRegexp tt)) = afterRegexp tt
  ∧ ngroups (literal (afterRegexp tt)) = 2
  ∧ names (literal (afterRegexp tt)) = [("dir", 0); ("ext", 1)]
  ∧ parens (pattern (literal (afterRegexp tt))) = [0; 1]
  ∧ sets (pattern (literal (afterRegexp tt))) = [0; 1].
Proof. destruct tt; split_and!; vm_compute; reflexivity. Qed.

Lemma new_groups tt :
  GroupsIn (newCaptures tt) (pattern (literal (afterRegexp tt))).
Proof.
  destruct tt.
  - let p := eval vm_compute in (pattern (literal (afterRegexp TE2e))) in
    change (pattern (literal (afterRegexp TE2e))) with p.
    cbn [GroupsIn]. split_and!; try done.
    + simpl. intros w H. repeat (destruct H as (? & ? & -> & -> & H)). by subst.
    + simpl. intros w (? & ? & -> & (X & -> & _) & ? & ? & -> & -> & ? & ?
                       & -> & -> & Y & -> & _). by exists X, Y.
  - let p := eval vm_compute in (pattern (literal (afterRegexp TComponent))) in
    change (pattern (literal (afterRegexp TComponent))) with p.
    cbn [GroupsIn]. split_and!; try done.
    + simpl. intros w H. repeat (destruct H as (? & ? & -> & -> & H)). by subst.
    + simpl. intros w (? & ? & -> & (X & -> & _) & ? & ? & -> & -> & ? & ?
                       & -> & -> & Y & -> & _). by exists X, Y.
Qed.

(** The captures of a match of a pattern for migrated paths. *)
Lemma new_exec tt file i y :
  exec (chars file) (literal (afterRegexp tt)) = Some (i, y) →
  ∃ X Y, captures y = [Some (chars (newFolder tt)); Some [X; "c"; "y"; Y]%char].
Proof.
  intros Ex. destruct (new_names tt) as (_ & Hn & _ & Hp & Hs).
  pose proof (exec_sound _ _ (newCaptures tt) _ _ (new_groups tt) Ex)
    as [Hlen Hcaps].
  assert (∀ k, k ∈ [0; 1] → DefinedAt (captures y) k) as Hdef.
  { intros k Hk. eapply exec_defines; [| |exact Ex|]; rewrite ?Hp, ?Hs, ?Hn.
    - compute_done.
    - repeat constructor; lia.
    - done. }
  rewrite Hn in Hlen.
  destruct (captures y) as [|c0 [|c1 [|]]] eqn:Ec; simpl in Hlen; try done.
  destruct (Hdef 0) as [w0 [= ->]]; [compute_done|].
  destruct (Hdef 1) as [w1 [= ->]]; [compute_done|].
  pose proof (Hcaps 0 w0 eq_refl) as H0. pose proof (Hcaps 1 w1 eq_refl) as H1.
  simpl in H0, H1. subst w0. destruct H1 as (X & Y & ->). by exists X, Y.
Qed.

(** The end of the text: a code unit that stands for itself, one more
    code unit whatever it is, and the closing parenthesis. *)
Lemma close_plain st l Y src :
  InGroup st → plain l = true →
  match steps st [l; Y; ")"%char] with
  | Compiled st' =>
      if structural Y then finish src st' = SyntaxError
      else ∃ r, finish src st' = Compiled (mk src (Group 0 r) 1 [])
  | SyntaxError => structural Y = true
  | Unmodelled => False
  end.
Proof.
  destruct st as [m q [k alts terms] stack next names].
  intros (Hs & Hk & Hn & Hnames & Hm) Hl. simpl in *. subst.
  assert (step (PState Normal q (Frame (GCapture 0) alts terms)
                  [Frame GTop [] []] 1 []) l
          = Compiled (PState Normal QAtom
                        (Frame (GCapture 0) alts (Char l :: terms))
                        [Frame GTop [] []] 1 [])) as ->.
  { unfold step, stepNormal, plain in *. simpl in *.
    split_char l. all: simpl in *. all: try discriminate. all: reflexivity. }
  unfold structural. simpl. unfold step at 1. simpl.
  unfold stepNormal at 1.
  split_char Y. all: simpl.
  all: repeat (unfold step, stepNormal, stepClass, classAtom, finish, quantify,
                 addTerm, withMode, openCapture; simpl).
  all: eauto.
Qed.

Lemma create_plain a body l Y :
  inert a = true → Forall (λ c, inert c = true) body → plain l = true →
  let src := str ("("%char :: a :: body ++ [l; Y; ")"%char]) in
  if structural Y then create src = SyntaxError
  else ∃ r, create src = Compiled (mk src (Group 0 r) 1 []).
Proof.
  intros Ha Hbody Hl src. unfold create. subst src.
  rewrite chars_str. set (src := str _). simpl.
  change (step (withMode AfterOpen initial) a)
    with (if Ascii.eqb a "?"
          then Compiled (withMode AfterOpenQ (withMode AfterOpen initial))
          else stepNormal (openCapture None (withMode AfterOpen initial)) a).
  destruct (Ascii.eqb_spec a "?") as [->|_]; [done|].
  assert (InGroup (openCapture None (withMode AfterOpen initial))) as Hin0.
  { unfold InGroup. simpl. auto 10. }
  destruct (step_inert _ a Hin0 Ha) as (st1 & Hs1 & Hin1).
  change (step (openCapture None (withMode AfterOpen initial)) a)
    with (stepNormal (openCapture None (withMode AfterOpen initial)) a) in Hs1.
  rewrite Hs1, steps_app.
  destruct (steps_inert st1 body Hin1 Hbody) as (st2 & -> & Hin2).
  pose proof (close_plain st2 l Y src Hin2 Hl) as Hc.
  destruct (steps st2 _) as [st3| |]; [|by rewrite Hc|done].
  done.
Qed.

Lemma newFolder_inert tt :
  ∃ a d, chars (newFolder tt) = a :: d ∧ inert a = true
         ∧ Forall (λ c, inert c = true) (d ++ ["|"%char])
         ∧ (1 <? length (chars (newFolder tt))) = true.
Proof.
  destruct tt; eexists _, _; (split; [reflexivity|]);
    (split_and!; [reflexivity | | reflexivity]);
    repeat (constructor; [reflexivity|]); constructor.
Qed.

(** X7: what [formatMigrationFile] does with a pattern for migrated
    paths.  It throws [NonSpecFileError] when the pattern does not match.
    When it matches, the folder name and the text cy between two code
    units are captured; if the first of the two code units is inert, the
    call throws a SyntaxError when the second one is structural, and
    otherwise returns parts that all have a text, whose texts join to
    the path. *)
Theorem formatMigrationFile_migrated (tt : TestingType) (file : string) :
  match exec (chars file) (literal (afterRegexp tt)) with
  | None =>
      formatMigrationFile file (literal (afterRegexp tt))
      = Throw (NonSpecFileError file (afterRegexp tt))
  | Some (_, y) =>
      ∃ X Y,
        captures y = [Some (chars (newFolder tt)); Some [X; "c"; "y"; Y]%char]
        ∧ (inert X = true →
           if structural Y
           then formatMigrationFile file (literal (afterRegexp tt))
                = Throw (RegExpSyntaxError
                           (str (chars "(" ++ chars (newFolder tt)
                                   ++ chars "|" ++ [X; "c"; "y"; Y]%char
                                   ++ chars ")")))
           else ∃ parts texts,
                  formatMigrationFile file (literal (afterRegexp tt))
                  = Return parts
                  ∧ map text parts = map Some texts
                  ∧ String.concat "" texts = file)
  end.
Proof.
  unfold formatMigrationFile.
  destruct (new_names tt) as (Hsrc & _ & Hnames & _).
  destruct (exec (chars file) _) as [[i y]|] eqn:Ex; [|by rewrite Hsrc].
  destruct (new_exec tt file i y Ex) as (X & Y & Hcaps).
  exists X, Y. split; [done|]. intros HX.
  unfold groups. rewrite Hnames, Hcaps. simpl.
  destruct (newFolder_inert tt) as (a & d & Hdir & Ha & Hd & ->).
  pose proof (create_plain a (d ++ "|"%char :: [X; "c"%char]) "y" Y Ha) as Hc.
  cbv zeta in Hc.
  match goal with
  | |- context [create ?s] =>
      replace s with (str ("("%char :: a :: (d ++ "|"%char :: [X; "c"%char])
                             ++ ["y"; Y; ")"]%char))
  end.
  2:{ rewrite Hdir. simpl. do 2 f_equal. f_equal.
      rewrite <- !app_assoc. reflexivity. }
  assert (Forall (λ c, inert c = true) (d ++ "|"%char :: [X; "c"%char]))
    as Hbody.
  { change (d ++ "|"%char :: [X; "c"%char])
      with (d ++ ["|"%char] ++ [X; "c"%char]).
    rewrite app_assoc. apply Forall_app. split; [done|].
    repeat constructor; done. }
  destruct (structural Y).
  - rewrite Hc; [|done..]. do 2 f_equal. rewrite Hdir. simpl.
    do 2 f_equal. f_equal. rewrite <- !app_assoc. reflexivity.
  - destruct Hc as [r ->]; [done..|].
    destruct (split_concat (chars file) r
                (str ("("%char :: a :: (d ++ "|"%char :: [X; "c"%char])
                        ++ ["y"; Y; ")"]%char))) as (ts & -> & Hts).
    eexists _, (map str ts). split_and!; [reflexivity | |].
    + by rewrite <- !list_fmap_compose.
    + by rewrite concat_str, Hts, str_chars.
Qed.

End MigratedParts.

Section OtherFolders.
Import RegExp Words WordsFacts Wrapped Migrated.

Lemma substring_middle (s : list ascii) a b :
  a ≤ b → b ≤ length s → s = take a s ++ substring s a b ++ drop b s.
Proof.
  intros Hab Hb. rewrite (substring_drop s a b) by done.
  by rewrite take_drop.
Qed.

(** The text a match of one of the four patterns of the table begins
    with. *)
Lemma folder_prefix tt before w :
  Lang (pattern (literal (if before : bool then beforeRegexp tt
                          else afterRegexp tt))) w →
  ∃ rest, w = chars ("cypress/" +:+ (if before then legacyFolder tt
                                     else newFolder tt) +:+ "/") ++ rest.
Proof.
  destruct tt, before.
  all: match goal with
       | |- Lang (pattern ?re) _ → _ =>
           let p := eval vm_compute in (pattern re) in
           change (pattern re) with p
       end.
  all: cbn [Lang]; intros HL.
  all: repeat (destruct HL as (? & ? & -> & -> & HL)).
  all: destruct HL as (wd & w2 & -> & Hd & HL).
  all: repeat (destruct Hd as (? & ? & -> & -> & Hd)); subst.
  all: destruct HL as (? & w3 & -> & -> & _).
  all: by exists w3.
Qed.

Lemma exec_folder tt before file :
  (∀ pre post,
     chars file ≠ pre ++ chars ("cypress/" +:+ (if before : bool
                                                 then legacyFolder tt
                                                 else newFolder tt) +:+ "/")
                        ++ post) →
  exec (chars file) (literal (if before then beforeRegexp tt
                              else afterRegexp tt)) = None.
Proof.
  intros Hno. destruct (exec _ _) as [[j y]|] eqn:Ex; [exfalso | done].
  unfold exec in Ex.
  apply (searchFrom_sound _ _ (λ _ _, True)) in Ex
    as (Hj & [Hf Ht _ _] & HL); [| apply GroupsIn_True | simpl; lia].
  simpl in Hf. apply folder_prefix in HL as (rest & HL).
  apply (Hno (take j (chars file)) (rest ++ drop (endIndex y) (chars file))).
  rewrite (app_assoc _ rest), <- HL. by apply substring_middle.
Qed.

(** X5: a path outside the folder of the pattern.  A path without the
    text cypress/, the folder name of the pattern and a slash is no spec
    file for that pattern: [formatMigrationFile] throws
    [NonSpecFileError] with the path and the source of the pattern, for
    the legacy patterns and for the patterns of migrated paths. *)
Theorem formatMigrationFile_other_folder (tt : TestingType) (file : string) :
  ((∀ pre post,
      chars file ≠ pre ++ chars ("cypress/" +:+ legacyFolder tt +:+ "/") ++ post) →
   formatMigrationFile file (literal (beforeRegexp tt))
   = Throw (NonSpecFileError file (beforeRegexp tt)))
  ∧ ((∀ pre post,
        chars file ≠ pre ++ chars ("cypress/" +:+ newFolder tt +:+ "/") ++ post) →
     formatMigrationFile file (literal (afterRegexp tt))
     = Throw (NonSpecFileError file (afterRegexp tt))).
Proof.
  split; intros Hno; unfold formatMigrationFile.
  - rewrite (exec_folder tt true file Hno).
    by destruct (legacy_names tt) as (-> & _).
  - rewrite (exec_folder tt false file Hno).
    by destruct (new_names tt) as (-> & _).
Qed.

End OtherFolders.

Lemma reduceConfig_plain cfg :
  Forall (λ kv, kv.1 ∉ reservedKeys) cfg →
  e2e (reduceConfig cfg) = ∅ ∧ component (reduceConfig cfg) = ∅
  ∧ (cfg ≠ [] → global (reduceConfig cfg) ≠ ∅).
Proof.
  induction cfg as [|[key val] cfg IH] using rev_ind; [done|].
  intros [Hcfg Hlast]%Forall_app. rewrite Forall_singleton in Hlast.
  simpl in Hlast. destruct (IH Hcfg) as (He & Hc & _).
  rewrite reduceConfig_snoc.
  assert (reduceEntry (reduceConfig cfg) (key, val)
          = {| global := <[key := val]> (global (reduceConfig cfg));
               e2e := e2e (reduceConfig cfg);
               component := component (reduceConfig cfg) |}) as ->.
  { unfold reduceEntry. rewrite elem_of_reservedKeys in Hlast.
    repeat (case_bool_decide; [tauto|]). done. }
  simpl. split_and!; [done | done |]. intros _. apply insert_non_empty.
Qed.

Lemma reduceConfig_plain_ordered cfg :
  Forall (λ kv, kv.1 ∉ reservedKeys) cfg →
  Ordered.e2e (Ordered.reduceConfig cfg) = []
  ∧ Ordered.component (Ordered.reduceConfig cfg) = []
  ∧ (cfg ≠ [] → Ordered.global (Ordered.reduceConfig cfg) ≠ []).
Proof.
  intros Hplain. destruct (reduceConfig_plain cfg Hplain) as (He & Hc & Hg).
  destruct (OrderedFacts.reduceConfig_empty cfg) as (Hg0 & He0 & Hc0).
  split_and!; [by apply He0 | by apply Hc0 |].
  intros Hne H. by apply (Hg Hne), Hg0.
Qed.

Section RenderingPlain.

Variable stringify : list (string * value) → string → string.
Variable normalize : string → string.

(** X13: a configuration of plain options.  When the configuration is
    not empty and no key has a rule of its own, and the serializer gives
    the global bucket as a text in braces, the module text is the header,
    the opening of the call, the trimmed body of that text followed by a
    comma on a line of its own, and the closing; there is no block of a
    testing type. *)
Theorem createConfigString_plain_options (cfg : list (string * value))
    (body : string) :
  cfg ≠ [] → Forall (λ kv, kv.1 ∉ reservedKeys) cfg →
  stringify (Ordered.global (Ordered.reduceConfig cfg)) "  "
  = "{" +:+ body +:+ "}" →
  createConfigString stringify normalize cfg
  = "const { defineConfig } = require('cypress')" +:+ nl +:+ nl
      +:+ "module.exports = defineConfig({"
      +:+ nl +:+ str (trim (chars body)) +:+ "," +:+ nl +:+ "})".
Proof.
  intros Hne Hplain Hs.
  destruct (reduceConfig_plain_ordered cfg Hplain) as (He & Hc & Hg).
  unfold createConfigString, createCypressConfigJs. rewrite He, Hc.
  assert ((0 <? length (Ordered.global (Ordered.reduceConfig cfg))) = true)
    as ->.
  { apply Nat.ltb_lt. specialize (Hg Hne).
    destruct (Ordered.global (Ordered.reduceConfig cfg)); [done | simpl; lia]. }
  rewrite (formatObjectForConfig_braces stringify
             (Ordered.global (Ordered.reduceConfig cfg)) 2 body Hs).
  simpl.
  apply chars_inj. rewrite !chars_app, <- !app_assoc. reflexivity.
Qed.

End RenderingPlain.

Section Highlights.
Import RegExp Words WordsFacts Wrapped WrappedFacts Defined DefinedFacts Migrated.

Lemma str_inj a b : str a = str b → a = b.
Proof. intros H. by rewrite <- (chars_str a), <- (chars_str b), H. Qed.

Lemma includes_spec hl t :
  includes hl t = true ↔ ∃ v, t = Some v ∧ v ∈ hl.
Proof.
  unfold includes. destruct t as [v|].
  - rewrite existsb_exists. split.
    + intros (h & Hin & Hb). apply bool_decide_eq_true in Hb as ->.
      exists v. split; [done|]. by apply list_elem_of_In.
    + intros (v' & [= <-] & Hin). exists v. split; [by apply list_elem_of_In|].
      by apply bool_decide_eq_true.
  - split; [done|]. by intros (v & ? & _).
Qed.

(** X6: which parts are highlighted.  When [formatMigrationFile] returns
    for a legacy pattern, the pattern has matched with the folder name
    and a marker captured, and a part is highlighted exactly when its
    text is the folder name, or is the marker and the marker has more
    than one code unit. *)
Theorem formatMigrationFile_highlights (tt : TestingType) (file : string)
    (parts : list FilePart) :
  formatMigrationFile file (literal (beforeRegexp tt)) = Return parts →
  ∃ i y marker,
    exec (chars file) (literal (beforeRegexp tt)) = Some (i, y)
    ∧ captures y = [Some (chars (legacyFolder tt)); Some marker]
    ∧ ∀ p, p ∈ parts →
        (highlight p = true ↔
           text p = Some (legacyFolder tt)
           ∨ (text p = Some (str marker) ∧ 1 < length marker)).
Proof.
  unfold formatMigrationFile.
  destruct (legacy_names tt) as (_ & _ & Hnames & _).
  destruct (exec (chars file) _) as [[i y]|] eqn:Ex; [|done].
  destruct (legacy_exec tt file i y Ex) as (marker & Hcaps & _).
  unfold groups. rewrite Hnames, Hcaps. simpl.
  destruct (legacyFolder_inert tt) as (a & d & _ & _ & _ & Hlen). rewrite Hlen.
  destruct (create _) as [re| |]; [|done..].
  intros [= <-]. exists i, y, marker. split_and!; [done..|].
  intros p (t & -> & _)%list_elem_of_fmap. simpl.
  rewrite includes_spec. split.
  - intros (v & -> & Hv). simpl.
    apply elem_of_cons in Hv as [->|Hv]; [left; by rewrite str_chars|].
    destruct (1 <? length marker) eqn:El; [|by apply elem_of_nil in Hv].
    apply list_elem_of_singleton in Hv as ->. right.
    split; [done|]. by apply Nat.ltb_lt.
  - intros [Ht|[Ht Hm]].
    + destruct t as [v|]; [|done]. injection Ht as Ht.
      exists v. split; [done|].
      assert (v = chars (legacyFolder tt)) as ->.
      { apply str_inj. by rewrite str_chars. }
      left.
    + destruct t as [v|]; [|done]. injection Ht as Ht%str_inj. subst v.
      exists marker. split; [done|].
      apply Nat.ltb_lt in Hm as ->. right. left.
Qed.

Lemma formatMigrationFile_highlights_witness :
  ∃ i y marker,
    exec (chars "cypress/integration/foo.spec.js") (literal (beforeRegexp TE2e))
    = Some (i, y)
    ∧ captures y = [Some (chars (legacyFolder TE2e)); Some marker]
    ∧ ∀ p, p ∈ [ {| text := Some "cypress/"; highlight := false |};
                 {| text := Some "integration"; highlight := true |};
                 {| text := Some "/foo"; highlight := false |};
                 {| text := Some ".spec."; highlight := true |};
                 {| text := Some "js"; highlight := false |} ] →
        (highlight p = true ↔
           text p = Some (legacyFolder TE2e)
           ∨ (text p = Some (str marker) ∧ 1 < length marker)).
Proof.
  apply (formatMigrationFile_highlights TE2e "cypress/integration/foo.spec.js").
  vm_compute. reflexivity.
Defined.

Lemma formatMigrationFile_migrated_witness :
  ∃ parts texts,
    formatMigrationFile "cypress/e2e/foo.cy.js" (literal (afterRegexp TE2e))
    = Return parts
    ∧ map text parts = map Some texts
    ∧ String.concat "" texts = "cypress/e2e/foo.cy.js".
Proof.
  pose proof (formatMigrationFile_migrated TE2e "cypress/e2e/foo.cy.js") as H.
  let r := eval vm_compute in
    (exec (chars "cypress/e2e/foo.cy.js") (literal (afterRegexp TE2e))) in
  assert (exec (chars "cypress/e2e/foo.cy.js") (literal (afterRegexp TE2e)) = r)
    as E by (vm_compute; reflexivity).
  rewrite E in H. destruct H as (X & Y & [= <- <-] & H). by apply H.
Defined.

End Highlights.

(** ** The parts of a usual spec file *)

Section UsualParts.
Import RegExp Words WordsFacts Wrapped WrappedFacts Fuel FuelFacts Shifted ShiftedFacts Shapes.

Lemma legacy_pattern tt :
  pattern (literal (beforeRegexp tt)) = legacyPattern (chars (legacyFolder tt)).
Proof. destruct tt; vm_compute; reflexivity. Qed.

Lemma charMatcher_hit input p i caps ch (k : cont) :
  input !! i = Some ch → p ch = true →
  charMatcher input p (State i caps) k = k (State (S i) caps).
Proof. intros Hi Hp. unfold charMatcher. simpl. by rewrite Hi, Hp. Qed.

(** A text as a term matches where the input has the text. *)
Lemma matcher_lit input l r pre rest caps (k : cont) :
  input = pre ++ l ++ rest →
  matcher input (lit l r) (State (length pre) caps) k
  = matcher input r (State (length pre + length l) caps) k.
Proof.
  revert pre. induction l as [|a l IH]; intros pre Hin; simpl.
  - by rewrite Nat.add_0_r.
  - rewrite (charMatcher_hit input _ _ _ a).
    + specialize (IH (pre ++ [a])). rewrite length_app in IH. simpl in IH.
      rewrite Nat.add_1_r in IH.
      replace (length pre + S (length l)) with (S (length pre) + length l) by lia.
      apply IH. by rewrite <- app_assoc.
    + rewrite Hin. rewrite <- (Nat.add_0_r (length pre)). apply lookup_middle.
    + apply Ascii.eqb_refl.
Qed.

Lemma matcher_seqOf input l pre rest caps (k : cont) :
  input = pre ++ l ++ rest →
  matcher input (seqOf (map Char l)) (State (length pre) caps) k
  = k (State (length pre + length l) caps).
Proof.
  revert pre. induction l as [|a l IH]; intros pre Hin.
  - simpl. by rewrite Nat.add_0_r.
  - assert (input !! length pre = Some a) as Ha.
    { rewrite Hin. rewrite <- (Nat.add_0_r (length pre)). apply lookup_middle. }
    destruct l as [|b l].
    + simpl. rewrite (charMatcher_hit input _ _ _ a _ Ha (Ascii.eqb_refl a)).
      by rewrite Nat.add_1_r.
    + change (seqOf (map Char (a :: b :: l)))
        with (Seq (Char a) (seqOf (map Char (b :: l)))).
      cbn [matcher].
      rewrite (charMatcher_hit input _ _ _ a _ Ha (Ascii.eqb_refl a)).
      specialize (IH (pre ++ [a])). rewrite length_app in IH.
      change (length [a]) with 1 in IH.
      rewrite Nat.add_1_r in IH. rewrite IH by (by rewrite <- app_assoc).
      f_equal. f_equal. simpl. lia.
Qed.

(** The lazy star over any code unit goes on to the first index at which
    the continuation succeeds. *)
Lemma lazy_any input (k : cont) u fuel x z :
  (∀ i c, u !! i = Some c →
          input !! (endIndex x + i) = Some c ∧ isLineTerminator c = false) →
  (∀ i, i < length u → k (State (endIndex x + i) (captures x)) = None) →
  k (State (endIndex x + length u) (captures x)) = Some z →
  length u < fuel →
  repeatMatcher (matcher input AnyChar) [] false fuel 0 None x k = Some z.
Proof.
  revert fuel x. induction u as [|a u IH]; intros fuel x Hu Hk Hz Hf;
    (destruct fuel as [|fuel]; [simpl in Hf; lia|]); destruct x as [ex caps];
    simpl in *.
  - rewrite Nat.add_0_r in Hz. by rewrite Hz.
  - pose proof (Hk 0 ltac:(lia)) as Hk0. rewrite Nat.add_0_r in Hk0.
    rewrite Hk0.
    destruct (Hu 0 a eq_refl) as [Ha HLa]. rewrite Nat.add_0_r in Ha.
    rewrite (charMatcher_hit input _ _ _ a _ Ha) by (by rewrite HLa).
    cbn [endIndex].
    replace (S ex =? ex) with false by (symmetry; apply Nat.eqb_neq; lia).
    apply (IH fuel (State (S ex) caps)); simpl.
    + intros i c Hi. specialize (Hu (S i) c Hi).
      by replace (S (ex + i)) with (ex + S i) by lia.
    + intros i Hi. specialize (Hk (S i) ltac:(lia)).
      by replace (S (ex + i)) with (ex + S i) by lia.
    + by replace (S (ex + length u)) with (ex + S (length u)) by lia.
    + lia.
Qed.

(** The folder part of a path below a legacy folder. *)
Lemma legacy_base tt name :
  "."%char ∉ name → (∀ a b, name ≠ a ++ chars "pec" ++ b) →
  ("."%char ∉ chars "cypress/" ++ chars (legacyFolder tt) ++ "/"%char :: name)
  ∧ (∀ a b, chars "cypress/" ++ chars (legacyFolder tt) ++ "/"%char :: name
            ≠ a ++ chars "pec" ++ b).
Proof.
  intros Hdot Hpec. split.
  - rewrite (app_assoc _ _ ("/"%char :: name)), elem_of_app, elem_of_cons.
    intros [H|[H|H]]; [|done..]. revert H. destruct tt; compute_done.
  - intros a b Heq. destruct tt.
    + do 20 (destruct a as [|? a]; [discriminate|]; injection Heq as _ Heq).
      by apply (Hpec a b).
    + do 18 (destruct a as [|? a]; [discriminate|]; injection Heq as _ Heq).
      by apply (Hpec a b).
Qed.

(** The folder name occurs once in a path below a legacy folder whose
    rest does not have it. *)
Lemma folder_once tt tail A B :
  (∀ a b, tail ≠ a ++ chars (legacyFolder tt) ++ b) →
  chars "cypress/" ++ chars (legacyFolder tt) ++ "/"%char :: tail
  = A ++ chars (legacyFolder tt) ++ B →
  length A = 8.
Proof.
  intros Hno Heq. destruct tt.
  - do 8 (destruct A as [|? A]; [discriminate|]; injection Heq as _ Heq).
    destruct A as [|? A]; [done|]. injection Heq as _ Heq. exfalso.
    do 11 (destruct A as [|? A]; [discriminate|]; injection Heq as _ Heq).
    by apply (Hno A B).
  - do 8 (destruct A as [|? A]; [discriminate|]; injection Heq as _ Heq).
    destruct A as [|? A]; [done|]. injection Heq as _ Heq. exfalso.
    do 9 (destruct A as [|? A]; [discriminate|]; injection Heq as _ Heq).
    by apply (Hno A B).
Qed.

Lemma matcher_Seq input r1 r2 x (c : cont) :
  matcher input (Seq r1 r2) x c
  = matcher input r1 x (λ y, matcher input r2 y c).
Proof. reflexivity. Qed.

Lemma matcher_Group input i r x (c : cont) :
  matcher input (Group i r) x c
  = matcher input r x (λ y,
      c (State (endIndex y)
           (<[i := Some (substring input (endIndex x) (endIndex y))]>
              (captures y)))).
Proof. reflexivity. Qed.

Lemma matcher_lazy_any input x (c : cont) :
  matcher input (Quant false 0 None AnyChar) x c
  = repeatMatcher (matcher input AnyChar) [] false
      (S (length input - endIndex x)) 0 None x c.
Proof. reflexivity. Qed.

Lemma usual_marker d c :
  d ∈ ["."; "_"; "-"]%char → c ∈ ["s"; "S"]%char →
  markerWord (usualMarker d c) ∧ c ≠ "p"%char.
Proof.
  intros Hd Hc. split.
  - right. exists [d], c, "."%char. split_and!; [done | | | done].
    + right. by exists d.
    + rewrite !elem_of_cons, elem_of_nil in Hc. rewrite !elem_of_cons.
      destruct Hc as [->|[->|[]]]; tauto.
  - rewrite !elem_of_cons, elem_of_nil in Hc. intros ->.
    destruct Hc as [?|[?|[]]]; discriminate.
Qed.

(** A legacy pattern on the path of a usual spec file: the match is the
    path up to the extension, the folder name and the marker are
    captured. *)
Lemma legacy_matchAt tt name d c post :
  d ∈ ["."; "_"; "-"]%char → c ∈ ["s"; "S"]%char →
  Forall (λ ch, isLineTerminator ch = false) name →
  "."%char ∉ name → (∀ a b, name ≠ a ++ chars "pec" ++ b) →
  scriptAhead post →
  matchAt (chars "cypress/" ++ chars (legacyFolder tt) ++ "/"%char :: name
             ++ usualMarker d c ++ post)
    (literal (beforeRegexp tt)) 0
  = Some (State (8 + length (chars (legacyFolder tt)) + 1 + length name + 6)
            [Some (chars (legacyFolder tt)); Some (usualMarker d c)]).
Proof.
  intros Hd Hc Hname Hdot Hpec Hpost.
  destruct (usual_marker d c Hd Hc) as [Hm Hcp].
  destruct (legacy_base tt name Hdot Hpec) as [Hdot' Hpec'].
  set (folder := chars (legacyFolder tt)) in *.
  set (input := chars "cypress/" ++ folder ++ "/"%char :: name
                  ++ usualMarker d c ++ post).
  set (base := chars "cypress/" ++ folder ++ "/"%char :: name) in *.
  assert (input = base ++ usualMarker d c ++ post) as Hin.
  { subst input base. by rewrite <- !app_assoc. }
  assert (length base = 8 + length folder + 1 + length name) as Hbase.
  { subst base. rewrite !length_app. simpl. lia. }
  assert (length (usualMarker d c ++ post) = 6 + length post) as Hmlen.
  { done. }
  assert (length (chars "cypress/") = 8) as H8 by done.
  unfold matchAt. rewrite legacy_pattern.
  destruct (legacy_names tt) as (_ & -> & _). fold folder.
  unfold legacyPattern.
  change (State 0 (replicate 2 None))
    with (State (length (@nil ascii)) [None; None]).
  rewrite (matcher_lit input (chars "cypress/") _ []
             (folder ++ "/"%char :: name ++ usualMarker d c ++ post))
    by reflexivity.
  rewrite matcher_Seq, matcher_Group.
  change (length [] + length (chars "cypress/")) with (length (chars "cypress/")).
  rewrite (matcher_seqOf input folder (chars "cypress/")
             ("/"%char :: name ++ usualMarker d c ++ post)) by reflexivity.
  cbn [endIndex captures].
  assert (substring input (length (chars "cypress/"))
            (length (chars "cypress/") + length folder) = folder) as ->.
  { subst input. unfold substring. rewrite drop_app_length.
    replace (length (chars "cypress/") + length folder
             - length (chars "cypress/")) with (length folder) by lia.
    by rewrite take_app_length. }
  rewrite matcher_Seq. cbn [matcher].
  rewrite (charMatcher_hit input _ (length (chars "cypress/") + length folder)
             _ "/"%char).
  2:{ subst input. rewrite lookup_middle.
      rewrite <- (Nat.add_0_r (length folder)). by rewrite lookup_middle. }
  2:{ reflexivity. }
  change (repeatMatcher _ _ _ _ _ _ ?x ?k)
    with (repeatMatcher (matcher input AnyChar) [] false
            (S (0 + (length input
                     - S (length (chars "cypress/") + length folder))))
            0 None x
            (λ y, matcher input (Seq (Group 1 markerAlt) scriptLook) y Some)).
  apply (lazy_any input _ name).
  - cbn [endIndex]. intros i ch Hi. split.
    + subst input. rewrite <- Hi.
      replace (S (length (chars "cypress/") + length folder) + i)
        with (length (chars "cypress/") + (length folder + (1 + i))) by lia.
      rewrite !lookup_middle. simpl.
      by rewrite lookup_app_l by (by apply lookup_lt_Some in Hi).
    + by apply (Forall_lookup_1 _ _ _ _ Hname Hi).
  - cbn [endIndex captures]. intros i Hi.
    destruct (matcher input _ _ Some) as [z|] eqn:Ez; [exfalso | done].
    apply marker_look_sound in Ez as (w & post' & Hdrop & Hw & Hpost' & _).
    2:{ cbn [endIndex]. rewrite Hin, length_app. lia. }
    cbn [endIndex] in Hdrop.
    assert (markerIn (base ++ d :: c :: chars "pec." ++ post)
              (take (S (length (chars "cypress/") + length folder) + i) input)
              w post') as Hmark.
    { split_and!; [|done..]. rewrite <- Hdrop, take_drop. by rewrite Hin. }
    apply marker_after_base in Hmark; [|done..].
    rewrite length_take, Hin, length_app in Hmark. lia.
  - cbn [endIndex captures].
    replace (S (length (chars "cypress/") + length folder) + length name)
      with (length base) by lia.
    rewrite (marker_at 1 input base (usualMarker d c) post) by done.
    do 2 f_equal. change (length (usualMarker d c)) with 6. lia.
  - rewrite Hin, length_app. cbn [endIndex]. lia.
Qed.

(** *** The splitting pattern of a usual spec file *)

Lemma usual_split_pattern tt d c :
  d ∈ ["."; "_"; "-"]%char → c ∈ ["s"; "S"]%char →
  create (str (chars "(" ++ join (chars "|")
                 [chars (legacyFolder tt); usualMarker d c] ++ chars ")"))
  = Compiled
      (mk (str (chars "(" ++ join (chars "|")
                  [chars (legacyFolder tt); usualMarker d c] ++ chars ")"))
         (Group 0 (splitAlt (chars (legacyFolder tt)) d c)) 1 []).
Proof.
  intros Hd Hc. rewrite !elem_of_cons, elem_of_nil in Hd.
  rewrite !elem_of_cons, elem_of_nil in Hc.
  destruct tt; destruct Hd as [->|[->|[->|[]]]]; destruct Hc as [->|[->|[]]];
    vm_compute; reflexivity.
Qed.

Lemma Lang_seqOf l w : Lang (seqOf (map Char l)) w → w = l.
Proof.
  revert w. induction l as [|a l IH]; intros w; [done|].
  destruct l as [|b l]; [done|].
  change (seqOf (map Char (a :: b :: l)))
    with (Seq (Char a) (seqOf (map Char (b :: l)))).
  cbn [Lang]. intros (w1 & w2 & -> & -> & H). by rewrite (IH _ H).
Qed.

(** Where the splitting pattern matches, the text goes on with the
    folder name, or with one code unit and the text spec. *)
Lemma split_matchAt_inv src folder d c input q y :
  q ≤ length input →
  matchAt input (mk src (Group 0 (splitAlt folder d c)) 1 []) q = Some y →
  (∃ B, drop q input = folder ++ B)
  ∨ (∃ x B, drop q input = x :: c :: chars "pec" ++ B).
Proof.
  intros Hq Hm.
  apply (matchAt_sound input _ (λ _ _, True)) in Hm as [[Hf Ht _ _] Hw];
    [| apply GroupsIn_True | done].
  cbn [endIndex pattern] in *.
  rewrite <- (substring_drop input q (endIndex y)) by done.
  destruct Hw as [Hw|Hw].
  - left. apply Lang_seqOf in Hw as ->. by eexists.
  - right. destruct Hw as (w1 & ? & -> & Hx & ? & ? & -> & -> & ? & ? & -> & ->
                           & ? & ? & -> & -> & ? & ? & -> & -> & X & -> & _).
    assert (∃ x, w1 = [x]) as (x & ->).
    { destruct (Ascii.eqb d "."); [destruct Hx as (x & -> & _)|]; by eexists. }
    exists x. by eexists.
Qed.

(** The text pec occurs once in the rest of the path of a usual spec
    file. *)
Lemma pec_once base d c post A B :
  (∀ a b, base ≠ a ++ chars "pec" ++ b) →
  (∀ a b, post ≠ a ++ chars "pec" ++ b) →
  d ∈ ["."; "_"; "-"]%char → c ≠ "p"%char →
  base ++ usualMarker d c ++ post = A ++ chars "pec" ++ B →
  length A = length base + 2.
Proof.
  intros Hbase Hpost Hd Hc Heq.
  pose proof (pec_after_base base d c _ A B Hbase Hd Hc Heq) as Hge.
  apply app_eq_inv in Heq as [(k & Hk & _)|(k & -> & Heq)].
  { apply (f_equal length) in Hk. rewrite length_app in Hk. lia. }
  rewrite length_app in Hge |- *.
  do 2 (destruct k as [|? k]; [simpl in Hge; lia|]).
  destruct k as [|? k]; [done|]. exfalso.
  do 3 (destruct k as [|? k]; [discriminate|]).
  injection Heq as _ _ _ _ _ _ Heq. by apply (Hpost k B).
Qed.

(** *** Splitting step by step *)

Lemma splitFrom_next input re fuel p q q1 y :
  q ≤ q1 → q1 < length input →
  (∀ j, q ≤ j → j < q1 → matchAt input re j = None) →
  matchAt input re q1 = Some y →
  q1 ≤ endIndex y → endIndex y ≤ length input → endIndex y ≠ p →
  splitRounds input p q < fuel →
  splitFrom input re fuel p q
  = Some (substring input p q1) :: captures y
      ++ splitFrom input re (S (splitRounds input (endIndex y) (endIndex y)))
           (endIndex y) (endIndex y).
Proof.
  intros Hq Hq1 Hnone Hy Hge Hle Hne.
  set (rest := splitFrom input re (S _) _ _). unfold splitRounds.
  remember (q1 - q) as n eqn:Hn. revert q fuel Hq Hnone Hn.
  induction n as [|n IH]; intros q fuel Hq Hnone Hn Hf;
    (destruct fuel as [|fuel]; [lia|]); cbn [splitFrom].
  - assert (q = q1) as -> by lia.
    replace (length input <=? q1) with false by (symmetry; apply Nat.leb_gt; lia).
    rewrite Hy, Nat.min_l by done.
    replace (endIndex y =? p) with false by (symmetry; by apply Nat.eqb_neq).
    do 2 f_equal. subst rest. apply splitFrom_fuel; unfold splitRounds;
      rewrite Nat.eqb_refl; [|lia].
    destruct (p =? q1) eqn:E; [apply Nat.eqb_eq in E|]; lia.
  - replace (length input <=? q) with false by (symmetry; apply Nat.leb_gt; lia).
    rewrite Hnone by lia. apply IH; [lia | | lia |].
    + intros j Hj1 Hj2. apply Hnone; lia.
    + destruct (p =? q) eqn:E1, (p =? S q) eqn:E2; lia.
Qed.

Lemma splitFrom_last input re fuel p q :
  (∀ j, q ≤ j → j < length input → matchAt input re j = None) →
  splitRounds input p q < fuel →
  splitFrom input re fuel p q = [Some (drop p input)].
Proof.
  unfold splitRounds. revert q.
  induction fuel as [|fuel IH]; intros q Hnone Hf; [lia|]. cbn [splitFrom].
  rewrite substring_to_end.
  destruct (length input <=? q) eqn:E; [done|]. apply Nat.leb_gt in E.
  rewrite Hnone by lia. apply IH.
  - intros j Hj1 Hj2. apply Hnone; lia.
  - destruct (p =? q) eqn:E1, (p =? S q) eqn:E2; lia.
Qed.

End UsualParts.

Section UsualSplit.
Import RegExp Words WordsFacts Wrapped WrappedFacts Fuel FuelFacts Shifted ShiftedFacts Shapes.

Variable tt : TestingType.
Variables name post : list ascii.
Variables d c : ascii.

Hypothesis Hd : d ∈ ["."; "_"; "-"]%char.
Hypothesis Hc : c ∈ ["s"; "S"]%char.
Hypothesis Hdot : "."%char ∉ name.
Hypothesis Hpec : ∀ a b, name ≠ a ++ chars "pec" ++ b.
Hypothesis Hpost : ∀ a b, post ≠ a ++ chars "pec" ++ b.
Hypothesis Hfolder :
  ∀ a b, name ++ usualMarker d c ++ post ≠ a ++ chars (legacyFolder tt) ++ b.

Local Abbreviation folder := (chars (legacyFolder tt)).
Local Abbreviation base := (chars "cypress/" ++ folder ++ "/"%char :: name).
Local Abbreviation path :=
  (chars "cypress/" ++ folder ++ "/"%char :: name ++ usualMarker d c ++ post).
Local Abbreviation splitter :=
  (mk (str (chars "(" ++ join (chars "|") [folder; usualMarker d c]
              ++ chars ")"))
      (Group 0 (splitAlt folder d c)) 1 []).

Lemma usual_path : path = base ++ usualMarker d c ++ post.
Proof. by rewrite <- !app_assoc. Qed.

Lemma usual_path_length :
  length path = 8 + length folder + 1 + length name + 6 + length post
  ∧ length base = 8 + length folder + 1 + length name.
Proof. rewrite !length_app. simpl. rewrite !length_app. simpl. lia. Qed.

Lemma usual_split_none q :
  q ≤ length path → q ≠ 8 → q ≠ length base →
  matchAt path splitter q = None.
Proof.
  intros Hq H8 Hb.
  destruct (matchAt path splitter q) as [y|] eqn:E; [exfalso | done].
  apply split_matchAt_inv in E as [(B & HB)|(x & B & HB)]; [| |done].
  - apply H8. rewrite <- (length_take_le path q) by done.
    apply (folder_once tt (name ++ usualMarker d c ++ post) _ B Hfolder).
    by rewrite <- HB, take_drop.
  - apply Hb. destruct (usual_marker d c Hd Hc) as [_ Hcp].
    destruct (legacy_base tt name Hdot Hpec) as [_ Hpec'].
    assert (length (take q path ++ [x; c]) = length base + 2) as Hlen.
    { apply (pec_once base d c post _ B Hpec' Hpost Hd Hcp).
      rewrite <- usual_path. rewrite <- (take_drop q path) at 1.
      rewrite HB, <- app_assoc. reflexivity. }
    rewrite length_app, length_take_le in Hlen by done.
    change (length [x; c]) with 2 in Hlen. lia.
Qed.

Lemma usual_split_folder :
  matchAt path splitter 8
  = Some (State (8 + length folder) [Some folder]).
Proof.
  unfold matchAt. cbn [pattern ngroups replicate]. rewrite matcher_Group.
  unfold splitAlt. cbn [matcher].
  change 8 with (length (chars "cypress/")) at 1 2.
  rewrite (matcher_seqOf path folder (chars "cypress/")
             ("/"%char :: name ++ usualMarker d c ++ post)) by reflexivity.
  cbn [endIndex captures]. do 2 f_equal. cbn [length chars].
  unfold substring. rewrite drop_app_length.
  replace (length (chars "cypress/") + length folder
           - length (chars "cypress/")) with (length folder) by lia.
  by rewrite take_app_length.
Qed.

Lemma usual_split_marker :
  matchAt path splitter (length base)
  = Some (State (length base + 6) [Some (usualMarker d c)]).
Proof.
  rewrite usual_path.
  pose proof (matchAt_shift base (usualMarker d c ++ post) splitter 0) as Hs.
  cbn [Nat.add] in Hs. rewrite Hs; clear Hs.
  2:{ destruct tt; destruct (Ascii.eqb d ".") eqn:E; cbn; rewrite E; done. }
  assert (matchAt (usualMarker d c ++ post) splitter 0
          = Some (State 6 [Some (usualMarker d c)])) as ->.
  { pose proof Hd as Hd'. pose proof Hc as Hc'.
    rewrite !elem_of_cons, elem_of_nil in Hd'.
    rewrite !elem_of_cons, elem_of_nil in Hc'.
    destruct tt; destruct Hd' as [->|[->|[->|[]]]];
      destruct Hc' as [->|[->|[]]]; reflexivity. }
  cbn [fmap option_fmap option_map]. unfold shift. cbn [endIndex captures].
  by rewrite Nat.add_comm.
Qed.

Lemma usual_split :
  split path splitter
  = [Some (chars "cypress/"); Some folder; Some ("/"%char :: name);
     Some (usualMarker d c); Some post].
Proof.
  destruct usual_path_length as [Hlen Hbase].
  assert (split path splitter
          = splitFrom path splitter (2 * length path + 2) 0 0) as -> by done.
  rewrite (splitFrom_next path splitter _ 0 0 8
             (State (8 + length folder) [Some folder])).
  2-9: cbn [endIndex]; unfold splitRounds; try lia.
  2:{ intros j _ Hj. apply usual_split_none; lia. }
  2:{ apply usual_split_folder. }
  cbn [endIndex captures].
  rewrite (splitFrom_next path splitter _ _ _ (length base)
             (State (length base + 6) [Some (usualMarker d c)])).
  2-9: cbn [endIndex]; unfold splitRounds; try lia.
  2:{ intros j Hj1 Hj2. apply usual_split_none; [lia | | lia].
      destruct tt; simpl in Hj1; lia. }
  2:{ apply usual_split_marker. }
  2:{ destruct tt; simpl; lia. }
  cbn [endIndex captures].
  rewrite splitFrom_last.
  2:{ intros j Hj1 Hj2. apply usual_split_none; lia. }
  2:{ unfold splitRounds. rewrite Nat.eqb_refl. lia. }
  assert (substring path 0 8 = chars "cypress/") as -> by done.
  assert (substring path (8 + length folder) (length base)
          = "/"%char :: name) as ->.
  { unfold substring. change 8 with (length (chars "cypress/")).
    rewrite <- drop_drop, drop_app_length, drop_app_length.
    replace (length base - (length (chars "cypress/") + length folder))
      with (length ("/"%char :: name)) by (rewrite Hbase; simpl; lia).
    apply (take_app_length ("/"%char :: name)). }
  assert (drop (length base + 6) path = post) as ->.
  { rewrite usual_path, <- drop_drop, drop_app_length.
    apply (drop_app_length (usualMarker d c)). }
  reflexivity.
Qed.

End UsualSplit.

Section UsualSpecFiles.
Import RegExp Wrapped WrappedFacts Shapes FuelFacts ShiftedFacts.

(** X8: the parts of the path of a usual spec file.  For a file name
    without a line terminator, a dot or the text pec, a marker made of a
    separator, the text spec with a small or a capital s and a dot, and
    a script extension without the text pec, where the folder name does
    not occur again after the folder, [formatMigrationFile] with the
    legacy pattern returns five parts: the text cypress/, the folder
    name highlighted, the slash and the file name, the marker
    highlighted, and the extension. *)
Theorem formatMigrationFile_usual_spec (tt : TestingType)
    (name post : list ascii) (d c : ascii) :
  d ∈ ["."; "_"; "-"]%char → c ∈ ["s"; "S"]%char →
  Forall (λ ch, isLineTerminator ch = false) name →
  "."%char ∉ name →
  (∀ a b, name ≠ a ++ chars "pec" ++ b) →
  scriptAhead post →
  (∀ a b, post ≠ a ++ chars "pec" ++ b) →
  (∀ a b, name ++ usualMarker d c ++ post
          ≠ a ++ chars (legacyFolder tt) ++ b) →
  formatMigrationFile
    (str (chars "cypress/" ++ chars (legacyFolder tt) ++ "/"%char :: name
            ++ usualMarker d c ++ post))
    (literal (beforeRegexp tt))
  = Return [ {| text := Some "cypress/"; highlight := false |};
             {| text := Some (legacyFolder tt); highlight := true |};
             {| text := Some (str ("/"%char :: name)); highlight := false |};
             {| text := Some (str (usualMarker d c)); highlight := true |};
             {| text := Some (str post); highlight := false |} ].
Proof.
  intros Hd Hc Hname Hdot Hpec Hahead Hpost Hfolder.
  unfold formatMigrationFile. rewrite chars_str.
  set (path := chars "cypress/" ++ chars (legacyFolder tt) ++ "/"%char :: name
                 ++ usualMarker d c ++ post).
  assert (exec path (literal (beforeRegexp tt))
          = Some (0, State (8 + length (chars (legacyFolder tt)) + 1
                            + length name + 6)
                       [Some (chars (legacyFolder tt));
                        Some (usualMarker d c)])) as ->.
  { apply searchFrom_Some. split_and!; [lia | lia | | intros; lia].
    by apply legacy_matchAt. }
  unfold groups. destruct (legacy_names tt) as (_ & _ & -> & _).
  cbn [map snd captures lookup list_lookup default id longValues].
  assert ((1 <? length (chars (legacyFolder tt))) = true) as ->
    by (by destruct tt).
  change (1 <? length (usualMarker d c)) with true. cbn iota.
  rewrite (usual_split_pattern tt d c Hd Hc). subst path. cbn iota.
  rewrite (usual_split tt name post d c Hd Hc Hdot Hpec Hpost Hfolder).
  cbn [map fmap option_fmap option_map includes existsb].
  rewrite !(bool_decide_eq_true_2 (_ = _) eq_refl).
  rewrite !orb_true_r. cbn [orb].
  assert (d ≠ "/"%char) as Hd'.
  { intros ->. revert Hd. compute_done. }
  rewrite !bool_decide_eq_false_2.
  - f_equal. repeat f_equal. apply str_chars.
  - intros Heq. apply (Hpost [d; c] ["."%char]). by rewrite <- Heq.
  - intros Heq. apply (Hfolder (name ++ usualMarker d c) []).
    by rewrite <- Heq, app_nil_r, <- app_assoc.
  - intros [= -> _].  done.
  - destruct tt; discriminate.
  - discriminate.
  - destruct tt; discriminate.
Qed.

Lemma formatMigrationFile_usual_spec_witness :
  formatMigrationFile "cypress/integration/login/form_spec.tsx"
    (literal (beforeRegexp TE2e))
  = Return [ {| text := Some "cypress/"; highlight := false |};
             {| text := Some "integration"; highlight := true |};
             {| text := Some "/login/form"; highlight := false |};
             {| text := Some "_spec."; highlight := true |};
             {| text := Some "tsx"; highlight := false |} ].
Proof.
  apply (formatMigrationFile_usual_spec TE2e (chars "login/form") (chars "tsx")
           "_" "s").
  - compute_done.
  - compute_done.
  - repeat constructor.
  - compute_done.
  - apply indexOf_None. reflexivity.
  - eexists _, _. split; [reflexivity | compute_done].
  - apply indexOf_None. reflexivity.
  - apply indexOf_None. reflexivity.
Defined.

End UsualSpecFiles.

(** ** Instances *)

Section Instances.
Import RegExp.


Lemma renameSpecPath_marker_again_witness :
  renameSpecPath (renameSpecPath "a.spec.js") ≠ renameSpecPath "a.spec.js".
Proof.
  apply (renameSpecPath_marker_again "a.spec.js" (chars "a") (chars ".spec.")
           (chars "js")).
  split_and!.
  - reflexivity.
  - right. exists ["."%char], "s"%char, "."%char.
    split_and!; [reflexivity | right; exists "."%char; split; [done|compute_done]
                 | compute_done | reflexivity].
  - eexists _, _. split; [reflexivity | compute_done].
Defined.

Lemma formatMigrationFile_other_folder_witness :
  formatMigrationFile "src/app.spec.js" (literal (beforeRegexp TE2e))
  = Throw (NonSpecFileError "src/app.spec.js" (beforeRegexp TE2e))
  ∧ formatMigrationFile "cypress/integration/app.cy.js"
      (literal (afterRegexp TE2e))
    = Throw (NonSpecFileError "cypress/integration/app.cy.js"
               (afterRegexp TE2e)).
Proof.
  split.
  - destruct (formatMigrationFile_other_folder TE2e "src/app.spec.js") as [H _].
    apply H. apply indexOf_None. reflexivity.
  - destruct (formatMigrationFile_other_folder TE2e
                "cypress/integration/app.cy.js") as [_ H].
    apply H. apply indexOf_None. reflexivity.
Defined.

Lemma formatObjectForConfig_body_witness :
  formatObjectForConfig (λ _ _, "{ a: { b: 1 } }")
    [("a", VObj [("b", VNum 1)])] 4 = "a: { b: 1 }".
Proof.
  destruct (formatObjectForConfig_body (λ _ _, "{ a: { b: 1 } }")
              [("a", VObj [("b", VNum 1)])] 4
              " a: { b: 1 } " eq_refl) as [H _].
  rewrite H. vm_compute. reflexivity.
Defined.

Lemma createConfigString_plain_options_witness :
  createConfigString (λ _ _, "{ video: false }") id [("video", VBool false)]
  = "const { defineConfig } = require('cypress')" +:+ nl +:+ nl
      +:+ "module.exports = defineConfig({"
      +:+ nl +:+ "video: false" +:+ "," +:+ nl +:+ "})".
Proof.
  apply (createConfigString_plain_options (λ _ _, "{ video: false }") id
           [("video", VBool false)] " video: false ").
  - done.
  - apply Forall_cons_2; [compute_done | apply Forall_nil_2].
  - reflexivity.
Defined.

Lemma getSpecs_no_directory_witness :
  getSpecs (λ _ _, Throw (SystemError "EACCES")) "/project" None (Some "")
  = Return {| before := []; after := [] |}.
Proof. apply getSpecs_no_directory; [by left | by right]. Defined.

Lemma getSpecs_listing_errors_witness :
  getSpecs (λ _ _, Throw (SystemError "EACCES")) "/project"
    (Some "cypress/component") None
  = Throw (SystemError "EACCES").
Proof.
  destruct (getSpecs_listing_errors (λ _ _, Throw (SystemError "EACCES"))
              "/project" (Some "cypress/component") None) as (_ & _ & _ & H).
  by apply (H "cypress/component").
Defined.


Lemma moveSpecFiles_frame_witness :
  let σ : gset string :=
    {[ "cypress/integration/a.spec.js"; "cypress/support/index.js" ]} in
  ∃ σ' res,
    moveSpecFiles FlatFS.readdir FlatFS.statIsFile FlatFS.moveSync
      FlatFS.pathJoin σ "cypress/integration" = (σ', res)
    ∧ FlatFS.statIsFile σ' "cypress/support/index.js"
      = FlatFS.statIsFile σ "cypress/support/index.js".
Proof.
  intros σ.
  pose (r := moveSpecFiles FlatFS.readdir FlatFS.statIsFile FlatFS.moveSync
               FlatFS.pathJoin σ "cypress/integration").
  exists r.1, r.2. split; [apply surjective_pairing|].
  apply (moveSpecFiles_frame (gset string) FlatFS.readdir FlatFS.statIsFile
           FlatFS.moveSync FlatFS.pathJoin FlatFS_moveSync_frame σ r.1
           "cypress/integration" ["a.spec.js"] r.2 "cypress/support/index.js").
  - vm_compute. reflexivity.
  - apply surjective_pairing.
  - intros f ->%list_elem_of_singleton. split; vm_compute; discriminate.
Defined.

Lemma moveSpecFiles_listing_fails_witness :
  moveSpecFiles (λ (σ : gset string) _, Return ["a.spec.js"; "b"; "c.spec.js"])
    (λ σ p, if String.eqb p "d/b" then Throw (SystemError "EACCES")
            else Return true)
    FlatFS.moveSync FlatFS.pathJoin {[ "d/a.spec.js" ]} "d"
  = ({[ "d/a.spec.js" ]}, Throw (SystemError "EACCES")).
Proof.
  destruct (moveSpecFiles_listing_fails (gset string)
              (λ σ _, Return ["a.spec.js"; "b"; "c.spec.js"])
              (λ σ p, if String.eqb p "d/b" then Throw (SystemError "EACCES")
                      else Return true)
              FlatFS.moveSync FlatFS.pathJoin {[ "d/a.spec.js" ]} "d"
              (SystemError "EACCES")) as [_ H].
  apply (H ["a.spec.js"] "b" ["c.spec.js"]).
  - reflexivity.
  - apply Forall_cons_2; [by exists true | apply Forall_nil_2].
  - reflexivity.
Defined.

End Instances.
